(** * GemKey: the trace-typing pipeline

    A shallow embedding of the gesture pipeline of the GemKey virtual
    keyboard:

    - [src/services/memoryOptimizer.ts]   the point pool ([PointPool]);
    - [src/components/VirtualKeyboard.tsx] the touch handlers
      ([handleTouchStart], [handleTouchMove], [handleTouchEnd]);
    - [src/services/geminiService.ts]      the decoder ([decipherSwipe]);
    - [src/App.tsx]                        the host callbacks
      ([handleSwipeLeft], [handleSwipeRight], [handleTraceEnd]).

    JavaScript strings are sequences of UTF-16 code units and are modelled
    as [list N]; objects live in an explicit heap so that object identity
    can be stated; exceptions are an explicit [completion] type. *)

From Stdlib Require Import String Ascii.
From Stdlib Require Import ZArith NArith QArith List Bool Lia.
From stdpp Require Import base list gmap.
Import ListNotations.

Set Default Proof Using "Type".
(* stdpp's solvers clear hypotheses by name *)
Set Warnings "-clear-no-such-hyp".

(** ** Completions: normal return or a thrown exception *)

Inductive exn := TypeError | ApiError.

Inductive completion (A : Type) :=
  | Normal (a : A)
  | Throw (e : exn).
Arguments Normal {A} a.
Arguments Throw {A} e.

#[global] Instance completion_ret : MRet completion := fun A a => Normal a.

#[global] Instance completion_bind : MBind completion := fun A B k c =>
  match c with
  | Normal a => k a
  | Throw e => Throw e
  end.

(** [try { body } catch (error) { handler }] *)
Definition try_catch {A} (body : completion A) (handler : exn -> completion A)
  : completion A :=
  match body with
  | Normal a => Normal a
  | Throw e => handler e
  end.

(** ** JavaScript strings *)

Module JsString.

(** A string is its sequence of UTF-16 code units. *)
Abbreviation jsstring := (list N).

(** An ASCII literal as a JavaScript string. *)
Fixpoint js (s : string) : jsstring :=
  match s with
  | EmptyString => []
  | String a r => N_of_ascii a :: js r
  end.

Definition SPACE : N := 32.
Definition LF : N := 10.
Definition DQUOTE : N := 34.

(** The code units removed by [trim], [trimStart] and [trimEnd]:
    ECMAScript WhiteSpace and LineTerminator. *)
Definition is_white_space (c : N) : bool :=
  (((9 <=? c) && (c <=? 13))
   || (c =? 32) || (c =? 160) || (c =? 5760)
   || ((8192 <=? c) && (c <=? 8202))
   || (c =? 8232) || (c =? 8233) || (c =? 8239) || (c =? 8287)
   || (c =? 12288) || (c =? 65279))%N.

Fixpoint trimStart (s : jsstring) : jsstring :=
  match s with
  | [] => []
  | c :: r => if is_white_space c then trimStart r else s
  end.

Definition trimEnd (s : jsstring) : jsstring := rev (trimStart (rev s)).

Definition trim (s : jsstring) : jsstring := trimEnd (trimStart s).

Fixpoint eqb_units (s t : jsstring) : bool :=
  match s, t with
  | [], [] => true
  | a :: s', b :: t' => (a =? b)%N && eqb_units s' t'
  | _, _ => false
  end.

Fixpoint startsWith (s t : jsstring) {struct t} : bool :=
  match t with
  | [] => true
  | b :: t' =>
      match s with
      | [] => false
      | a :: s' => (a =? b)%N && startsWith s' t'
      end
  end.

Definition endsWith (s t : jsstring) : bool := startsWith (rev s) (rev t).

(** [s.lastIndexOf(t)]: the greatest index at which [t] occurs, or -1.
    [i] is the index of the head of [s] in the whole string. *)
Fixpoint lastIndexOf_from (i : Z) (s t : jsstring) : Z :=
  match s with
  | [] => if startsWith [] t then i else (-1)%Z
  | _ :: r =>
      let k := lastIndexOf_from (i + 1) r t in
      if (0 <=? k)%Z then k
      else if startsWith s t then i else (-1)%Z
  end.

Definition lastIndexOf (s t : jsstring) : Z := lastIndexOf_from 0 s t.

(** [s.substring(a, b)]: arguments are clamped to [0, length] and swapped
    when out of order. *)
Definition substring (s : jsstring) (a b : Z) : jsstring :=
  let clamp v := Z.to_nat (Z.min (Z.max v 0) (Z.of_nat (length s))) in
  let lo := Nat.min (clamp a) (clamp b) in
  let hi := Nat.max (clamp a) (clamp b) in
  take (hi - lo) (drop lo s).

(** [s.split(sep)] for a separator of one code unit: the pieces between
    the occurrences of [sep]; never the empty array. *)
Fixpoint split_unit (sep : N) (s : jsstring) : list jsstring :=
  match s with
  | [] => [[]]
  | c :: r =>
      if (c =? sep)%N then [] :: split_unit sep r
      else
        match split_unit sep r with
        | [] => [[c]]
        | w :: ws => (c :: w) :: ws
        end
  end.

(** [s.split('')]: one string per code unit. *)
Definition split_empty (s : jsstring) : list jsstring :=
  map (fun c => [c]) s.

(** [parts.join('')] *)
Definition join_empty (parts : list jsstring) : jsstring := concat parts.

(** [new Set(values)] followed by spreading it into an array: a [Set]
    iterates in insertion order and ignores a value it already holds. *)
Definition Set_add (seen : list jsstring) (v : jsstring) : list jsstring :=
  if existsb (eqb_units v) seen then seen else seen ++ [v].

Definition Set_of (values : list jsstring) : list jsstring :=
  fold_left Set_add values [].

(** Truthiness of a string: non-empty. *)
Definition truthy (s : jsstring) : bool :=
  match s with [] => false | _ => true end.

(** [s.slice(a, b)]: a negative argument counts from the end; both are
    clamped to [0, length]; the result is empty when they are out of
    order. *)
Definition slice (s : jsstring) (a b : Z) : jsstring :=
  let len := Z.of_nat (length s) in
  let index v := Z.to_nat (if (v <? 0)%Z then Z.max (len + v) 0 else Z.min v len) in
  take (index b - index a) (drop (index a) s).

End JsString.
Import JsString.

(** ** The point pool ([src/services/memoryOptimizer.ts]) *)

Module Pool.

(** [interface Point { x: number; y: number }]; coordinates are CSS
    pixels, modelled as integers. *)
Record Point := mkPoint { x : Z; y : Z }.

(** Object identity: a [Point] object is a location of the heap. *)
Definition loc := nat.

(** What an array slot or an array read can hold. *)
Inductive jsval :=
  | Undefined
  | Ref (l : loc).

Definition is_ref (v : jsval) : Prop :=
  match v with Ref _ => True | Undefined => False end.

(** [class PointPool]: its two private fields. *)
Record PointPool := mkPointPool {
  pool : list jsval;
  maxPoolSize : nat
}.

(** [new PointPool()] *)
Definition new_PointPool : PointPool :=
  {| pool := []; maxPoolSize := 500 |}.

(** The heap of [Point] objects together with the module-level singleton
    [pointPool]. *)
Record Mem := mkMem {
  heap : gmap loc Point;
  pointPool : PointPool
}.

Definition initial_Mem : Mem :=
  {| heap := ∅; pointPool := new_PointPool |}.

(** [array.pop()]: removes and returns the last element. *)
Definition array_pop {A} (a : list A) : option (A * list A) :=
  match rev a with
  | [] => None
  | v :: r => Some (v, rev r)
  end.

(** [array[i]]: [undefined] out of range. *)
Definition array_get (a : list loc) (i : nat) : jsval :=
  match a !! i with
  | Some l => Ref l
  | None => Undefined
  end.

(** [obtain(x, y)].  The non-null assertion [pop()!] is erased at run
    time; assigning to a property of [undefined] throws a TypeError. *)
Definition obtain (x y : Z) (m : Mem) : completion (loc * Mem) :=
  let this := pointPool m in
  if 0 <? length (pool this) then
    match array_pop (pool this) with
    | Some (Ref p, rest) =>
        Normal (p, {| heap := <[p := mkPoint x y]> (heap m);
                      pointPool := {| pool := rest;
                                      maxPoolSize := maxPoolSize this |} |})
    | Some (Undefined, _) => Throw TypeError
    | None => Throw TypeError
    end
  else
    let p := fresh (dom (heap m)) in
    Normal (p, {| heap := <[p := mkPoint x y]> (heap m); pointPool := this |}).

(** [this.pool.push(v)] *)
Definition push (this : PointPool) (v : jsval) : PointPool :=
  {| pool := pool this ++ [v]; maxPoolSize := maxPoolSize this |}.

(** [recycle(points)].  The subtraction is only evaluated under the guard
    [pool.length < maxPoolSize], where it does not truncate. *)
Definition recycle (points : list loc) (this : PointPool) : PointPool :=
  if length (pool this) <? maxPoolSize this then
    let count := Nat.min (length points) (maxPoolSize this - length (pool this)) in
    fold_left (fun acc i => push acc (array_get points i)) (seq 0 count) this
  else this.

(** [cleanup()] *)
Definition cleanup (this : PointPool) : PointPool :=
  {| pool := []; maxPoolSize := maxPoolSize this |}.

Definition recycle_mem (points : list loc) (m : Mem) : Mem :=
  {| heap := heap m; pointPool := recycle points (pointPool m) |}.

Definition cleanup_mem (m : Mem) : Mem :=
  {| heap := heap m; pointPool := cleanup (pointPool m) |}.

(** A client of the pool issues a sequence of calls. *)
Inductive pool_op :=
  | OpObtain (x y : Z)
  | OpRecycle (points : list loc)
  | OpCleanup.

Definition run_op (o : pool_op) (m : Mem) : completion Mem :=
  match o with
  | OpObtain x y => r ← obtain x y m; mret (snd r)
  | OpRecycle points => mret (recycle_mem points m)
  | OpCleanup => mret (cleanup_mem m)
  end.

Fixpoint run_ops (os : list pool_op) (m : Mem) : completion Mem :=
  match os with
  | [] => mret m
  | o :: os' => m' ← run_op o m; run_ops os' m'
  end.

Definition pool_size (m : Mem) : nat := length (pool (pointPool m)).

End Pool.
Import Pool.

(** ** The translation cache ([src/services/dbService.ts]) *)

Module Db.

(** [interface TranslationEntity] *)
Record TranslationEntity := mkTranslationEntity {
  id : nat;
  source : jsstring;
  target : jsstring;
  original : jsstring;
  translated : jsstring;
  timestamp : Z
}.

(** The object store ['translations'] of the IndexedDB database: its
    records in insertion order and the key generator of its
    auto-incremented [id].  The store has the unique index ['lookup'] on
    [[source, target, original]]. *)
Record Database := mkDatabase {
  translations : list TranslationEntity;
  nextId : nat
}.

(** The database as [indexedDB.open] first creates it. *)
Definition empty_Database : Database := {| translations := []; nextId := 1 |}.

(** Equality of two keys of the index ['lookup']. *)
Definition lookup_key_eqb (s t o : jsstring) (e : TranslationEntity) : bool :=
  eqb_units s (source e) && eqb_units t (target e) && eqb_units o (original e).

(** [index.get([source, target, original])] *)
Definition index_get (s t o : jsstring) (d : Database) : option TranslationEntity :=
  find (lookup_key_eqb s t o) (translations d).

(** [store.add(record)]: the record gets the next [id]; a record whose
    index key is already present violates the unique index, the
    transaction aborts and the store and its key generator are as
    before. *)
Definition store_add (s t o tr : jsstring) (now : Z) (d : Database) : Database :=
  match index_get s t o d with
  | Some _ => d
  | None =>
      {| translations :=
           translations d
           ++ [{| id := nextId d; source := s; target := t; original := o;
                  translated := tr; timestamp := now |}];
         nextId := S (nextId d) |}
  end.

(** [getCachedTranslation(original, source, target)].  [db] is [None] when
    [getDB()] rejects; the promise then resolves with [null]. *)
Definition getCachedTranslation (db : option Database)
    (orig src tgt : jsstring) : option jsstring :=
  d ← db;
  res ← index_get src tgt (trim orig) d;
  Some (translated res).

(** [cacheTranslation(original, translated, source, target)], which never
    rejects; [now] is [Date.now()]. *)
Definition cacheTranslation (db : option Database)
    (orig tr src tgt : jsstring) (now : Z) : option Database :=
  d ← db; Some (store_add src tgt (trim orig) tr now d).

(** [clearTranslationCache()]: [store.clear()] empties the store and
    leaves its key generator. *)
Definition clearTranslationCache (db : option Database) : option Database :=
  d ← db; Some {| translations := []; nextId := nextId d |}.

(** [getTranslationCacheSize()] *)
Definition getTranslationCacheSize (db : option Database) : nat :=
  match db with
  | Some d => length (translations d)
  | None => 0
  end.

End Db.
Import Db.

(** ** The decoder ([src/services/geminiService.ts]) *)

Module Gemini.

(** The argument of [genAI.models.generateContent]. *)
Record GenerateContentRequest := mkRequest {
  model : jsstring;
  contents : jsstring
}.

(** The awaited response; its [text] may be [undefined]. *)
Record GenerateContentResponse := mkResponse {
  text : option jsstring
}.

(** The configured client: an awaited [generateContent] call resolves
    with a response or rejects. *)
Definition Client := GenerateContentRequest -> completion GenerateContentResponse.

Definition MODEL_NAME : jsstring := js "gemini-2.5-flash".

(** The template literal of [decipherSwipe]. *)
Definition swipe_prompt (swipePath context langName : jsstring) : jsstring :=
  js "The user is using a gesture typing keyboard." ++ [LF]
  ++ js "      Trace: " ++ [DQUOTE] ++ swipePath ++ [DQUOTE]
  ++ js ". Context: " ++ [DQUOTE] ++ context ++ [DQUOTE]
  ++ js ". Language: " ++ langName ++ js "." ++ [LF]
  ++ js "      Return ONLY the single most likely word.".

(** [a || b] on strings *)
Definition or_else (a : option jsstring) (b : jsstring) : jsstring :=
  match a with
  | Some s => if truthy s then s else b
  | None => b
  end.

(** [response.text?.trim().split(' ')[0] || ""] *)
Definition first_word (response : GenerateContentResponse) : jsstring :=
  or_else (t ← text response; split_unit SPACE (trim t) !! 0%nat) [].

(** [[...new Set(swipePath.split(''))].join('')] *)
Definition fallback_word (swipePath : jsstring) : jsstring :=
  join_empty (Set_of (split_empty swipePath)).

(** What a call of [decipherSwipe] does: the requests it sent to the
    model, and how its promise settles. *)
Record Deciphered := mkDeciphered {
  requests : list GenerateContentRequest;
  settled : completion jsstring
}.

Definition decipherSwipe (genAI : option Client)
    (swipePath context language : jsstring) : Deciphered :=
  match genAI with
  | None => {| requests := []; settled := Normal [] |}
  | Some ai =>
      if negb (truthy (trim swipePath)) then
        {| requests := []; settled := Normal [] |}
      else if (length swipePath <? 3)%nat then
        {| requests := []; settled := try_catch (Normal swipePath)
                                        (fun _ => Normal (fallback_word swipePath)) |}
      else
        let langName :=
          if eqb_units language (js "AR") then js "Arabic" else js "English" in
        let request :=
          {| model := MODEL_NAME;
             contents := swipe_prompt swipePath context langName |} in
        {| requests := [request];
           settled := try_catch (response ← ai request; mret (first_word response))
                        (fun _ => Normal (fallback_word swipePath)) |}
  end.

(** What a call of one of the other functions of the service does: the
    requests it sent to the model, the number of [console.error] and
    [console.warn] calls it made, and how its promise settles. *)
Record Answered := mkAnswered {
  asked : list GenerateContentRequest;
  complaints : nat;
  outcome : completion jsstring
}.

(** [response.text?.trim() || fallback] *)
Definition trimmed_text (response : GenerateContentResponse) (fallback : jsstring)
  : jsstring :=
  or_else (t ← text response; Some (trim t)) fallback.

(** A call of the model inside [try { ... } catch (error) { console.error(...);
    throw error; }], answering with [response.text?.trim() || fallback]. *)
Definition ask_or_rethrow (ai : Client) (request : GenerateContentRequest)
    (fallback : jsstring) : Answered :=
  match ai request with
  | Normal response =>
      {| asked := [request]; complaints := 0;
         outcome := Normal (trimmed_text response fallback) |}
  | Throw e => {| asked := [request]; complaints := 1; outcome := Throw e |}
  end.

Definition completeText_prompt (currentText : jsstring) : jsstring :=
  js "You are a helpful writing assistant. Complete the following sentence or paragraph naturally. "
  ++ [LF]
  ++ js "      Only provide the completion, starting from where the user left off. Do not repeat the user's text."
  ++ [LF] ++ js "      Keep it brief (max 2 sentences)." ++ [LF]
  ++ js "      " ++ [LF]
  ++ js "      User text: " ++ [DQUOTE] ++ currentText ++ [DQUOTE].

Definition completeText (genAI : option Client) (currentText : jsstring) : Answered :=
  match genAI with
  | None => {| asked := []; complaints := 0; outcome := Normal [] |}
  | Some ai =>
      if negb (truthy (trim currentText)) then
        {| asked := []; complaints := 0; outcome := Normal [] |}
      else
        ask_or_rethrow ai
          {| model := MODEL_NAME; contents := completeText_prompt currentText |} []
  end.

Definition fixGrammar_prompt (txt : jsstring) : jsstring :=
  js "Correct the grammar and spelling of the following text. Return ONLY the corrected text."
  ++ [LF] ++ js "      " ++ [LF]
  ++ js "      Text: " ++ [DQUOTE] ++ txt ++ [DQUOTE].

Definition fixGrammar (genAI : option Client) (txt : jsstring) : Answered :=
  match genAI with
  | None => {| asked := []; complaints := 0; outcome := Normal txt |}
  | Some ai =>
      if negb (truthy (trim txt)) then
        {| asked := []; complaints := 0; outcome := Normal txt |}
      else
        ask_or_rethrow ai
          {| model := MODEL_NAME; contents := fixGrammar_prompt txt |} txt
  end.

(** [enum ToneType], by its string values. *)
Inductive ToneType := PROFESSIONAL | CASUAL | POETIC | CONCISE.

Definition tone_value (tone : ToneType) : jsstring :=
  match tone with
  | PROFESSIONAL => js "Professional"
  | CASUAL => js "Casual"
  | POETIC => js "Poetic"
  | CONCISE => js "Concise"
  end.

Definition changeTone_prompt (txt : jsstring) (tone : ToneType) : jsstring :=
  js "Rewrite the following text to have a " ++ tone_value tone
  ++ js " tone. Return ONLY the rewritten text."
  ++ [LF] ++ js "      " ++ [LF]
  ++ js "      Text: " ++ [DQUOTE] ++ txt ++ [DQUOTE].

Definition changeTone (genAI : option Client) (txt : jsstring) (tone : ToneType)
  : Answered :=
  match genAI with
  | None => {| asked := []; complaints := 0; outcome := Normal txt |}
  | Some ai =>
      if negb (truthy (trim txt)) then
        {| asked := []; complaints := 0; outcome := Normal txt |}
      else
        ask_or_rethrow ai
          {| model := MODEL_NAME; contents := changeTone_prompt txt tone |} txt
  end.

Definition detectLanguage_prompt (txt : jsstring) : jsstring :=
  js "Identify the language of the following text. Return ONLY the 2-letter ISO code."
  ++ [LF] ++ js "      Text: " ++ [DQUOTE] ++ txt ++ [DQUOTE].

(** [detectLanguage(text)].  [toLowerCase] stands for
    [String.prototype.toLowerCase], the Unicode lower-casing of the
    platform. *)
Definition detectLanguage (toLowerCase : jsstring -> jsstring)
    (genAI : option Client) (txt : jsstring) : Answered :=
  match genAI with
  | None => {| asked := []; complaints := 0; outcome := Normal (js "unknown") |}
  | Some ai =>
      if negb (truthy (trim txt)) then
        {| asked := []; complaints := 0; outcome := Normal (js "unknown") |}
      else
        let request :=
          {| model := MODEL_NAME; contents := detectLanguage_prompt txt |} in
        {| asked := [request]; complaints := 0;
           outcome :=
             try_catch
               (response ← ai request;
                mret (or_else (t ← text response;
                               Some (slice (toLowerCase (trim t)) 0 2))
                        (js "unknown")))
               (fun _ => Normal (js "unknown")) |}
  end.

(** *** Translation *)

(** [type SupportedLanguage] *)
Inductive SupportedLanguage :=
  | lang_auto | lang_ar | lang_en | lang_fr | lang_es | lang_de
  | lang_ru | lang_tr | lang_fa | lang_ur | lang_hi.

Definition lang_code (l : SupportedLanguage) : jsstring :=
  match l with
  | lang_auto => js "auto" | lang_ar => js "ar" | lang_en => js "en"
  | lang_fr => js "fr" | lang_es => js "es" | lang_de => js "de"
  | lang_ru => js "ru" | lang_tr => js "tr" | lang_fa => js "fa"
  | lang_ur => js "ur" | lang_hi => js "hi"
  end.

(** [SUPPORTED_LANGUAGES], with the [code] and [label] of each entry. *)
Definition SUPPORTED_LANGUAGES : list (jsstring * jsstring) :=
  [(js "auto", js "Detect Language"); (js "ar", js "Arabic");
   (js "en", js "English"); (js "fr", js "French"); (js "es", js "Spanish");
   (js "de", js "German"); (js "ru", js "Russian"); (js "tr", js "Turkish");
   (js "fa", js "Persian"); (js "ur", js "Urdu"); (js "hi", js "Hindi")].

(** [SUPPORTED_LANGUAGES.find(l => l.code === lang)?.label || fallback] *)
Definition label_of (lang : SupportedLanguage) (fallback : jsstring) : jsstring :=
  or_else (entry ← find (fun entry => eqb_units (fst entry) (lang_code lang))
                     SUPPORTED_LANGUAGES;
           Some (snd entry))
    fallback.

(** The request of [fallbackTranslate]: the query parameters [q] and
    [langpair] of the URL. *)
Record FetchRequest := mkFetchRequest {
  q : jsstring;
  langpair : jsstring
}.

(** The response of [fetch]: [response.ok], and what
    [(await response.json()).responseData?.translatedText] yields, which
    may throw. *)
Record FetchResponse := mkFetchResponse {
  ok : bool;
  translatedText : completion (option jsstring)
}.

(** The network: [fetch] resolves with a response or rejects. *)
Definition Fetch := FetchRequest -> completion FetchResponse.

Definition fallback_request (txt : jsstring) (src tgt : SupportedLanguage)
  : FetchRequest :=
  let srcName :=
    if eqb_units (lang_code src) (js "auto") then js "Autodetect" else lang_code src in
  {| q := txt; langpair := srcName ++ js "|" ++ lang_code tgt |}.

(** [fallbackTranslate(text, source, target)]; its [catch] rethrows. *)
Definition fallbackTranslate (fetch : Fetch) (txt : jsstring)
    (src tgt : SupportedLanguage) : completion jsstring :=
  response ← fetch (fallback_request txt src tgt);
  if negb (ok response) then Throw ApiError
  else
    found ← translatedText response;
    mret (or_else found txt).

(** [interface TranslateOptions], with its defaults resolved. *)
Record TranslateOptions := mkTranslateOptions {
  useCache : bool;
  isOffline : bool
}.

Inductive TranslationMethod :=
  | by_cache | by_gemini | by_fallback | by_offline.

(** A call of [logTranslation]; the duration it also reports is wall-clock
    time and is left out. *)
Record TranslationLog := mkTranslationLog {
  source_lang : jsstring;
  target_lang : jsstring;
  text_length : nat;
  method : TranslationMethod
}.

(** What a call of [translateText] does: the requests sent to the model
    and to the network, the calls of [logTranslation], the number of
    [console.warn] and [console.error] calls, the translation store it
    leaves, and how its promise settles. *)
Record Translated := mkTranslated {
  to_model : list GenerateContentRequest;
  to_network : list FetchRequest;
  logged : list TranslationLog;
  complained : nat;
  database : option Database;
  translation : completion jsstring
}.

Definition translate_prompt (txt : jsstring) (src tgt : SupportedLanguage) : jsstring :=
  let sourceLabel := label_of src (js "Auto-Detect") in
  let targetLabel := label_of tgt (js "English") in
  (if eqb_units (lang_code src) (js "auto")
   then js "Translate into " ++ targetLabel
        ++ js ". Auto-detect source. Return ONLY text."
   else js "Translate from " ++ sourceLabel ++ js " to " ++ targetLabel
        ++ js ". Return ONLY text.")
  ++ js " Text: " ++ [DQUOTE] ++ txt ++ [DQUOTE].

Definition translate_request (txt : jsstring) (src tgt : SupportedLanguage)
  : GenerateContentRequest :=
  {| model := MODEL_NAME; contents := translate_prompt txt src tgt |}.

(** Truthiness of [string | null]. *)
Definition truthy_opt (s : option jsstring) : bool :=
  match s with
  | Some v => truthy v
  | None => false
  end.

(** [translateText(text, sourceLang, targetLang, options)].  [db] is the
    translation store, [None] when the database cannot be opened; [now]
    is [Date.now()] when the result is cached. *)
Definition translateText (genAI : option Client) (fetch : Fetch)
    (db : option Database) (now : Z) (txt : jsstring)
    (src tgt : SupportedLanguage) (options : TranslateOptions) : Translated :=
  let log m := {| source_lang := lang_code src; target_lang := lang_code tgt;
                  text_length := length txt; method := m |} in
  if negb (truthy (trim txt)) then
    {| to_model := []; to_network := []; logged := []; complained := 0;
       database := db; translation := Normal txt |}
  else
    (* 1. Check Cache *)
    let consult := useCache options || isOffline options in
    let cached :=
      if consult
      then getCachedTranslation db txt (lang_code src) (lang_code tgt)
      else None in
    if consult && truthy_opt cached then
      {| to_model := []; to_network := []; logged := [log by_cache];
         complained := 0; database := db;
         translation := Normal (default [] cached) |}
    else if consult && isOffline options then
      {| to_model := []; to_network := []; logged := [log by_offline];
         complained := 0; database := db;
         translation := Normal (txt ++ js " [OFFLINE]") |}
    else
      (* 2. Try Gemini *)
      let '(sent, warned, first) :=
        match genAI with
        | None => ([], 0, [])
        | Some ai =>
            match ai (translate_request txt src tgt) with
            | Normal response =>
                ([translate_request txt src tgt], 0, trimmed_text response [])
            | Throw _ => ([translate_request txt src tgt], 1, [])
            end
        end in
      (* 3. Fallback *)
      if negb (truthy first) then
        match fallbackTranslate fetch txt src tgt with
        | Throw _ =>
            {| to_model := sent; to_network := [fallback_request txt src tgt];
               logged := []; complained := warned + 1; database := db;
               translation := Normal txt |}
        | Normal result =>
            (* 4. Cache Result & Log *)
            if truthy result && negb (eqb_units result txt) then
              {| to_model := sent; to_network := [fallback_request txt src tgt];
                 logged := [log by_fallback]; complained := warned;
                 database := if useCache options
                             then cacheTranslation db txt result
                                    (lang_code src) (lang_code tgt) now
                             else db;
                 translation := Normal result |}
            else
              {| to_model := sent; to_network := [fallback_request txt src tgt];
                 logged := []; complained := warned; database := db;
                 translation := Normal result |}
        end
      else
        (* 4. Cache Result & Log *)
        if negb (eqb_units first txt) then
          {| to_model := sent; to_network := []; logged := [log by_gemini];
             complained := warned;
             database := if useCache options
                         then cacheTranslation db txt first
                                (lang_code src) (lang_code tgt) now
                         else db;
             translation := Normal first |}
        else
          {| to_model := sent; to_network := []; logged := [];
             complained := warned; database := db; translation := Normal first |}.

End Gemini.
Import Gemini.

(** ** The automatic size manager ([autoSizeManager], used by [src/App.tsx]) *)

Module AutoSize.

(** [type SizeType = 'small' | 'medium' | 'large' | 'full' | 'custom'] *)
Inductive SizeType := small | medium | large | full | custom.

#[global] Instance SizeType_eq_dec : EqDecision SizeType.
Proof. solve_decision. Defined.

Inductive ScreenContext := landscape_mobile | tablet_desktop | portrait_mobile.

#[global] Instance ScreenContext_eq_dec : EqDecision ScreenContext.
Proof. solve_decision. Defined.

Definition SIZE_RULES (context : ScreenContext) : SizeType :=
  match context with
  | landscape_mobile => small
  | tablet_desktop => large
  | portrait_mobile => medium
  end.

Definition context_name (context : ScreenContext) : jsstring :=
  match context with
  | landscape_mobile => js "landscape_mobile"
  | tablet_desktop => js "tablet_desktop"
  | portrait_mobile => js "portrait_mobile"
  end.

(** What a method reads from the browser when it runs:
    [window.innerWidth], [window.innerHeight], [Date.now()] (milliseconds)
    and [new Date().getHours()]. *)
Record Env := mkEnv {
  innerWidth : Z;
  innerHeight : Z;
  now : Z;
  hours : Z
}.

(** A call of the registered callback: [callback(size, reason)]. *)
Record Suggestion := mkSuggestion {
  receiver : nat;
  size : SizeType;
  reason : jsstring
}.

(** [class AutoSizeManager].  A callback is named by a number; the
    interval handle is recorded by whether the timer runs. *)
Record AutoSizeManager := mkAutoSizeManager {
  isEnabled : bool;
  callback : option nat;
  keyTimestamps : list Z;
  lastSuggestion : option SizeType;
  timeCheckInterval : bool
}.

(** [new AutoSizeManager()] *)
Definition new_AutoSizeManager : AutoSizeManager :=
  {| isEnabled := false; callback := None; keyTimestamps := [];
     lastSuggestion := None; timeCheckInterval := false |}.

Definition determineContext (env : Env) : ScreenContext :=
  let width := innerWidth env in
  let height := innerHeight env in
  if (1024 <=? width)%Z || (1024 <=? height)%Z then tablet_desktop
  else if (height <? width)%Z && (height <? 600)%Z then landscape_mobile
  else portrait_mobile.

Definition getContextRecommendation (env : Env) : SizeType :=
  SIZE_RULES (determineContext env).

Definition suggest (this : AutoSizeManager) (sz : SizeType) (why : jsstring)
  : AutoSizeManager * list Suggestion :=
  match callback this with
  | None => (this, [])
  | Some cb =>
      ({| isEnabled := isEnabled this; callback := callback this;
          keyTimestamps := keyTimestamps this; lastSuggestion := Some sz;
          timeCheckInterval := timeCheckInterval this |},
       [{| receiver := cb; size := sz; reason := why |}])
  end.

Definition evaluateAll (env : Env) (this : AutoSizeManager)
  : AutoSizeManager * list Suggestion :=
  let context := determineContext env in
  let '(recommendation, specificReason) :=
    if bool_decide (context = portrait_mobile)
       && ((20 <=? hours env)%Z || (hours env <? 6)%Z)
    then (large, js "Night time (Better visibility)")
    else (SIZE_RULES context, js "Context: " ++ context_name context) in
  if bool_decide (lastSuggestion this <> Some recommendation)
  then suggest this recommendation specificReason
  else (this, []).

(** [keyTimestamps[i]]; the loop of [analyzeTypingSpeed] only reads inside
    the array. *)
Definition timestamp_at (ts : list Z) (i : nat) : Z := default 0%Z (ts !! i).

(** The loop [for (let i = 1; i < keyTimestamps.length; i++) totalDiff += ...] *)
Definition totalDiff (ts : list Z) : Z :=
  fold_left (fun acc i => (acc + (timestamp_at ts i - timestamp_at ts (i - 1)))%Z)
    (seq 1 (length ts - 1)) 0%Z.

(** [totalDiff / (keyTimestamps.length - 1)].  The timestamps are integers
    ([Date.now()]), so [totalDiff] is an integer and the divisor is between
    4 and 19; the quotient is kept exact here.  The double the code
    computes compares with 120 and with 400 as the exact quotient does:
    rounding is monotone, and a quotient that differs from an integer
    bound differs from it by at least 1/19. *)
Definition avgDiff (ts : list Z) : Q :=
  (inject_Z (totalDiff ts) / inject_Z (Z.of_nat (length ts) - 1))%Q.

Definition Qltb (a b : Q) : bool := negb (Qle_bool b a).

Definition analyzeTypingSpeed (env : Env) (this : AutoSizeManager)
  : AutoSizeManager * list Suggestion :=
  if (length (keyTimestamps this) <? 5)%nat then (this, [])
  else
    let avg := avgDiff (keyTimestamps this) in
    let context := determineContext env in
    if bool_decide (context = portrait_mobile) then
      if Qltb avg (inject_Z 120) && bool_decide (lastSuggestion this <> Some small)
      then suggest this small (js "Fast typing speed detected")
      else if Qltb (inject_Z 400) avg
              && bool_decide (lastSuggestion this <> Some large)
      then suggest this large (js "Slow typing speed detected")
      else (this, [])
    else (this, []).

(** [array.shift()] *)
Definition array_shift {A} (a : list A) : list A := tail a.

Definition reportKeyPress (env : Env) (this : AutoSizeManager)
  : AutoSizeManager * list Suggestion :=
  if negb (isEnabled this) then (this, [])
  else
    let pushed := keyTimestamps this ++ [now env] in
    let kept := if (20 <? length pushed)%nat then array_shift pushed else pushed in
    analyzeTypingSpeed env
      {| isEnabled := isEnabled this; callback := callback this;
         keyTimestamps := kept; lastSuggestion := lastSuggestion this;
         timeCheckInterval := timeCheckInterval this |}.

Definition handleResize (env : Env) (this : AutoSizeManager)
  : AutoSizeManager * list Suggestion :=
  if negb (isEnabled this) then (this, []) else evaluateAll env this.

Definition checkTimeOfDay (env : Env) (this : AutoSizeManager)
  : AutoSizeManager * list Suggestion :=
  if negb (isEnabled this) then (this, []) else evaluateAll env this.

(** [enable(cb)]; [env] is what [checkTimeOfDay] reads and [env'] what the
    initial [evaluateAll] reads. *)
Definition enable (cb : nat) (env env' : Env) (this : AutoSizeManager)
  : AutoSizeManager * list Suggestion :=
  if isEnabled this then (this, [])
  else
    let started :=
      {| isEnabled := true; callback := Some cb;
         keyTimestamps := keyTimestamps this;
         lastSuggestion := lastSuggestion this;
         timeCheckInterval := timeCheckInterval this |} in
    let '(checked, first) := checkTimeOfDay env started in
    let timed :=
      {| isEnabled := isEnabled checked; callback := callback checked;
         keyTimestamps := keyTimestamps checked;
         lastSuggestion := lastSuggestion checked;
         timeCheckInterval := true |} in
    let '(evaluated, second) := evaluateAll env' timed in
    (evaluated, first ++ second).

Definition disable (this : AutoSizeManager) : AutoSizeManager :=
  {| isEnabled := false; callback := None; keyTimestamps := [];
     lastSuggestion := lastSuggestion this; timeCheckInterval := false |}.

(** What happens to the manager: calls of its public methods, window
    resizes and ticks of its one-minute timer. *)
Inductive auto_op :=
  | Enable (cb : nat) (env env' : Env)
  | Disable
  | KeyPress (env : Env)
  | Resize (env : Env)
  | Tick (env : Env).

Definition auto_step (o : auto_op) (this : AutoSizeManager)
  : AutoSizeManager * list Suggestion :=
  match o with
  | Enable cb env env' => enable cb env env' this
  | Disable => (disable this, [])
  | KeyPress env => reportKeyPress env this
  | Resize env => handleResize env this
  | Tick env => if timeCheckInterval this then checkTimeOfDay env this else (this, [])
  end.

Fixpoint auto_run (os : list auto_op) (this : AutoSizeManager)
  : AutoSizeManager * list Suggestion :=
  match os with
  | [] => (this, [])
  | o :: rest =>
      let '(next, out) := auto_step o this in
      let '(final, outs) := auto_run rest next in
      (final, out ++ outs)
  end.

End AutoSize.
Import AutoSize.

(** ** The host application ([src/App.tsx]) *)

Module App.

(** [language: 'EN' | 'AR'] *)
Inductive Language := EN | AR.

Definition language_code (l : Language) : jsstring :=
  match l with EN => js "EN" | AR => js "AR" end.

(** The fields of [KeyboardSettings] read by the trace pipeline. *)
Record KeyboardSettings := mkSettings {
  language : Language;
  traceTyping : bool;
  incognitoMode : bool;
  encryptKeystrokes : bool
}.

(** Calls made to collaborators, in order. *)
Inductive event :=
  | SetIsLoading (b : bool)
  | DecipherSwipe (swipePath context language : jsstring)
  | GenerateContent (request : GenerateContentRequest)
  | LearnFromUser (word : jsstring) (isIncognito : bool) (language : jsstring)
  | ConsoleError
  | SetIsKeyboardVisible (b : bool)
  | Blur.

(** The result of running a handler: the calls it made and the text
    buffer it leaves. *)
Record Ran := mkRan {
  log : list event;
  buffer : jsstring
}.

(** [handleSwipeLeft]: the [setText] updater. *)
Definition handleSwipeLeft (prev : jsstring) : jsstring :=
  let trimmed := trimEnd prev in
  let lastSpaceIndex := lastIndexOf trimmed [SPACE] in
  if (lastSpaceIndex =? -1)%Z then []
  else substring trimmed 0 lastSpaceIndex ++ [SPACE].

(** [handleSwipeRight]: the [setText] updater. *)
Definition handleSwipeRight (prev : jsstring) : jsstring := prev ++ [SPACE].

(** [handleSwipeDown] *)
Definition handleSwipeDown (prev : jsstring) : Ran :=
  {| log := [SetIsKeyboardVisible false; Blur]; buffer := prev |}.

(** The [setText] updater of [handleTraceEnd], with the call of the
    frequency learner it makes. *)
Definition append_word (settings : KeyboardSettings)
    (decipheredWord prev : jsstring) : Ran :=
  let needsSpace :=
    (0 <? length prev)%nat && negb (endsWith prev [SPACE])
    && negb (startsWith decipheredWord [SPACE]) in
  let newText :=
    prev ++ (if needsSpace then [SPACE] else []) ++ decipheredWord ++ [SPACE] in
  {| log := if negb (incognitoMode settings) && negb (encryptKeystrokes settings)
            then [LearnFromUser decipheredWord false
                    (language_code (language settings))]
            else [];
     buffer := newText |}.

(** [handleTraceEnd(path)].  [text] is the value of the state variable
    captured by the handler; [prev] is the buffer when the updater
    runs.  The body of the [try] yields its calls, the buffer and its
    completion; [catch] and [finally] follow. *)
Definition handleTraceEnd (genAI : option Client) (settings : KeyboardSettings)
    (text path prev : jsstring) : Ran :=
  if negb (truthy path) then {| log := []; buffer := prev |}
  else
    let context :=
      if incognitoMode settings || encryptKeystrokes settings then [] else text in
    let lang := language_code (language settings) in
    let d := decipherSwipe genAI path context lang in
    let called := DecipherSwipe path context lang
                  :: map GenerateContent (requests d) in
    let body : Ran * completion unit :=
      match settled d with
      | Throw e => ({| log := called; buffer := prev |}, Throw e)
      | Normal decipheredWord =>
          if truthy decipheredWord then
            let r := append_word settings decipheredWord prev in
            ({| log := called ++ log r; buffer := buffer r |}, Normal tt)
          else ({| log := called; buffer := prev |}, Normal tt)
      end in
    let caught :=
      match snd body with
      | Normal _ => []
      | Throw _ => [ConsoleError]
      end in
    {| log := SetIsLoading true :: log (fst body) ++ caught ++ [SetIsLoading false];
       buffer := buffer (fst body) |}.

(** [handleKeyPress(char)]: the key press is reported to the size manager
    and the character appended. *)
Definition handleKeyPress (env : Env) (char : jsstring)
    (auto : AutoSizeManager) (prev : jsstring)
  : AutoSizeManager * list Suggestion * jsstring :=
  (reportKeyPress env auto, prev ++ char).

(** [handleDelete]: the [setText] updater. *)
Definition handleDelete (prev : jsstring) : jsstring := slice prev 0 (-1).

(** The calls recorded for a call of the service: its requests, then its
    console messages. *)
Definition answered_calls (a : Answered) : list event :=
  map GenerateContent (asked a) ++ replicate (complaints a) ConsoleError.

(** The shape shared by the handlers that call the service:
    [setIsLoading(true); try { ... } catch (e) { console.error(e); }
    finally { setIsLoading(false); }], where [update] is what the [try]
    does with the resolved value. *)
Definition with_loading (a : Answered) (prev : jsstring)
    (update : jsstring -> jsstring) : Ran :=
  match outcome a with
  | Normal value =>
      {| log := SetIsLoading true :: answered_calls a ++ [SetIsLoading false];
         buffer := update value |}
  | Throw _ =>
      {| log := SetIsLoading true :: answered_calls a
                ++ [ConsoleError; SetIsLoading false];
         buffer := prev |}
  end.

(** [handleSmartComplete].  [text] is the state captured by the handler,
    [prev] the buffer when the updater runs. *)
Definition handleSmartComplete (genAI : option Client) (text prev : jsstring) : Ran :=
  if negb (truthy text) then {| log := []; buffer := prev |}
  else
    with_loading (completeText genAI text) prev
      (fun completion =>
         if truthy completion
         then prev ++ (if endsWith prev [SPACE] then [] else [SPACE]) ++ completion
         else prev).

(** [handleFixGrammar]: [setText(fixed)] replaces the buffer. *)
Definition handleFixGrammar (genAI : option Client) (text prev : jsstring) : Ran :=
  if negb (truthy text) then {| log := []; buffer := prev |}
  else with_loading (fixGrammar genAI text) prev (fun fixed => fixed).

(** [handleChangeTone(tone)] *)
Definition handleChangeTone (genAI : option Client) (tone : ToneType)
    (text prev : jsstring) : Ran :=
  if negb (truthy text) then {| log := []; buffer := prev |}
  else with_loading (changeTone genAI text tone) prev (fun rewritten => rewritten).

(** The settings read by the real-time translation effect. *)
Record TranslationSettings := mkTranslationSettings {
  realTimeTranslation : bool;
  translationSource : SupportedLanguage;
  translationTarget : SupportedLanguage;
  cacheTranslations : bool;
  offlineMode : bool
}.

(** One run of the real-time translation effect and of the timer it sets:
    the call of [translateText] it makes, if any, and the buffer and the
    translation store it leaves. *)
Record AutoTranslated := mkAutoTranslated {
  translate_call : option Translated;
  text_after : jsstring;
  store_after : option Database
}.

(** The effect "Real-Time Translation Logic (Debounced)" and the callback
    of its timer. *)
Definition realTimeTranslate (genAI : option Client) (fetch : Fetch)
    (db : option Database) (now : Z) (ts : TranslationSettings)
    (isLoading isTranslationMode : bool) (text : jsstring) : AutoTranslated :=
  if negb (realTimeTranslation ts) || negb (truthy (trim text))
     || isLoading || isTranslationMode then
    {| translate_call := None; text_after := text; store_after := db |}
  else if (3 <? length text)%nat then
    let t := translateText genAI fetch db now text
               (translationSource ts) (translationTarget ts)
               {| useCache := cacheTranslations ts; isOffline := offlineMode ts |} in
    {| translate_call := Some t;
       text_after :=
         match translation t with
         | Normal translated =>
             if negb (eqb_units translated text) then translated else text
         | Throw _ => text
         end;
       store_after := database t |}
  else {| translate_call := None; text_after := text; store_after := db |}.

(** Successive runs of the effect, each on the buffer and the store the
    one before left; [clock] holds the reading of [Date.now()] of each
    run. *)
Fixpoint realTimeTranslate_rounds (clock : list Z) (genAI : option Client)
    (fetch : Fetch) (db : option Database) (ts : TranslationSettings)
    (text : jsstring) : list Translated * jsstring * option Database :=
  match clock with
  | [] => ([], text, db)
  | now :: later =>
      let round := realTimeTranslate genAI fetch db now ts false false text in
      let '(calls, final, store) :=
        realTimeTranslate_rounds later genAI fetch (store_after round) ts
          (text_after round) in
      (match translate_call round with Some t => [t] | None => [] end ++ calls,
       final, store)
  end.

End App.
Import App.

(** ** The touch handlers ([src/components/VirtualKeyboard.tsx]) *)

Module Keyboard.

(** One entry of a DOM [TouchList].  [keyValue] is what the hit test at
    the touch point yields:
    [document.elementFromPoint(clientX, clientY)?.getAttribute('data-key-value')],
    with [null] and [undefined] as [None]. *)
Record Touch := mkTouch {
  clientX : Z;
  clientY : Z;
  keyValue : option jsstring
}.

(** A [TouchList] delivered with a touch event holds at least one
    touch: [touch0] is entry 0. *)
Record TouchList := mkTouchList {
  touch0 : Touch;
  more : list Touch
}.

Definition touch_count (l : TouchList) : nat := S (length (more l)).

Definition single (t : Touch) : TouchList := {| touch0 := t; more := [] |}.

Record TouchEvent := mkTouchEvent {
  touches : TouchList;
  changedTouches : TouchList
}.

(** The props read by the handlers; an optional callback is recorded by
    whether the parent passed it. *)
Record Props := mkProps {
  settings : KeyboardSettings;
  isResizeMode : bool;
  isButtonEditMode : bool;
  onSwipeLeft : bool;
  onSwipeRight : bool;
  onSwipeDown : bool;
  onTraceEnd : bool;
  onUpdateSize : bool
}.

(** The props [App] renders the keyboard with. *)
Definition app_props (s : KeyboardSettings) (resize edit : bool) : Props :=
  {| settings := s; isResizeMode := resize; isButtonEditMode := edit;
     onSwipeLeft := true; onSwipeRight := true; onSwipeDown := true;
     onTraceEnd := true; onUpdateSize := true |}.

(** The refs of the component that the touch handlers read.  The pinch
    distance is kept as its square; the handlers only test it against
    [null] (the resize itself runs later, in an animation frame, and is
    not modelled, nor is [initialHeight], which only that frame reads).
    The two DOM refs are recorded by whether they are attached. *)
Record Refs := mkRefs {
  touchStart : option (Z * Z);
  swipePath : jsstring;
  tracePoints : list loc;
  initialPinchDistance : option Z;
  canvasRef : bool;
  containerRef : bool
}.

Definition initial_Refs : Refs :=
  {| touchStart := None; swipePath := []; tracePoints := [];
     initialPinchDistance := None; canvasRef := true; containerRef := true |}.

(** Callbacks invoked by a handler, in order. *)
Inductive call :=
  | CallSwipeLeft
  | CallSwipeRight
  | CallSwipeDown
  | CallTraceEnd (path : jsstring)
  | CallRequestAnimationFrame.

Definition hypot2 (a b : Touch) : Z :=
  ((clientX a - clientX b) * (clientX a - clientX b)
   + (clientY a - clientY b) * (clientY a - clientY b))%Z.

Definition handleTouchStart (props : Props) (e : TouchEvent) (r : Refs) (m : Mem)
  : completion (Refs * Mem) :=
  if (touch_count (touches e) =? 2)%nat then
    let dist := hypot2 (touch0 (touches e))
                  (default (touch0 (touches e)) (head (more (touches e)))) in
    mret ({| touchStart := touchStart r; swipePath := swipePath r;
             tracePoints := tracePoints r; initialPinchDistance := Some dist;
             canvasRef := canvasRef r; containerRef := containerRef r |}, m)
  else
    let touch := touch0 (touches e) in
    if traceTyping (settings props) && negb (isButtonEditMode props)
       && negb (isResizeMode props) then
      let '(points, m1) :=
        if (0 <? length (tracePoints r))%nat
        then ([], recycle_mem (tracePoints r) m)
        else (tracePoints r, m) in
      o ← obtain (clientX touch) (clientY touch) m1;
      mret ({| touchStart := Some (clientX touch, clientY touch);
               swipePath := [];
               tracePoints := points ++ [fst o];
               initialPinchDistance := initialPinchDistance r;
               canvasRef := canvasRef r; containerRef := containerRef r |},
            snd o)
    else mret (r, m).

(** [if (keyVal && !swipePath.current.endsWith(keyVal)) swipePath.current += keyVal] *)
Definition cross (path : jsstring) (keyVal : option jsstring) : jsstring :=
  match keyVal with
  | Some k => if truthy k && negb (endsWith path k) then path ++ k else path
  | None => path
  end.

Definition handleTouchMove (props : Props) (e : TouchEvent) (r : Refs) (m : Mem)
  : completion (list call * Refs * Mem) :=
  if (touch_count (touches e) =? 2)%nat
     && bool_decide (is_Some (initialPinchDistance r)) && onUpdateSize props then
    mret ([CallRequestAnimationFrame], r, m)
  else if traceTyping (settings props) && bool_decide (is_Some (touchStart r))
          && negb (isButtonEditMode props) then
    let touch := touch0 (touches e) in
    let path := cross (swipePath r) (keyValue touch) in
    if canvasRef r && containerRef r then
      o ← obtain (clientX touch) (clientY touch) m;
      mret ([], {| touchStart := touchStart r; swipePath := path;
                   tracePoints := tracePoints r ++ [fst o];
                   initialPinchDistance := initialPinchDistance r;
                   canvasRef := canvasRef r; containerRef := containerRef r |},
            snd o)
    else
      mret ([], {| touchStart := touchStart r; swipePath := path;
                   tracePoints := tracePoints r;
                   initialPinchDistance := initialPinchDistance r;
                   canvasRef := canvasRef r; containerRef := containerRef r |}, m)
  else mret ([], r, m).

(** The classification made by [handleTouchEnd] from the displacement
    and the crossing string. *)
Definition classify (props : Props) (dx dy : Z) (path : jsstring) : list call :=
  if (Z.abs dx >? 50)%Z || (Z.abs dy >? 50)%Z then
    if (Z.abs dx >? Z.abs dy)%Z then
      if (dx >? 0)%Z && onSwipeRight props then [CallSwipeRight]
      else if (dx <? 0)%Z && onSwipeLeft props then [CallSwipeLeft]
      else []
    else
      if (dy >? 0)%Z && onSwipeDown props then [CallSwipeDown] else []
  else if (2 <? length path)%nat && onTraceEnd props then [CallTraceEnd path]
  else [].

Definition handleTouchEnd (props : Props) (e : TouchEvent) (r : Refs) (m : Mem)
  : list call * Refs * Mem :=
  match touchStart r with
  | Some (sx, sy) =>
      if traceTyping (settings props) then
        let touch := touch0 (changedTouches e) in
        let dx := (clientX touch - sx)%Z in
        let dy := (clientY touch - sy)%Z in
        (classify props dx dy (swipePath r),
         {| touchStart := None; swipePath := []; tracePoints := [];
            initialPinchDistance := None;
            canvasRef := canvasRef r; containerRef := containerRef r |},
         recycle_mem (tracePoints r) m)
      else
        ([], {| touchStart := touchStart r; swipePath := swipePath r;
                tracePoints := tracePoints r; initialPinchDistance := None;
                canvasRef := canvasRef r; containerRef := containerRef r |}, m)
  | None =>
      ([], {| touchStart := touchStart r; swipePath := swipePath r;
              tracePoints := tracePoints r; initialPinchDistance := None;
              canvasRef := canvasRef r; containerRef := containerRef r |}, m)
  end.

(** The crossing string after a run of touch-move samples whose hit
    tests report [keys], in order. *)
Definition crossing (keys : list (option jsstring)) (start : jsstring) : jsstring :=
  fold_left cross keys start.

(** A single-finger touch event at [t]. *)
Definition one_finger (t : Touch) : TouchEvent :=
  {| touches := single t; changedTouches := single t |}.

(** The touch-move events of one finger, delivered in order. *)
Fixpoint trace_moves (props : Props) (samples : list Touch) (r : Refs) (m : Mem)
  : completion (Refs * Mem) :=
  match samples with
  | [] => mret (r, m)
  | t :: ts =>
      o ← handleTouchMove props (one_finger t) r m;
      trace_moves props ts o.1.2 o.2
  end.

(** A touch-start followed by touch-moves. *)
Definition trace (props : Props) (start : Touch) (samples : list Touch)
    (r : Refs) (m : Mem) : completion (Refs * Mem) :=
  o ← handleTouchStart props (one_finger start) r m;
  trace_moves props samples o.1 o.2.

(** A whole gesture: touch-start, touch-moves, touch-end. *)
Definition gesture (props : Props) (start : Touch) (samples : list Touch)
    (release : Touch) (r : Refs) (m : Mem) : completion (list call * Refs * Mem) :=
  o ← trace props start samples r m;
  mret (handleTouchEnd props (one_finger release) o.1 o.2).

(** How [App] wires the callbacks:
    [onSwipeLeft={handleSwipeLeft}], ..., [onTraceEnd={handleTraceEnd}]. *)
Definition dispatch (genAI : option Client) (s : KeyboardSettings)
    (text : jsstring) (c : call) : Ran :=
  match c with
  | CallSwipeLeft => {| log := []; buffer := handleSwipeLeft text |}
  | CallSwipeRight => {| log := []; buffer := handleSwipeRight text |}
  | CallSwipeDown => handleSwipeDown text
  | CallTraceEnd path => handleTraceEnd genAI s text path text
  | CallRequestAnimationFrame => {| log := []; buffer := text |}
  end.

End Keyboard.
Import Keyboard.

(** * Notions used in the statements *)

(** The invariant of the singleton: the capacity is the configured one,
    the retained points fit under it, and every slot holds an object. *)
Definition pool_ok (this : PointPool) : Prop :=
  maxPoolSize this = 500
  /\ length (pool this) <= 500
  /\ Forall is_ref (pool this).

(** A call of the decoder, or of the model behind it. *)
Definition is_decode (ev : event) : bool :=
  match ev with
  | DecipherSwipe _ _ _ | GenerateContent _ => true
  | _ => false
  end.

(** Everything the host does in response to the callbacks fired. *)
Definition run_calls (genAI : option Client) (s : KeyboardSettings)
    (text : jsstring) (cs : list call) : list event :=
  flat_map (fun c => log (dispatch genAI s text c)) cs.

(** A sample over a key whose identifier is the single code unit [c]. *)
Definition over (p : Z * Z * N) : Touch :=
  mkTouch p.1.1 p.1.2 (Some [p.2]).

(** A key sequence with its consecutive duplicates suppressed, as the
    specification words it: a key equal to the one after it is dropped. *)
Fixpoint collapse (keys : list N) : list N :=
  match keys with
  | [] => []
  | c :: rest =>
      match rest with
      | [] => [c]
      | d :: _ => if (c =? d)%N then collapse rest else c :: collapse rest
      end
  end.

(** The rule for a key identifier of any length, as the amended claim
    words it: the identifier is appended unless the crossing string already
    ends with it (the empty identifier never is). *)
Definition append_key (path k : jsstring) : jsstring :=
  if decide (k `suffix_of` path) then path else path ++ k.

(** Suppression relative to the last character appended so far. *)
Fixpoint collapse_after (prev : option N) (keys : list N) : list N :=
  match keys with
  | [] => []
  | c :: rest =>
      if bool_decide (prev = Some c) then collapse_after prev rest
      else c :: collapse_after (Some c) rest
  end.

(** A string de-duplicated, as the specification words it: its characters
    in order of first occurrence, a character being dropped when it is
    among those [seen] before. *)
Fixpoint dedup_seen (seen : list N) (s : jsstring) : jsstring :=
  match s with
  | [] => []
  | c :: r =>
      if bool_decide (c ∈ seen) then dedup_seen seen r
      else c :: dedup_seen (seen ++ [c]) r
  end.

Definition dedup (s : jsstring) : jsstring := dedup_seen [] s.

(** The context [handleTraceEnd] passes to the decoder. *)
Definition trace_context (s : KeyboardSettings) (text : jsstring) : jsstring :=
  if incognitoMode s || encryptKeystrokes s then [] else text.

(** A call of the frequency learner. *)
Definition is_learn (ev : event) : bool :=
  match ev with
  | LearnFromUser _ _ _ => true
  | _ => false
  end.

(** The language name [decipherSwipe] writes into its prompt. *)
Definition lang_name (language : jsstring) : jsstring :=
  if eqb_units language (js "AR") then js "Arabic" else js "English".

(** The buffer without its last white-space-delimited word, as the
    specification words it: trailing white space goes, then the last run
    of characters that are not white space. *)
Fixpoint drop_nonwhite (s : jsstring) : jsstring :=
  match s with
  | [] => []
  | c :: r => if is_white_space c then s else drop_nonwhite r
  end.

Definition remove_last_word_spec (buf : jsstring) : jsstring :=
  rev (drop_nonwhite (rev (trimEnd buf))).

(** ** The pool and the live path *)

(** Who holds which point: the pool holds [Point] objects only, no object
    twice, none of them on the live path; the live path holds no object
    twice; every object held is allocated; the pool is within capacity. *)
Definition owns (path : list loc) (m : Mem) : Prop :=
  exists pooled,
    pool (pointPool m) = map Ref pooled
    /\ NoDup (pooled ++ path)
    /\ (forall l, l ∈ pooled ++ path -> l ∈ dom (heap m))
    /\ maxPoolSize (pointPool m) = 500
    /\ length pooled <= 500.

(** What the keyboard component receives: touch events with the props of
    the render they arrive in, and its unmounting, which calls
    [pointPool.cleanup()]. *)
Inductive ui_event :=
  | TouchStart (props : Props) (e : TouchEvent)
  | TouchMove (props : Props) (e : TouchEvent)
  | TouchEnd (props : Props) (e : TouchEvent)
  | Unmount.

Definition ui_step (ev : ui_event) (r : Refs) (m : Mem)
  : completion (list call * Refs * Mem) :=
  match ev with
  | TouchStart props e => o ← handleTouchStart props e r m; mret ([], o.1, o.2)
  | TouchMove props e => handleTouchMove props e r m
  | TouchEnd props e => mret (handleTouchEnd props e r m)
  | Unmount => mret ([], r, cleanup_mem m)
  end.

Fixpoint ui_run (evs : list ui_event) (r : Refs) (m : Mem)
  : completion (list call * Refs * Mem) :=
  match evs with
  | [] => mret ([], r, m)
  | ev :: rest =>
      o ← ui_step ev r m;
      o' ← ui_run rest o.1.2 o.2;
      mret (o.1.1 ++ o'.1.1, o'.1.2, o'.2)
  end.

(** No two neighbours of a list are equal. *)
Fixpoint adjacent_distinct {A} `{EqDecision A} (l : list A) : Prop :=
  match l with
  | [] => True
  | a :: rest =>
      match rest with
      | [] => True
      | b :: _ => a <> b /\ adjacent_distinct rest
      end
  end.

(** The props under which [handleTouchStart] starts no trace. *)
Definition blocked (props : Props) : bool :=
  negb (traceTyping (settings props)) || isButtonEditMode props || isResizeMode props.

(** A touch event that arrives while the props block tracing. *)
Definition touch_blocked (ev : ui_event) : Prop :=
  match ev with
  | TouchStart props _ | TouchMove props _ | TouchEnd props _ => blocked props = true
  | Unmount => False
  end.

(** The keys, among the samples of a trace, that carry an identifier. *)
Definition keys_crossed (samples : list Touch) : list jsstring :=
  omap keyValue samples.

(** The calls of a handler keep the loading indicator balanced: none at
    all, or [setIsLoading(true)] first, [setIsLoading(false)] last and no
    other call of [setIsLoading] between them. *)
Definition loading_balanced (l : list event) : Prop :=
  l = []
  \/ exists mid,
       l = SetIsLoading true :: mid ++ [SetIsLoading false]
       /\ forall b, SetIsLoading b ∉ mid.

(** The three ways a call of [fixGrammar] or [changeTone] ends. *)
Definition rewrite_cases (genAI : option Client) (txt : jsstring) (a : Answered)
  : Prop :=
  (asked a = [] /\ complaints a = 0 /\ outcome a = Normal txt
   /\ (genAI = None \/ trim txt = []))
  \/ (exists request response,
        genAI <> None /\ trim txt <> []
        /\ asked a = [request] /\ complaints a = 0
        /\ outcome a = Normal (trimmed_text response txt))
  \/ (exists request e,
        genAI <> None /\ trim txt <> []
        /\ asked a = [request] /\ complaints a = 1 /\ outcome a = Throw e).

(** The size [evaluateAll] recommends for what it reads: [large] at night
    on a portrait phone, and else the size of the screen context. *)
Definition recommended (env : Env) : SizeType :=
  if bool_decide (determineContext env = portrait_mobile)
     && ((20 <=? hours env)%Z || (hours env <? 6)%Z)
  then large
  else SIZE_RULES (determineContext env).

Definition is_enable (o : auto_op) : bool :=
  match o with Enable _ _ _ => true | _ => false end.

(** The sizes suggested in a row, after the size suggested last before
    them, if any. *)
Definition sizes_from (prev : option SizeType) (out : list Suggestion)
  : list SizeType :=
  option_list prev ++ map size out.

(** The invariant the size manager keeps: at most 20 timestamps; while
    disabled no timestamp, no callback and no timer; while enabled a
    callback and the timer. *)
Definition auto_ok (this : AutoSizeManager) : Prop :=
  length (keyTimestamps this) <= 20
  /\ (isEnabled this = false ->
      keyTimestamps this = [] /\ callback this = None
      /\ timeCheckInterval this = false)
  /\ (isEnabled this = true ->
      callback this <> None /\ timeCheckInterval this = true).

(** [chain prev l]: each size of [l] differs from the one before it, the
    first from [prev]. *)
Fixpoint chain (prev : option SizeType) (l : list SizeType) : Prop :=
  match l with
  | [] => True
  | s :: rest => prev <> Some s /\ chain (Some s) rest
  end.

(** The size suggested last after [l], starting from [prev]. *)
Definition last_of (prev : option SizeType) (l : list SizeType) : option SizeType :=
  fold_left (fun _ s => Some s) l prev.

(** The first and the last of the retained timestamps, and the number of
    gaps between them. *)
Definition span (ts : list Z) : Z := (default 0 (last ts) - default 0 (head ts))%Z.

Definition gaps (ts : list Z) : Z := (Z.of_nat (length ts) - 1)%Z.

(** What a method leaves of the manager apart from [lastSuggestion], and
    how its suggestions continue the earlier ones. *)
Definition continues (this : AutoSizeManager)
    (r : AutoSizeManager * list Suggestion) : Prop :=
  isEnabled (fst r) = isEnabled this
  /\ callback (fst r) = callback this
  /\ keyTimestamps (fst r) = keyTimestamps this
  /\ timeCheckInterval (fst r) = timeCheckInterval this
  /\ chain (lastSuggestion this) (map size (snd r))
  /\ lastSuggestion (fst r) = last_of (lastSuggestion this) (map size (snd r)).

(** * Proof automation *)

Ltac case_cmp :=
  repeat match goal with
    | |- context [(?a >? ?b)%Z] => destruct (Z.gtb_spec a b)
    | |- context [(?a <? ?b)%Z] => destruct (Z.ltb_spec a b)
    | |- context [(?a <? ?b)%nat] => destruct (Nat.ltb_spec a b)
    end.

(** Membership in the short, explicit lists the handlers produce. *)
Ltac by_membership :=
  rewrite ?elem_of_cons, ?elem_of_nil;
  intuition (subst; simpl in *; first [ done | lia | congruence ]).

(** * Properties *)

(** ** The point pool *)

Section PoolFacts.

Lemma array_pop_snoc {A} (a : list A) (v : A) :
  array_pop (a ++ [v]) = Some (v, a).
Proof.
  unfold array_pop. rewrite rev_unit. simpl. by rewrite rev_involutive.
Qed.

Lemma array_pop_Some {A} (a : list A) (v : A) (r : list A) :
  array_pop a = Some (v, r) -> a = r ++ [v].
Proof.
  unfold array_pop. destruct (rev a) as [|w t] eqn:E; [done|].
  intros [= <- <-]. apply (f_equal (@rev A)) in E.
  rewrite rev_involutive in E. by rewrite E.
Qed.

Lemma array_pop_nonempty {A} (a : list A) :
  0 < length a -> exists v r, array_pop a = Some (v, r).
Proof.
  destruct a as [|h t] using rev_ind; simpl; [lia|].
  intros _. eexists _, _. apply array_pop_snoc.
Qed.

(** The loop of [recycle], started at index [i] for [n] rounds that stay
    inside [points], appends the points it reads. *)
Lemma recycle_loop (points : list loc) (n i : nat) (acc : PointPool) :
  i + n <= length points ->
  fold_left (fun acc i => push acc (array_get points i)) (seq i n) acc
  = {| pool := pool acc ++ map Ref (take n (drop i points));
       maxPoolSize := maxPoolSize acc |}.
Proof.
  revert i acc. induction n as [|n IH]; intros i acc Hlen; simpl.
  - rewrite app_nil_r. by destruct acc.
  - rewrite IH by lia. simpl. f_equal.
    unfold array_get.
    destruct (lookup_lt_is_Some_2 points i ltac:(lia)) as [l Hl].
    rewrite Hl, (drop_S _ _ _ Hl). simpl.
    by rewrite <- app_assoc.
Qed.

Lemma recycle_room (points : list loc) (this : PointPool) :
  length (pool this) < maxPoolSize this ->
  recycle points this
  = {| pool := pool this
               ++ map Ref (take (maxPoolSize this - length (pool this)) points);
       maxPoolSize := maxPoolSize this |}.
Proof.
  intros Hroom. unfold recycle.
  destruct (Nat.ltb_spec (length (pool this)) (maxPoolSize this)); [|lia].
  rewrite recycle_loop by lia. rewrite drop_0. do 2 f_equal.
  destruct (Nat.min_spec (length points)
              (maxPoolSize this - length (pool this))) as [[? ->]|[? ->]]; [|done].
  by rewrite !take_ge by lia.
Qed.

Lemma recycle_full (points : list loc) (this : PointPool) :
  maxPoolSize this <= length (pool this) -> recycle points this = this.
Proof.
  intros Hfull. unfold recycle.
  by destruct (Nat.ltb_spec (length (pool this)) (maxPoolSize this)); [lia|].
Qed.

Lemma recycle_length (points : list loc) (this : PointPool) :
  length (pool this) <= maxPoolSize this ->
  length (pool (recycle points this))
  = Nat.min (maxPoolSize this) (length (pool this) + length points).
Proof.
  intros Hle.
  destruct (decide (length (pool this) < maxPoolSize this)) as [Hlt|Hge].
  - rewrite recycle_room by done. simpl.
    rewrite length_app, length_map, length_take. lia.
  - rewrite recycle_full by lia. lia.
Qed.

Lemma recycle_maxPoolSize (points : list loc) (this : PointPool) :
  maxPoolSize (recycle points this) = maxPoolSize this.
Proof.
  destruct (decide (length (pool this) < maxPoolSize this)) as [Hlt|Hge].
  - by rewrite recycle_room.
  - by rewrite recycle_full by lia.
Qed.

Lemma pool_ok_new : pool_ok new_PointPool.
Proof. repeat split; simpl; [lia | constructor]. Qed.

Lemma pool_ok_cleanup this : pool_ok this -> pool_ok (cleanup this).
Proof. intros (Hmax & _ & _). repeat split; simpl; [done | lia | constructor]. Qed.

Lemma pool_ok_recycle points this : pool_ok this -> pool_ok (recycle points this).
Proof.
  intros (Hmax & Hlen & Hrefs). repeat split.
  - by rewrite recycle_maxPoolSize.
  - rewrite recycle_length by lia. lia.
  - destruct (decide (length (pool this) < maxPoolSize this)) as [Hlt|Hge].
    + rewrite recycle_room by done. simpl. apply Forall_app. split; [done|].
      apply Forall_fmap. by apply Forall_true.
    + by rewrite recycle_full by lia.
Qed.

Lemma obtain_ok x y m :
  pool_ok (pointPool m) ->
  exists p m', obtain x y m = Normal (p, m')
    /\ heap m' !! p = Some (mkPoint x y)
    /\ pool_ok (pointPool m')
    /\ length (pool (pointPool m')) <= length (pool (pointPool m)).
Proof.
  intros (Hmax & Hlen & Hrefs). unfold obtain.
  destruct (Nat.ltb_spec 0 (length (pool (pointPool m)))) as [Hpos|Hzero].
  - destruct (array_pop_nonempty _ Hpos) as (v & r & Hpop). rewrite Hpop.
    apply array_pop_Some in Hpop. rewrite Hpop in Hrefs, Hlen.
    apply Forall_app in Hrefs as [Hr Hv]. rewrite length_app in Hlen.
    apply Forall_inv in Hv. destruct v as [|p]; [destruct Hv|].
    eexists _, _. split; [done|]. simpl. split; [by rewrite lookup_insert_eq|].
    split; [repeat split; simpl; [done | lia | done]|].
    rewrite Hpop, length_app. lia.
  - eexists _, _. split; [done|]. simpl. split; [by rewrite lookup_insert_eq|].
    split; [by repeat split | lia].
Qed.

Lemma run_op_ok o m :
  pool_ok (pointPool m) ->
  exists m', run_op o m = Normal m' /\ pool_ok (pointPool m').
Proof.
  intros Hok. destruct o as [x y|points|]; simpl.
  - destruct (obtain_ok x y m Hok) as (p & m' & -> & _ & Hok' & _).
    by exists m'.
  - eexists. split; [done|]. by apply pool_ok_recycle.
  - eexists. split; [done|]. by apply pool_ok_cleanup.
Qed.

Lemma run_ops_ok os m :
  pool_ok (pointPool m) ->
  exists m', run_ops os m = Normal m' /\ pool_ok (pointPool m').
Proof.
  revert m. induction os as [|o os IH]; intros m Hok; simpl.
  - by exists m.
  - destruct (run_op_ok o m Hok) as (m1 & -> & Hok1). simpl.
    by apply IH.
Qed.

End PoolFacts.

(** C8.  Whatever sequence of [obtain], [recycle] and [cleanup] calls is
    made on the pool, no call fails and the pool never retains more than
    500 points; in the state reached, a further [obtain] succeeds, and a
    further [recycle] leaves [min 500 (size + given)] points, so exactly
    500 as soon as the given list exceeds the remaining capacity. *)
Theorem point_pool_bounded (ops : list pool_op) :
  exists m,
    run_ops ops initial_Mem = Normal m
    /\ pool_size m <= 500
    /\ (forall x y, exists p m', obtain x y m = Normal (p, m'))
    /\ (forall points,
          pool_size (recycle_mem points m)
          = Nat.min 500 (pool_size m + length points))
    /\ (forall points,
          500 - pool_size m < length points ->
          pool_size (recycle_mem points m) = 500).
Proof.
  destruct (run_ops_ok ops initial_Mem pool_ok_new) as (m & Hrun & Hok).
  exists m. split; [exact Hrun|].
  pose proof Hok as (Hmax & Hlen & _).
  assert (Hsize : forall points,
             pool_size (recycle_mem points m)
             = Nat.min 500 (pool_size m + length points)).
  { intros points. unfold pool_size, recycle_mem. simpl.
    rewrite recycle_length by lia. by rewrite Hmax. }
  split; [exact Hlen|]. split; [|split].
  - intros x y. destruct (obtain_ok x y m Hok) as (p & m' & Hob & _).
    by exists p, m'.
  - exact Hsize.
  - intros points Hexcess. rewrite Hsize. unfold pool_size in *. lia.
Qed.

Lemma point_pool_bounded_witness :
  exists m,
    run_ops [OpObtain 100 100; OpCleanup] initial_Mem = Normal m
    /\ 500 - pool_size m < length (seq 0 501)
    /\ pool_size (recycle_mem (seq 0 501) m) = 500.
Proof.
  destruct (point_pool_bounded [OpObtain 100 100; OpCleanup])
    as (m & Hrun & Hle & _ & _ & Hfull).
  exists m. split; [exact Hrun|].
  assert (Hexcess : 500 - pool_size m < length (seq 0 501)).
  { rewrite length_seq. lia. }
  split; [exact Hexcess | exact (Hfull (seq 0 501) Hexcess)].
Defined.

(** C9.  In any state the pool can reach, [obtain(x, y)] returns a point
    whose coordinates are [(x, y)].  With an empty pool, [obtain] allocates
    a new object [p]; after [recycle([p])] the next [obtain] returns the
    very same object [p], now holding the new coordinates, and allocates
    nothing. *)
Theorem obtain_reuses_storage :
  (forall ops x y,
      exists m p m',
        run_ops ops initial_Mem = Normal m
        /\ obtain x y m = Normal (p, m')
        /\ heap m' !! p = Some (mkPoint x y))
  /\ (forall (h : gmap loc Point) x1 y1 x2 y2,
        exists p m1 m2,
          obtain x1 y1 {| heap := h; pointPool := new_PointPool |} = Normal (p, m1)
          /\ h !! p = None
          /\ heap m1 !! p = Some (mkPoint x1 y1)
          /\ obtain x2 y2 (recycle_mem [p] m1) = Normal (p, m2)
          /\ heap m2 !! p = Some (mkPoint x2 y2)
          /\ dom (heap m2) = dom (heap m1)
          /\ pool (pointPool m2) = []).
Proof.
  split.
  - intros ops x y.
    destruct (run_ops_ok ops initial_Mem pool_ok_new) as (m & Hrun & Hok).
    destruct (obtain_ok x y m Hok) as (p & m' & Hob & Hxy & _).
    by exists m, p, m'.
  - intros h x1 y1 x2 y2.
    set (p := fresh (dom h)).
    exists p, {| heap := <[p := mkPoint x1 y1]> h; pointPool := new_PointPool |}.
    eexists. split; [reflexivity|].
    split; [apply not_elem_of_dom, is_fresh|].
    split; [apply lookup_insert_eq|].
    unfold recycle_mem. cbn [heap pointPool].
    rewrite recycle_room by (simpl; lia).
    cbn [pool new_PointPool maxPoolSize length Nat.sub take map app].
    split; [reflexivity|]. cbn [heap pointPool pool].
    split; [apply lookup_insert_eq|]. split; [|reflexivity].
    by rewrite insert_insert_eq, !dom_insert_L.
Qed.

(** ** Classification at touch-end *)

Section Classifier.

Lemma classify_app s resize edit dx dy path :
  classify (app_props s resize edit) dx dy path
  = if (Z.abs dx >? 50)%Z || (Z.abs dy >? 50)%Z then
      if (Z.abs dx >? Z.abs dy)%Z then
        if (dx >? 0)%Z then [CallSwipeRight]
        else if (dx <? 0)%Z then [CallSwipeLeft] else []
      else if (dy >? 0)%Z then [CallSwipeDown] else []
    else if (2 <? length path)%nat then [CallTraceEnd path] else [].
Proof. unfold classify. simpl. by rewrite !andb_true_r. Qed.

Lemma handleTouchEnd_calls props e r m sx sy :
  traceTyping (settings props) = true ->
  touchStart r = Some (sx, sy) ->
  (handleTouchEnd props e r m).1.1
  = classify props (clientX (touch0 (changedTouches e)) - sx)
      (clientY (touch0 (changedTouches e)) - sy) (swipePath r).
Proof. intros Ht Hs. unfold handleTouchEnd. by rewrite Hs, Ht. Qed.

Lemma handleTraceEnd_deciphers genAI s text path prev :
  path <> [] ->
  DecipherSwipe path
    (if incognitoMode s || encryptKeystrokes s then [] else text)
    (language_code (language s))
  ∈ log (handleTraceEnd genAI s text path prev).
Proof.
  intros Hne. unfold handleTraceEnd.
  destruct path as [|c path]; [done|]. simpl.
  apply elem_of_cons. right.
  destruct (settled _) as [w|err]; simpl.
  - destruct (truthy w); simpl; apply elem_of_cons; by left.
  - apply elem_of_cons. by left.
Qed.

Lemma handleTraceEnd_requests genAI s text path prev :
  incognitoMode s || encryptKeystrokes s = true ->
  genAI <> None -> trim path <> [] -> 3 <= length path ->
  GenerateContent
    {| model := MODEL_NAME;
       contents := swipe_prompt path [] (lang_name (language_code (language s))) |}
  ∈ log (handleTraceEnd genAI s text path prev).
Proof.
  intros Hprivate Hai Htrim Hlen. unfold handleTraceEnd.
  destruct path as [|c path]; [done|]. set (p := c :: path) in *.
  cbn [truthy negb]. rewrite Hprivate.
  assert (Hreq : requests (decipherSwipe genAI p [] (language_code (language s)))
                 = [{| model := MODEL_NAME;
                       contents := swipe_prompt p []
                                     (lang_name (language_code (language s))) |}]).
  { unfold decipherSwipe. destruct genAI as [ai|]; [|done].
    destruct (trim p) as [|t ts] eqn:Ht; [done|]. cbn [truthy negb].
    destruct (Nat.ltb_spec (length p) 3); [lia|]. done. }
  cbn [log]. apply elem_of_cons. right.
  destruct (settled _) as [w|err]; cbn [fst snd log].
  - destruct (truthy w); cbn [fst snd log]; rewrite Hreq;
      apply elem_of_cons; right; apply elem_of_cons; by left.
  - rewrite Hreq. apply elem_of_cons. right. apply elem_of_cons. by left.
Qed.

End Classifier.

(** C1.  A single-finger trace ends with displacement [(dx, dy)].  If
    [max(|dx|,|dy|) > 50] no decode call is made and the right-swipe
    callback fires iff [|dx| > |dy|] and [dx > 0], the left-swipe callback
    iff [|dx| > |dy|] and [dx < 0], the down-swipe callback iff
    [|dx| <= |dy|] and [dy > 0].  Otherwise a crossing string longer than 2
    is handed, alone, to the trace-end callback, which calls the decoder
    with it; and a shorter one gives no callback and no decode call. *)
Theorem touch_end_classification
    (s : KeyboardSettings) (resize edit : bool)
    (e : TouchEvent) (r : Refs) (m : Mem) (sx sy : Z)
    (Htrace : traceTyping s = true)
    (Hstart : touchStart r = Some (sx, sy)) :
  let dx := (clientX (touch0 (changedTouches e)) - sx)%Z in
  let dy := (clientY (touch0 (changedTouches e)) - sy)%Z in
  let calls := (handleTouchEnd (app_props s resize edit) e r m).1.1 in
  ((Z.max (Z.abs dx) (Z.abs dy) > 50)%Z ->
     (forall genAI text ev,
         ev ∈ run_calls genAI s text calls -> is_decode ev = false)
     /\ (forall path, CallTraceEnd path ∉ calls)
     /\ (CallSwipeRight ∈ calls <-> (Z.abs dx > Z.abs dy)%Z /\ (dx > 0)%Z)
     /\ (CallSwipeLeft ∈ calls <-> (Z.abs dx > Z.abs dy)%Z /\ (dx < 0)%Z)
     /\ (CallSwipeDown ∈ calls <-> (Z.abs dx <= Z.abs dy)%Z /\ (dy > 0)%Z))
  /\ ((Z.max (Z.abs dx) (Z.abs dy) <= 50)%Z -> 2 < length (swipePath r) ->
        calls = [CallTraceEnd (swipePath r)]
        /\ forall genAI text,
             DecipherSwipe (swipePath r)
               (if incognitoMode s || encryptKeystrokes s then [] else text)
               (language_code (language s))
             ∈ run_calls genAI s text calls)
  /\ ((Z.max (Z.abs dx) (Z.abs dy) <= 50)%Z -> length (swipePath r) <= 2 ->
        calls = []
        /\ forall genAI text, run_calls genAI s text calls = []).
Proof.
  intros dx dy calls.
  assert (Hcalls : calls = classify (app_props s resize edit) dx dy (swipePath r)).
  { subst calls dx dy. by apply handleTouchEnd_calls. }
  rewrite classify_app in Hcalls. clearbody calls dx dy. subst calls.
  split; [|split].
  - intros Hfar.
    assert (Hor : (Z.abs dx >? 50)%Z || (Z.abs dy >? 50)%Z = true).
    { apply orb_true_iff. rewrite !Z.gtb_ltb, !Z.ltb_lt. lia. }
    rewrite Hor. clear Hor.
    case_cmp; cbn [run_calls flat_map dispatch log app handleSwipeDown];
      rewrite ?list_elem_of_singleton, ?elem_of_nil;
      (split; [intros genAI text ev; by_membership|]);
      (split; [intros path; by_membership|]);
      repeat split; by_membership.
  - intros Hnear Hlong.
    assert (Hor : (Z.abs dx >? 50)%Z || (Z.abs dy >? 50)%Z = false).
    { apply orb_false_iff. rewrite !Z.gtb_ltb, !Z.ltb_ge. lia. }
    rewrite Hor. clear Hor.
    destruct (Nat.ltb_spec 2 (length (swipePath r))); [|lia].
    split; [done|]. intros genAI text. cbn [run_calls flat_map dispatch].
    rewrite app_nil_r. apply handleTraceEnd_deciphers.
    intros Hnil. rewrite Hnil in Hlong. simpl in Hlong. lia.
  - intros Hnear Hshort.
    assert (Hor : (Z.abs dx >? 50)%Z || (Z.abs dy >? 50)%Z = false).
    { apply orb_false_iff. rewrite !Z.gtb_ltb, !Z.ltb_ge. lia. }
    rewrite Hor. clear Hor.
    by destruct (Nat.ltb_spec 2 (length (swipePath r))); [lia|].
Qed.

Lemma touch_end_classification_witness :
  let s := mkSettings EN true false false in
  let r := {| touchStart := Some (100, 100)%Z; swipePath := js "helo";
              tracePoints := []; initialPinchDistance := None;
              canvasRef := true; containerRef := true |} in
  let e := one_finger (mkTouch 105 102 None) in
  traceTyping s = true
  /\ touchStart r = Some (100, 100)%Z
  /\ (handleTouchEnd (app_props s false false) e r initial_Mem).1.1
     = [CallTraceEnd (js "helo")].
Proof.
  intros s r e. split; [reflexivity|]. split; [reflexivity|].
  pose proof (touch_end_classification s false false e r initial_Mem 100 100
                eq_refl eq_refl) as H.
  cbv zeta in H. destruct H as (_ & Hnear & _).
  apply Hnear; [vm_compute; discriminate | simpl; lia].
Defined.

(** ** The crossing string *)

Section Crossing.

Lemma collapse_cons c rest :
  collapse (c :: rest) = c :: collapse_after (Some c) rest.
Proof.
  revert c. induction rest as [|d rest IH]; intros c; [done|].
  change (collapse (c :: d :: rest))
    with (if (c =? d)%N then collapse (d :: rest) else c :: collapse (d :: rest)).
  rewrite IH. cbn [collapse_after].
  destruct (N.eqb_spec c d) as [->|Hne].
  - by rewrite bool_decide_eq_true_2.
  - by rewrite bool_decide_eq_false_2 by congruence.
Qed.

Lemma collapse_after_None keys : collapse_after None keys = collapse keys.
Proof. destruct keys as [|c rest]; [done|]. by rewrite collapse_cons. Qed.

Lemma endsWith_unit path c :
  endsWith path [c] = bool_decide (last path = Some c).
Proof.
  unfold endsWith. destruct path as [|a path] using rev_ind; [done|].
  rewrite rev_unit, last_snoc. change (rev [c]) with [c].
  cbn [startsWith]. rewrite andb_true_r.
  destruct (N.eqb_spec a c) as [->|Hne].
  - by rewrite bool_decide_eq_true_2.
  - by rewrite bool_decide_eq_false_2 by congruence.
Qed.

(** A key of one character is appended exactly when it differs from the
    last character of the crossing string. *)
Lemma cross_unit path c :
  cross path (Some [c])
  = if bool_decide (last path = Some c) then path else path ++ [c].
Proof. unfold cross. simpl. rewrite endsWith_unit. by case_bool_decide. Qed.

Lemma crossing_units keys path :
  crossing (map (fun c => Some [c]) keys) path
  = path ++ collapse_after (last path) keys.
Proof.
  revert path. induction keys as [|c keys IH]; intros path.
  - simpl. by rewrite app_nil_r.
  - cbn [map crossing fold_left collapse_after]. fold (crossing (map (fun c => Some [c]) keys)).
    rewrite cross_unit. case_bool_decide as Hlast.
    + apply IH.
    + rewrite IH, last_snoc. by rewrite <- app_assoc.
Qed.

Lemma handleTouchMove_one_finger props t r m :
  traceTyping (settings props) = true ->
  isButtonEditMode props = false ->
  is_Some (touchStart r) ->
  pool_ok (pointPool m) ->
  exists r' m',
    handleTouchMove props (one_finger t) r m = Normal ([], r', m')
    /\ swipePath r' = cross (swipePath r) (keyValue t)
    /\ touchStart r' = touchStart r
    /\ pool_ok (pointPool m').
Proof.
  intros Htrace Hedit Hstart Hok. unfold handleTouchMove.
  rewrite Htrace, Hedit, (bool_decide_eq_true_2 _ Hstart).
  cbn [one_finger touches single touch_count more length Nat.eqb andb negb touch0].
  destruct (canvasRef r && containerRef r).
  - destruct (obtain_ok (clientX t) (clientY t) m Hok)
      as (p & m' & -> & _ & Hok' & _).
    by eexists _, _.
  - by eexists _, _.
Qed.

Lemma trace_moves_crossing props samples r m :
  traceTyping (settings props) = true ->
  isButtonEditMode props = false ->
  is_Some (touchStart r) ->
  pool_ok (pointPool m) ->
  exists r' m',
    trace_moves props samples r m = Normal (r', m')
    /\ swipePath r' = crossing (map keyValue samples) (swipePath r)
    /\ touchStart r' = touchStart r
    /\ pool_ok (pointPool m').
Proof.
  intros Htrace Hedit. revert r m.
  induction samples as [|t ts IH]; intros r m Hstart Hok.
  - by exists r, m.
  - destruct (handleTouchMove_one_finger props t r m Htrace Hedit Hstart Hok)
      as (r1 & m1 & Hmove & Hpath & Hst & Hok1).
    cbn [trace_moves]. rewrite Hmove. cbn.
    destruct (IH r1 m1) as (r' & m' & Hrest & Hpath' & Hst' & Hok');
      [by rewrite Hst | done |].
    exists r', m'. rewrite Hrest, Hpath', Hpath, Hst', Hst. done.
Qed.

Lemma handleTouchStart_one_finger props t r m :
  traceTyping (settings props) = true ->
  isButtonEditMode props = false ->
  isResizeMode props = false ->
  pool_ok (pointPool m) ->
  exists r' m',
    handleTouchStart props (one_finger t) r m = Normal (r', m')
    /\ swipePath r' = []
    /\ touchStart r' = Some (clientX t, clientY t)
    /\ pool_ok (pointPool m').
Proof.
  intros Htrace Hedit Hresize Hok. unfold handleTouchStart.
  rewrite Htrace, Hedit, Hresize.
  cbn [one_finger touches single touch_count more length Nat.eqb andb negb touch0].
  destruct (0 <? length (tracePoints r)).
  - destruct (obtain_ok (clientX t) (clientY t) (recycle_mem (tracePoints r) m))
      as (p & m' & -> & _ & Hok' & _); [by apply pool_ok_recycle|].
    by eexists _, _.
  - destruct (obtain_ok (clientX t) (clientY t) m Hok)
      as (p & m' & -> & _ & Hok' & _).
    by eexists _, _.
Qed.

Lemma startsWith_prefix s t : startsWith s t = bool_decide (t `prefix_of` s).
Proof.
  revert s. induction t as [|b t IH]; intros s; cbn [startsWith].
  - symmetry. apply bool_decide_eq_true_2, prefix_nil.
  - destruct s as [|a s].
    + symmetry. apply bool_decide_eq_false_2, prefix_nil_not.
    + rewrite IH. destruct (N.eqb_spec a b) as [->|Hne]; cbn [andb].
      * apply bool_decide_ext. split; [apply prefix_cons | apply prefix_cons_inv_2].
      * symmetry. apply bool_decide_eq_false_2. intros H%prefix_cons_inv_1.
        congruence.
Qed.

Lemma endsWith_suffix s t : endsWith s t = bool_decide (t `suffix_of` s).
Proof.
  unfold endsWith. rewrite startsWith_prefix. apply bool_decide_ext. split.
  - intros [k Hk]. exists (rev k).
    by rewrite <- (rev_involutive s), Hk, rev_app_distr, rev_involutive.
  - intros [k ->]. exists (rev k). by rewrite rev_app_distr.
Qed.

(** A key of any length is appended exactly when the crossing string does
    not end with it. *)
Lemma cross_append_key path k : cross path (Some k) = append_key path k.
Proof.
  unfold cross, append_key. rewrite endsWith_suffix. destruct k as [|c k].
  - cbn [truthy andb]. by rewrite decide_True by apply suffix_nil.
  - cbn [truthy andb]. destruct (decide _) as [Hs|Hs].
    + by rewrite bool_decide_eq_true_2.
    + by rewrite bool_decide_eq_false_2.
Qed.

Lemma crossing_keys samples path :
  crossing (map keyValue samples) path
  = fold_left append_key (keys_crossed samples) path.
Proof.
  revert path. induction samples as [|t ts IH]; intros path; [done|].
  change (crossing (map keyValue (t :: ts)) path)
    with (crossing (map keyValue ts) (cross path (keyValue t))).
  change (keys_crossed (t :: ts))
    with (match keyValue t with
          | Some k => k :: keys_crossed ts
          | None => keys_crossed ts
          end).
  rewrite IH. destruct (keyValue t) as [k|]; [|done].
  cbn [fold_left]. by rewrite cross_append_key.
Qed.

Lemma append_key_units units path :
  fold_left append_key (map (fun c => [c]) units) path
  = path ++ collapse_after (last path) units.
Proof.
  rewrite <- crossing_units. revert path.
  induction units as [|c units IH]; intros path; [done|].
  cbn [map fold_left]. rewrite IH, <- cross_append_key. done.
Qed.

End Crossing.

(** C2 (amended).  While a finger traces, a key identifier is appended to
    the crossing string exactly when the string does not already end with
    it.  For keys of one code unit this means: when it differs from the
    last code unit appended, so the crossing string of such a trace is its
    key sequence with consecutive duplicates suppressed, and nothing more:
    h,h,e,e,l,l,l,o gives "helo" and h,e,l,l,o,l,l,o gives "helolo".  A key
    of several code units is also skipped when the string ends with its
    code units for another reason: lam, alef, lam-alef leaves the two code
    units of lam and alef. *)
Theorem crossing_string_collapses_runs
    (s : KeyboardSettings) (start : Touch) (samples : list Touch)
    (r : Refs) (m : Mem)
    (Htrace : traceTyping s = true)
    (Hpool : pool_ok (pointPool m)) :
  (exists r' m',
      trace (app_props s false false) start samples r m = Normal (r', m')
      /\ swipePath r' = fold_left append_key (keys_crossed samples) []
      /\ (forall units,
            keys_crossed samples = map (fun c => [c]) units ->
            swipePath r' = collapse units))
  /\ (forall path k, cross path (Some k) = append_key path k)
  /\ (forall path c,
        cross path (Some [c])
        = if bool_decide (last path = Some c) then path else path ++ [c])
  /\ crossing (map (fun c => Some [c]) (js "hheelllo")) [] = js "helo"
  /\ crossing (map (fun c => Some [c]) (js "hellollo")) [] = js "helolo"
  /\ crossing [Some [1604%N]; Some [1575%N]; Some [1604%N; 1575%N]] []
     = [1604%N; 1575%N].
Proof.
  split; [|split; [apply cross_append_key | split; [apply cross_unit | by repeat split]]].
  unfold trace.
  destruct (handleTouchStart_one_finger (app_props s false false) start r m)
    as (r0 & m0 & -> & Hpath0 & Hstart0 & Hok0); [done..|].
  cbn.
  destruct (trace_moves_crossing (app_props s false false) samples r0 m0)
    as (r' & m' & Hmoves & Hpath & _ & _); [done | done | by rewrite Hstart0 | done |].
  exists r', m'. split; [exact Hmoves|].
  rewrite Hpath, Hpath0, crossing_keys. split; [done|].
  intros units ->. rewrite append_key_units. apply collapse_after_None.
Qed.

Lemma crossing_string_collapses_runs_witness :
  let s := mkSettings EN true false false in
  let keys : list (Z * Z * N) :=
    [(100, 100, 104%N); (110, 100, 104%N); (120, 100, 101%N); (130, 100, 101%N);
     (140, 100, 108%N); (150, 100, 108%N); (160, 100, 108%N); (170, 100, 111%N)]%Z in
  traceTyping s = true
  /\ pool_ok (pointPool initial_Mem)
  /\ exists r' m',
       trace (app_props s false false) (mkTouch 100 100 None) (map over keys)
         initial_Refs initial_Mem = Normal (r', m')
       /\ swipePath r' = js "helo".
Proof.
  intros s keys.
  assert (Hpool : pool_ok (pointPool initial_Mem)).
  { repeat split; simpl; [lia | constructor]. }
  split; [reflexivity|]. split; [exact Hpool|].
  destruct (crossing_string_collapses_runs s (mkTouch 100 100 None) (map over keys)
              initial_Refs initial_Mem eq_refl Hpool)
    as ((r' & m' & Hrun & _ & Hunits) & _).
  exists r', m'. split; [exact Hrun | exact (Hunits (map snd keys) eq_refl)].
Defined.

(** C2, as first stated: revisiting a key does not yield "heloolo".  The
    samples h,e,l,l,o,l,l,o leave the crossing string "helolo". *)
Lemma crossing_revisit_counterexample :
  let s := mkSettings EN true false false in
  let samples := map (fun c => mkTouch 100 100 (Some [c])) (js "hellollo") in
  exists r m,
    trace (app_props s false false) (mkTouch 100 100 None) samples
      initial_Refs initial_Mem = Normal (r, m)
    /\ swipePath r = js "helolo"
    /\ swipePath r <> js "heloolo".
Proof.
  intros s samples. eexists _, _. split; [vm_compute; reflexivity|].
  split; [reflexivity | discriminate].
Qed.

(** The end-to-end scenario: a touch-start at (100,100), samples over
    h, e, l, l, o, and a release at (105,102) hand "helo" to the trace-end
    callback and return the six points of the path to the pool; when the
    model answers "hello", an empty buffer becomes "hello ". *)
Example end_to_end_hello :
  let s := mkSettings EN true false false in
  let ai : Client := fun _ => Normal {| Gemini.text := Some (js "hello") |} in
  let samples : list (Z * Z * N) :=
    [(101, 100, 104%N); (102, 100, 101%N); (103, 101, 108%N);
     (104, 101, 108%N); (105, 102, 111%N)]%Z in
  exists r m,
    gesture (app_props s false false) (mkTouch 100 100 None) (map over samples)
      (mkTouch 105 102 None) initial_Refs initial_Mem
    = Normal ([CallTraceEnd (js "helo")], r, m)
    /\ tracePoints r = [] /\ pool_size m = 6
    /\ buffer (dispatch (Some ai) s [] (CallTraceEnd (js "helo"))) = js "hello ".
Proof.
  intros s ai samples. eexists _, _. split; [vm_compute; reflexivity|].
  by vm_compute.
Qed.

(** ** The decoder's fallback *)

Section Fallback.

Lemma eqb_units_eq s t : eqb_units s t = bool_decide (s = t).
Proof.
  revert t. induction s as [|a s IH]; intros [|b t]; simpl; try done.
  rewrite IH. destruct (N.eqb_spec a b) as [->|Hne]; simpl.
  - apply bool_decide_ext. split; congruence.
  - by rewrite bool_decide_eq_false_2 by congruence.
Qed.

Lemma Set_has_unit c seen :
  existsb (eqb_units [c]) (map (fun d => [d]) seen) = bool_decide (c ∈ seen).
Proof.
  induction seen as [|d seen IH]; [done|].
  change (existsb (eqb_units [c]) (map (fun d => [d]) (d :: seen)))
    with (eqb_units [c] [d] || existsb (eqb_units [c]) (map (fun d => [d]) seen)).
  rewrite IH, eqb_units_eq.
  destruct (decide (c = d)) as [->|Hne].
  - rewrite (bool_decide_eq_true_2 ([d] = [d])) by done.
    rewrite (bool_decide_eq_true_2 (d ∈ d :: seen)); [done | by left].
  - rewrite (bool_decide_eq_false_2 ([c] = [d])) by congruence. simpl.
    apply bool_decide_ext. rewrite elem_of_cons. naive_solver.
Qed.

Lemma Set_of_units s seen :
  fold_left Set_add (split_empty s) (map (fun d => [d]) seen)
  = map (fun d => [d]) (seen ++ dedup_seen seen s).
Proof.
  revert seen. induction s as [|c s IH]; intros seen; simpl.
  - by rewrite app_nil_r.
  - unfold Set_add at 2. rewrite Set_has_unit. case_bool_decide.
    + apply IH.
    + change [[c]] with (map (fun d : N => [d]) [c]).
      rewrite <- map_app, IH. by rewrite <- app_assoc.
Qed.

Lemma join_units s : join_empty (map (fun d => [d]) s) = s.
Proof. induction s as [|c s IH]; simpl; [done|]. by f_equal. Qed.

(** The fallback of [decipherSwipe] is the de-duplicated trace. *)
Lemma fallback_word_dedup s : fallback_word s = dedup s.
Proof.
  unfold fallback_word, Set_of.
  change (@nil jsstring) with (map (fun d : N => [d]) []).
  by rewrite Set_of_units, join_units.
Qed.

Lemma elem_of_dedup_seen c seen s :
  c ∈ dedup_seen seen s <-> c ∈ s /\ c ∉ seen.
Proof.
  revert seen. induction s as [|d s IH]; intros seen; simpl.
  - rewrite elem_of_nil. naive_solver.
  - case_bool_decide as Hd.
    + rewrite IH, elem_of_cons. naive_solver.
    + rewrite !elem_of_cons, IH, elem_of_app, list_elem_of_singleton.
      destruct (decide (c = d)); naive_solver.
Qed.

Lemma NoDup_dedup_seen seen s : NoDup (dedup_seen seen s).
Proof.
  revert seen. induction s as [|d s IH]; intros seen; simpl.
  - constructor.
  - case_bool_decide; [apply IH|]. constructor; [|apply IH].
    rewrite elem_of_dedup_seen, elem_of_app, list_elem_of_singleton.
    naive_solver.
Qed.

Lemma sublist_dedup_seen seen s : sublist (dedup_seen seen s) s.
Proof.
  revert seen. induction s as [|d s IH]; intros seen; simpl.
  - constructor.
  - case_bool_decide; [by apply sublist_cons | by apply sublist_skip].
Qed.

Lemma dedup_seen_NoDup seen s :
  NoDup s -> (forall c, c ∈ s -> c ∉ seen) -> dedup_seen seen s = s.
Proof.
  revert seen. induction s as [|d s IH]; intros seen Hnd Hfresh; simpl; [done|].
  apply NoDup_cons in Hnd as [Hd Hnd].
  rewrite bool_decide_eq_false_2 by (apply Hfresh; by left).
  f_equal. apply IH; [done|].
  intros c Hc. rewrite elem_of_app, list_elem_of_singleton.
  intros [Hseen | ->]; [|done].
  by apply (Hfresh c); [right|].
Qed.

Lemma dedup_id_iff s : dedup s = s <-> NoDup s.
Proof.
  split.
  - intros <-. apply NoDup_dedup_seen.
  - intros Hnd. apply dedup_seen_NoDup; [done|].
    intros c _. apply not_elem_of_nil.
Qed.

(** [decipherSwipe] when its request to the model is rejected. *)
Lemma decipherSwipe_rejected ai swipePath context language request e :
  requests (decipherSwipe (Some ai) swipePath context language) = [request] ->
  ai request = Throw e ->
  settled (decipherSwipe (Some ai) swipePath context language)
  = Normal (dedup swipePath).
Proof.
  unfold decipherSwipe.
  destruct (negb (truthy (trim swipePath))); [done|].
  destruct (length swipePath <? 3); [done|].
  set (sent := mkRequest _ _). cbn [requests settled]. intros Hsent Hthrow.
  assert (request = sent) as -> by congruence.
  rewrite Hthrow. cbn [mbind completion_bind try_catch].
  by rewrite fallback_word_dedup.
Qed.

(** The promise of [decipherSwipe] is never rejected. *)
Lemma decipherSwipe_settles genAI swipePath context language :
  exists word,
    settled (decipherSwipe genAI swipePath context language) = Normal word.
Proof.
  unfold decipherSwipe. destruct genAI as [ai|]; [|by eexists].
  destruct (negb (truthy (trim swipePath))); [by eexists|].
  destruct (length swipePath <? 3); [by eexists|].
  cbn [settled]. destruct (ai _) as [resp|e]; by eexists.
Qed.

(** [handleTraceEnd], once the decoder has resolved with [word]. *)
Lemma handleTraceEnd_resolved genAI s text path prev word :
  path <> [] ->
  settled (decipherSwipe genAI path (trace_context s text)
             (language_code (language s))) = Normal word ->
  handleTraceEnd genAI s text path prev
  = {| log :=
         SetIsLoading true
         :: DecipherSwipe path (trace_context s text) (language_code (language s))
         :: map GenerateContent
              (requests (decipherSwipe genAI path (trace_context s text)
                           (language_code (language s))))
         ++ (if truthy word then log (append_word s word prev) else [])
         ++ [SetIsLoading false];
       buffer := if truthy word then buffer (append_word s word prev) else prev |}.
Proof.
  intros Hpath Hword. unfold handleTraceEnd.
  destruct path as [|c path]; [done|].
  cbn [truthy negb]. fold (trace_context s text). cbv zeta. rewrite Hword.
  destruct (truthy word); cbn [fst snd log buffer app];
    by rewrite <- ?app_assoc, ?app_nil_r.
Qed.

(** [handleTraceEnd] never reaches its [catch]. *)
Lemma handleTraceEnd_no_error genAI s text path prev :
  ConsoleError ∉ log (handleTraceEnd genAI s text path prev).
Proof.
  destruct (decide (path = [])) as [->|Hpath]; [apply not_elem_of_nil|].
  destruct (decipherSwipe_settles genAI path (trace_context s text)
              (language_code (language s))) as (w & Hw).
  rewrite (handleTraceEnd_resolved _ _ _ _ _ _ Hpath Hw). cbn [log].
  rewrite !not_elem_of_cons, !not_elem_of_app, list_elem_of_fmap.
  split; [done|]. split; [done|]. split; [by intros (? & ? & _)|].
  split; [|by rewrite list_elem_of_singleton].
  destruct (truthy w); [|apply not_elem_of_nil].
  unfold append_word. cbn [log].
  destruct (negb _ && negb _); [|apply not_elem_of_nil].
  by rewrite list_elem_of_singleton.
Qed.

End Fallback.

(** C3.  When the request that [decipherSwipe] sends to the model is
    rejected, the error is caught and the promise resolves with the trace
    de-duplicated: each crossed character once, in order of first
    occurrence ("hello" gives "helo").  The promise of [decipherSwipe] is
    never rejected, and the trace-end handler never reaches its error
    branch. *)
Theorem decoder_failure_falls_back
    (ai : Client) (swipePath context language : jsstring)
    (request : GenerateContentRequest) (e : exn)
    (Hsent : requests (decipherSwipe (Some ai) swipePath context language) = [request])
    (Hthrow : ai request = Throw e) :
  settled (decipherSwipe (Some ai) swipePath context language)
  = Normal (dedup swipePath)
  /\ NoDup (dedup swipePath)
  /\ (forall c, c ∈ dedup swipePath <-> c ∈ swipePath)
  /\ sublist (dedup swipePath) swipePath
  /\ dedup (js "hello") = js "helo"
  /\ (forall genAI path ctx lang,
        exists word, settled (decipherSwipe genAI path ctx lang) = Normal word)
  /\ (forall genAI s text path prev,
        ConsoleError ∉ log (handleTraceEnd genAI s text path prev)).
Proof.
  split; [by eapply decipherSwipe_rejected|].
  split; [apply NoDup_dedup_seen|].
  split.
  { intros c. unfold dedup. rewrite elem_of_dedup_seen.
    pose proof (not_elem_of_nil c). tauto. }
  split; [apply sublist_dedup_seen|].
  split; [reflexivity|].
  split; [apply decipherSwipe_settles | apply handleTraceEnd_no_error].
Qed.

Lemma decoder_failure_falls_back_witness :
  let ai : Client := fun _ => Throw ApiError in
  let request := {| model := MODEL_NAME;
                    contents := swipe_prompt (js "hello") [] (js "English") |} in
  requests (decipherSwipe (Some ai) (js "hello") [] (js "EN")) = [request]
  /\ ai request = Throw ApiError
  /\ settled (decipherSwipe (Some ai) (js "hello") [] (js "EN")) = Normal (js "helo").
Proof.
  intros ai request. split; [reflexivity|]. split; [reflexivity|].
  exact (proj1 (decoder_failure_falls_back ai (js "hello") [] (js "EN")
                  request ApiError eq_refl eq_refl)).
Defined.

(** C4, as first stated: a failed call does not return the crossing
    string unchanged.  The samples h,e,l,l,o,l,l,o, released 5 px from the
    start, hand the crossing string "helolo" to the trace-end callback;
    the request [decipherSwipe] sends for it is rejected, and
    [decipherSwipe] resolves with "helo", which the handler appends to the
    buffer. *)
Lemma decoder_failure_changes_input_counterexample :
  let s := mkSettings EN true false false in
  let ai : Client := fun _ => Throw ApiError in
  let samples := map (fun c => mkTouch 100 100 (Some [c])) (js "hellollo") in
  let d := decipherSwipe (Some ai) (js "helolo") [] (js "EN") in
  (exists r m,
      gesture (app_props s false false) (mkTouch 100 100 None) samples
        (mkTouch 105 102 None) initial_Refs initial_Mem
      = Normal ([CallTraceEnd (js "helolo")], r, m))
  /\ DecipherSwipe (js "helolo") [] (js "EN")
     ∈ run_calls (Some ai) s [] [CallTraceEnd (js "helolo")]
  /\ (exists request, requests d = [request] /\ ai request = Throw ApiError)
  /\ settled d = Normal (js "helo")
  /\ settled d <> Normal (js "helolo")
  /\ buffer (dispatch (Some ai) s [] (CallTraceEnd (js "helolo"))) = js "helo ".
Proof.
  intros s ai samples d.
  split; [eexists _, _; vm_compute; reflexivity|].
  split.
  { unfold run_calls. cbn [flat_map dispatch]. rewrite app_nil_r.
    apply (handleTraceEnd_deciphers (Some ai) s [] (js "helolo") []).
    discriminate. }
  split; [by eexists|]. split; [reflexivity|]. split; [discriminate | reflexivity].
Qed.

(** C4 (amended).  When the request to the model is rejected,
    [decipherSwipe] resolves with the crossing string stripped of every
    repeated occurrence of a UTF-16 code unit (first occurrences kept, in
    order); this is the crossing string itself exactly when no code unit
    occurs twice in it. *)
Theorem decoder_failure_returns_dedup
    (ai : Client) (swipePath context language : jsstring)
    (request : GenerateContentRequest) (e : exn)
    (Hsent : requests (decipherSwipe (Some ai) swipePath context language) = [request])
    (Hthrow : ai request = Throw e) :
  settled (decipherSwipe (Some ai) swipePath context language)
  = Normal (dedup swipePath)
  /\ (settled (decipherSwipe (Some ai) swipePath context language)
      = Normal swipePath <-> NoDup swipePath).
Proof.
  pose proof (decipherSwipe_rejected _ _ _ _ _ _ Hsent Hthrow) as Hd.
  split; [exact Hd|]. rewrite Hd, <- dedup_id_iff.
  split; [by intros [= ->] | by intros ->].
Qed.

Lemma decoder_failure_returns_dedup_witness :
  let ai : Client := fun _ => Throw TypeError in
  let request := {| model := MODEL_NAME;
                    contents := swipe_prompt (js "word") (js "a ") (js "Arabic") |} in
  requests (decipherSwipe (Some ai) (js "word") (js "a ") (js "AR")) = [request]
  /\ ai request = Throw TypeError
  /\ settled (decipherSwipe (Some ai) (js "word") (js "a ") (js "AR"))
     = Normal (js "word").
Proof.
  intros ai request. split; [reflexivity|]. split; [reflexivity|].
  exact (proj1 (decoder_failure_returns_dedup ai (js "word") (js "a ") (js "AR")
                  request TypeError eq_refl eq_refl)).
Defined.

(** ** The trace-end handler *)

Section TraceEnd.

Lemma decipherSwipe_requests genAI swipePath context language request :
  request ∈ requests (decipherSwipe genAI swipePath context language) ->
  request = {| model := MODEL_NAME;
               contents := swipe_prompt swipePath context (lang_name language) |}.
Proof.
  unfold decipherSwipe. destruct genAI as [ai|]; [|by rewrite elem_of_nil].
  destruct (negb (truthy (trim swipePath))); [by rewrite elem_of_nil|].
  destruct (length swipePath <? 3); [by rewrite elem_of_nil|].
  cbn [requests]. by rewrite list_elem_of_singleton.
Qed.

(** Every call [handleTraceEnd] makes. *)
Lemma handleTraceEnd_calls genAI s text path prev ev :
  ev ∈ log (handleTraceEnd genAI s text path prev) ->
  let lang := language_code (language s) in
  let d := decipherSwipe genAI path (trace_context s text) lang in
  (exists b, ev = SetIsLoading b)
  \/ ev = DecipherSwipe path (trace_context s text) lang
  \/ (exists request, ev = GenerateContent request /\ request ∈ requests d)
  \/ (exists word,
        ev = LearnFromUser word false lang
        /\ settled d = Normal word /\ word <> []
        /\ incognitoMode s = false /\ encryptKeystrokes s = false).
Proof.
  intros Hev lang d.
  destruct (decide (path = [])) as [->|Hpath]; [by apply elem_of_nil in Hev|].
  destruct (decipherSwipe_settles genAI path (trace_context s text) lang)
    as (w & Hw).
  rewrite (handleTraceEnd_resolved _ _ _ _ _ _ Hpath Hw) in Hev.
  cbn [log] in Hev.
  rewrite !elem_of_cons, !elem_of_app, list_elem_of_fmap,
    list_elem_of_singleton in Hev.
  destruct Hev as [->|[->|[(request & -> & Hin)|[Hlearn| ->]]]];
    [by left; eexists | by right; left | by right; right; left; eexists
    | | by left; eexists].
  right; right; right.
  destruct w as [|c w]; [by apply elem_of_nil in Hlearn|].
  cbn [truthy append_word log] in Hlearn.
  destruct (incognitoMode s), (encryptKeystrokes s);
    cbn [negb andb] in Hlearn; try by apply elem_of_nil in Hlearn.
  apply list_elem_of_singleton in Hlearn as ->. by exists (c :: w).
Qed.

Lemma first_word_no_text response :
  Gemini.text response = None
  \/ (exists t, Gemini.text response = Some t /\ trim t = []) ->
  first_word response = [].
Proof.
  unfold first_word. intros [-> | (t & -> & Htrim)]; [done|].
  cbn. by rewrite Htrim.
Qed.

End TraceEnd.

(** C10.  When [decipherSwipe] resolves with the empty string, the
    trace-end handler leaves the text buffer as it is and never calls the
    frequency learner.  [decipherSwipe] resolves with the empty string when
    no client is configured, and when the model answers without text
    (no [text], or only white space). *)
Theorem empty_decode_is_ignored
    (genAI : option Client) (s : KeyboardSettings) (text path prev : jsstring)
    (Hempty : settled (decipherSwipe genAI path (trace_context s text)
                         (language_code (language s))) = Normal []) :
  buffer (handleTraceEnd genAI s text path prev) = prev
  /\ (forall ev, ev ∈ log (handleTraceEnd genAI s text path prev) ->
                 is_learn ev = false)
  /\ (forall swipePath context lang,
        settled (decipherSwipe None swipePath context lang) = Normal [])
  /\ (forall ai swipePath context lang request response,
        requests (decipherSwipe (Some ai) swipePath context lang) = [request] ->
        ai request = Normal response ->
        (Gemini.text response = None
         \/ exists t, Gemini.text response = Some t /\ trim t = []) ->
        settled (decipherSwipe (Some ai) swipePath context lang) = Normal []).
Proof.
  split; [|split; [|split]].
  - destruct (decide (path = [])) as [->|Hpath]; [done|].
    by rewrite (handleTraceEnd_resolved _ _ _ _ _ _ Hpath Hempty).
  - intros ev Hev. apply handleTraceEnd_calls in Hev. cbv zeta in Hev.
    destruct Hev as [(b & ->)|[->|[(request & -> & _)|(word & _ & Hw & Hne & _)]]];
      try done.
    rewrite Hempty in Hw. congruence.
  - done.
  - intros ai swipePath context lang request response Hsent Hresp Hnone.
    revert Hsent. unfold decipherSwipe.
    destruct (negb (truthy (trim swipePath))); [done|].
    destruct (length swipePath <? 3); [done|].
    set (sent := mkRequest _ _). cbn [requests settled]. intros Hsent.
    assert (request = sent) as <- by congruence.
    rewrite Hresp. cbn [mbind completion_bind try_catch mret completion_ret].
    by rewrite first_word_no_text.
Qed.

Lemma empty_decode_is_ignored_witness :
  let s := mkSettings EN true false false in
  settled (decipherSwipe None (js "helo") (trace_context s (js "hi "))
             (language_code (language s))) = Normal []
  /\ buffer (handleTraceEnd None s (js "hi ") (js "helo") (js "hi ")) = js "hi ".
Proof.
  intros s. split; [reflexivity|].
  exact (proj1 (empty_decode_is_ignored None s (js "hi ") (js "helo") (js "hi ")
                  eq_refl)).
Defined.

(** C6.  With incognito mode or keystroke encryption on, the trace-end
    handler called with a crossing string calls the decoder with that
    string and the empty context; when a client is configured and the
    string has at least 3 code units and is not blank, the request sent to
    the model carries the prompt with the empty context.  No call of the
    decoder and no request carries anything else, and the frequency
    learner is not called.  Two runs that differ only in the text buffer
    make exactly the same calls. *)
Theorem private_modes_hide_context
    (genAI : option Client) (s : KeyboardSettings)
    (text1 text2 prev1 prev2 path : jsstring)
    (Hprivate : incognitoMode s || encryptKeystrokes s = true) :
  let run1 := handleTraceEnd genAI s text1 path prev1 in
  let run2 := handleTraceEnd genAI s text2 path prev2 in
  log run1 = log run2
  /\ (forall swipePath context lang,
        DecipherSwipe swipePath context lang ∈ log run1 -> context = [])
  /\ (forall request,
        GenerateContent request ∈ log run1 ->
        contents request
        = swipe_prompt path [] (lang_name (language_code (language s))))
  /\ (forall ev, ev ∈ log run1 -> is_learn ev = false)
  /\ (path <> [] ->
      DecipherSwipe path [] (language_code (language s)) ∈ log run1)
  /\ (genAI <> None -> trim path <> [] -> 3 <= length path ->
      GenerateContent
        {| model := MODEL_NAME;
           contents := swipe_prompt path []
                         (lang_name (language_code (language s))) |}
      ∈ log run1).
Proof.
  intros run1 run2.
  assert (Hctx : forall text, trace_context s text = []).
  { intros text. unfold trace_context. by rewrite Hprivate. }
  split; [|split; [|split; [|split; [|split]]]].
  - subst run1 run2.
    destruct (decide (path = [])) as [->|Hpath]; [done|].
    destruct (decipherSwipe_settles genAI path [] (language_code (language s)))
      as (w & Hw).
    rewrite !(handleTraceEnd_resolved genAI s _ path _ w Hpath)
      by (by rewrite Hctx).
    rewrite !Hctx. cbn [log]. by destruct (truthy w).
  - intros swipePath context lang Hin.
    apply handleTraceEnd_calls in Hin. cbv zeta in Hin. rewrite Hctx in Hin.
    destruct Hin as [(b & ?)|[Heq|[(request & ? & _)|(word & ? & _)]]];
      congruence.
  - intros request Hin.
    apply handleTraceEnd_calls in Hin. cbv zeta in Hin. rewrite Hctx in Hin.
    destruct Hin as [(b & ?)|[?|[(request' & Heq & Hreq)|(word & ? & _)]]];
      try congruence.
    injection Heq as <-. by rewrite (decipherSwipe_requests _ _ _ _ _ Hreq).
  - intros ev Hin.
    apply handleTraceEnd_calls in Hin. cbv zeta in Hin.
    destruct Hin as [(b & ->)|[->|[(request & -> & _)|(word & _ & _ & _ & Hi & He)]]];
      try done.
    rewrite Hi, He in Hprivate. done.
  - intros Hpath. subst run1.
    pose proof (handleTraceEnd_deciphers genAI s text1 path prev1 Hpath) as Hin.
    by rewrite Hprivate in Hin.
  - intros Hai Htrim Hlen. subst run1.
    by apply handleTraceEnd_requests.
Qed.

Lemma private_modes_hide_context_witness :
  let s := mkSettings EN true true false in
  let ai : Client := fun _ => Normal {| Gemini.text := Some (js "hello") |} in
  let run := handleTraceEnd (Some ai) s (js "my secret") (js "helo") (js "my secret") in
  incognitoMode s || encryptKeystrokes s = true
  /\ log run
     = log (handleTraceEnd (Some ai) s (js "other") (js "helo") (js "other"))
  /\ DecipherSwipe (js "helo") [] (js "EN") ∈ log run
  /\ GenerateContent
       {| model := MODEL_NAME;
          contents := swipe_prompt (js "helo") [] (js "English") |} ∈ log run.
Proof.
  intros s ai run.
  pose proof (private_modes_hide_context (Some ai) s (js "my secret") (js "other")
                (js "my secret") (js "other") (js "helo") eq_refl) as H.
  cbv zeta in H. destruct H as (Hsame & _ & _ & _ & Hsent & Hasked).
  split; [reflexivity|]. split; [exact Hsame|]. split.
  - apply Hsent. discriminate.
  - apply Hasked; [discriminate | vm_compute; discriminate | simpl; lia].
Defined.

(** ** Appending the decoded word *)

Section AppendWord.

(** The first piece of [split(sep)] holds no separator and is followed,
    if by anything, by a separator. *)
Lemma split_unit_first sep s :
  exists w ws,
    split_unit sep s = w :: ws
    /\ (sep ∉ w)
    /\ (s = w \/ exists rest, s = w ++ sep :: rest).
Proof.
  induction s as [|c s (w & ws & Hsplit & Hsep & Hshape)]; simpl.
  - exists [], []. split; [done|]. split; [apply not_elem_of_nil | by left].
  - destruct (N.eqb_spec c sep) as [->|Hne].
    + exists [], (split_unit sep s). split; [done|].
      split; [apply not_elem_of_nil | right; by exists s].
    + rewrite Hsplit. exists (c :: w), ws. split; [done|].
      split; [rewrite not_elem_of_cons; by split|].
      destruct Hshape as [->|(rest & ->)]; [by left | right; by exists rest].
Qed.

(** [first_word] is the trimmed text up to its first space. *)
Lemma first_word_text response t :
  Gemini.text response = Some t ->
  (SPACE ∉ first_word response)
  /\ (trim t = first_word response
      \/ exists rest, trim t = first_word response ++ SPACE :: rest).
Proof.
  intros Ht. unfold first_word. rewrite Ht. cbn [mbind option_bind].
  destruct (split_unit_first SPACE (trim t)) as (w & ws & -> & Hsep & Hshape).
  cbn [lookup list_lookup or_else].
  by destruct w.
Qed.

Lemma first_word_has_text response :
  first_word response <> [] -> exists t, Gemini.text response = Some t.
Proof.
  unfold first_word. destruct (Gemini.text response) as [t|]; [by exists t|done].
Qed.

Lemma startsWith_unit_notin (w : jsstring) (c : N) :
  c ∉ w -> startsWith w [c] = false.
Proof.
  destruct w as [|a w]; [done|]. rewrite not_elem_of_cons. intros [Hne _].
  cbn [startsWith]. destruct (N.eqb_spec a c); [congruence | done].
Qed.

(** The buffer [append_word] leaves for a word that does not start with
    a space. *)
Lemma append_word_buffer s word prev :
  startsWith word [SPACE] = false ->
  buffer (append_word s word prev)
  = prev
    ++ (if bool_decide (prev <> [] /\ last prev <> Some SPACE) then [SPACE] else [])
    ++ word ++ [SPACE].
Proof.
  intros Hstart. unfold append_word. cbn [buffer].
  rewrite Hstart, endsWith_unit, andb_true_r. do 2 f_equal.
  destruct prev as [|c prev].
  - cbn [length Nat.ltb Nat.leb andb]. by rewrite bool_decide_eq_false_2 by tauto.
  - change (0 <? length (c :: prev)) with true. cbn [andb].
    case_bool_decide as Hlast.
    + by rewrite bool_decide_eq_false_2 by tauto.
    + by rewrite bool_decide_eq_true_2.
Qed.

Lemma decipherSwipe_answered ai swipePath context language request response :
  requests (decipherSwipe (Some ai) swipePath context language) = [request] ->
  ai request = Normal response ->
  swipePath <> []
  /\ settled (decipherSwipe (Some ai) swipePath context language)
     = Normal (first_word response).
Proof.
  intros Hsent Hresp. split; [by intros ->|].
  revert Hsent. unfold decipherSwipe.
  destruct (negb (truthy (trim swipePath))); [done|].
  destruct (length swipePath <? 3); [done|].
  set (sent := mkRequest _ _). cbn [requests settled]. intros Hsent.
  assert (request = sent) as <- by congruence.
  by rewrite Hresp.
Qed.

End AppendWord.

(** C5, as first stated: a buffer ending in white space other than a space
    still receives a separating space, and a model answer whose words are
    separated by white space other than a space is taken whole. *)
Lemma decoded_word_spacing_counterexample :
  let s := mkSettings EN true false false in
  let prev := js "hi" ++ [LF] in
  let ai : Client := fun _ => Normal {| Gemini.text := Some (js "hello") |} in
  let TAB := 9%N in
  let ai2 : Client :=
    fun _ => Normal {| Gemini.text := Some (js "hello" ++ [TAB] ++ js "world") |} in
  is_white_space LF = true
  /\ last prev = Some LF
  /\ buffer (handleTraceEnd (Some ai) s prev (js "helo") prev)
     = prev ++ js " hello "
  /\ buffer (handleTraceEnd (Some ai) s prev (js "helo") prev)
     <> prev ++ js "hello "
  /\ is_white_space TAB = true
  /\ buffer (handleTraceEnd (Some ai2) s [] (js "helo") [])
     = js "hello" ++ [TAB] ++ js "world "
  /\ buffer (handleTraceEnd (Some ai2) s [] (js "helo") []) <> js "hello ".
Proof.
  intros s prev ai TAB ai2. vm_compute. repeat split; discriminate.
Qed.

(** C5 (amended).  When the model answers with a non-empty word, only the
    part of its trimmed answer before the first space character is taken,
    and the buffer receives it with automatic spacing: a separating space
    is inserted if and only if the buffer is non-empty and does not
    already end in a space character, and a space always follows the word.
    A buffer that is empty or ends in a space receives exactly the word
    and a space. *)
Theorem decoded_word_is_appended
    (ai : Client) (s : KeyboardSettings) (text path prev : jsstring)
    (request : GenerateContentRequest) (response : GenerateContentResponse)
    (Hsent : requests (decipherSwipe (Some ai) path (trace_context s text)
                         (language_code (language s))) = [request])
    (Hresp : ai request = Normal response)
    (Hword : first_word response <> []) :
  let word := first_word response in
  (exists t,
      Gemini.text response = Some t
      /\ (SPACE ∉ word)
      /\ (trim t = word \/ exists rest, trim t = word ++ SPACE :: rest))
  /\ buffer (handleTraceEnd (Some ai) s text path prev)
     = prev
       ++ (if bool_decide (prev <> [] /\ last prev <> Some SPACE) then [SPACE] else [])
       ++ word ++ [SPACE]
  /\ (prev = [] \/ last prev = Some SPACE ->
      buffer (handleTraceEnd (Some ai) s text path prev) = prev ++ word ++ [SPACE]).
Proof.
  intros word.
  destruct (first_word_has_text response Hword) as (t & Ht).
  destruct (first_word_text response t Ht) as (Hsep & Hshape).
  destruct (decipherSwipe_answered _ _ _ _ _ _ Hsent Hresp) as (Hpath & Hsettled).
  assert (Hbuf : buffer (handleTraceEnd (Some ai) s text path prev)
                 = prev
                   ++ (if bool_decide (prev <> [] /\ last prev <> Some SPACE)
                       then [SPACE] else [])
                   ++ word ++ [SPACE]).
  { rewrite (handleTraceEnd_resolved _ _ _ _ _ _ Hpath Hsettled). cbn [buffer].
    fold word. destruct word as [|c w] eqn:Hw; [done|]. cbn [truthy].
    apply append_word_buffer, startsWith_unit_notin. by rewrite <- Hw. }
  split; [by exists t|]. split; [exact Hbuf|].
  intros Hend. rewrite Hbuf. by rewrite bool_decide_eq_false_2 by tauto.
Qed.

Lemma decoded_word_is_appended_witness :
  let s := mkSettings EN true false false in
  let ai : Client := fun _ => Normal {| Gemini.text := Some (js "hello") |} in
  let request := {| model := MODEL_NAME;
                    contents := swipe_prompt (js "helo") (js "hi ") (js "English") |} in
  let response := {| Gemini.text := Some (js "hello") |} in
  requests (decipherSwipe (Some ai) (js "helo") (trace_context s (js "hi "))
              (language_code (language s))) = [request]
  /\ ai request = Normal response
  /\ first_word response <> []
  /\ buffer (handleTraceEnd (Some ai) s (js "hi ") (js "helo") (js "hi "))
     = js "hi hello ".
Proof.
  intros s ai request response.
  assert (Hword : first_word response <> []) by (vm_compute; discriminate).
  split; [reflexivity|]. split; [reflexivity|]. split; [exact Hword|].
  pose proof (decoded_word_is_appended ai s (js "hi ") (js "helo") (js "hi ")
                request response eq_refl eq_refl Hword) as H.
  cbv zeta in H. destruct H as (_ & _ & Hspace).
  apply Hspace. by right.
Defined.

(** ** Swipe left *)

Section SwipeLeft.

Lemma lastIndexOf_from_absent (c : N) (s : jsstring) (i : Z) :
  c ∉ s -> lastIndexOf_from i s [c] = (-1)%Z.
Proof.
  revert i. induction s as [|a s IH]; intros i Hc; [done|].
  apply not_elem_of_cons in Hc as [Hne Hc].
  cbn [lastIndexOf_from]. rewrite (IH _ Hc).
  rewrite startsWith_unit_notin; [done|].
  rewrite not_elem_of_cons. split; [done|]. exact Hc.
Qed.

Lemma lastIndexOf_from_last (c : N) (pre post : jsstring) (i : Z) :
  c ∉ post -> (0 <= i)%Z ->
  lastIndexOf_from i (pre ++ c :: post) [c] = (i + Z.of_nat (length pre))%Z.
Proof.
  intros Hpost. revert i. induction pre as [|a pre IH]; intros i Hi.
  - cbn [app lastIndexOf_from length]. rewrite lastIndexOf_from_absent by done.
    cbn [startsWith Z.leb Z.compare]. rewrite N.eqb_refl. cbn. lia.
  - cbn [app lastIndexOf_from]. rewrite IH by lia.
    destruct (Z.leb_spec 0 (i + 1 + Z.of_nat (length pre))); [|lia].
    rewrite length_cons. lia.
Qed.

Lemma substring_prefix (s : jsstring) (n : Z) :
  (0 <= n <= Z.of_nat (length s))%Z ->
  substring s 0 n = take (Z.to_nat n) s.
Proof.
  intros Hn. unfold substring.
  rewrite (Z.max_l 0 0), Z.min_l, (Z.max_l n 0), (Z.min_l n) by lia.
  change (Z.to_nat 0) with 0. rewrite Nat.min_0_l, Nat.max_0_l, Nat.sub_0_r.
  by rewrite drop_0.
Qed.

(** What [handleSwipeLeft] leaves: nothing when the buffer, trimmed at
    its end, holds no space; otherwise the buffer up to and including its
    last space. *)
Lemma handleSwipeLeft_no_space buf :
  SPACE ∉ trimEnd buf -> handleSwipeLeft buf = [].
Proof.
  intros Hno. unfold handleSwipeLeft, lastIndexOf.
  by rewrite lastIndexOf_from_absent.
Qed.

Lemma handleSwipeLeft_last_space buf kept tail :
  trimEnd buf = kept ++ SPACE :: tail -> SPACE ∉ tail ->
  handleSwipeLeft buf = kept ++ [SPACE].
Proof.
  intros Htrim Htail. unfold handleSwipeLeft, lastIndexOf.
  rewrite Htrim, lastIndexOf_from_last by done.
  destruct (Z.eqb_spec (0 + Z.of_nat (length kept)) (-1)); [lia|].
  rewrite substring_prefix by (rewrite length_app; lia).
  rewrite Z.add_0_l, Nat2Z.id. by rewrite take_app_length.
Qed.

Lemma trimStart_white ws s :
  Forall (fun c => is_white_space c = true) ws ->
  trimStart (ws ++ s) = trimStart s.
Proof.
  induction 1 as [|c ws Hc _ IH]; [done|].
  cbn [app trimStart]. by rewrite Hc.
Qed.

Lemma trimEnd_white body c ws :
  is_white_space c = false ->
  Forall (fun c => is_white_space c = true) ws ->
  trimEnd ((body ++ [c]) ++ ws) = body ++ [c].
Proof.
  intros Hc Hws. unfold trimEnd.
  rewrite rev_app_distr, trimStart_white by by apply Forall_rev.
  rewrite rev_unit. cbn [trimStart]. rewrite Hc.
  by rewrite <- rev_unit, rev_involutive.
Qed.

End SwipeLeft.

(** C7, as first stated: the word removed is delimited by the last space
    character, not by the last white space.  In the buffer "a b", newline,
    "c" the last white-space-delimited word is "c"; swipe-left leaves "a ",
    so "b" is gone too, while on "the quick fox " the two readings agree. *)
Lemma swipe_left_newline_counterexample :
  let buf := js "a b" ++ [LF] ++ js "c" in
  is_white_space LF = true
  /\ remove_last_word_spec buf = js "a b" ++ [LF]
  /\ handleSwipeLeft buf = js "a "
  /\ handleSwipeLeft buf <> remove_last_word_spec buf
  /\ ~ js "a b" `prefix_of` handleSwipeLeft buf
  /\ remove_last_word_spec (js "the quick fox ") = js "the quick ".
Proof.
  intros buf. vm_compute.
  repeat split; try discriminate.
  intros (k & Hk). discriminate.
Qed.

(** C7 (amended).  Swipe-left trims the white space at the end of the
    buffer and removes everything after the last space character, which it
    keeps as the new last character; without a space character the buffer
    becomes empty.  So a last word that follows a space character is
    removed, with any white space after it, and the space before it stays:
    "the quick fox " becomes "the quick ". *)
Theorem swipe_left_removes_last_word
    (pre word ws : jsstring)
    (Hword : word <> [])
    (Hnonwhite : Forall (fun c => is_white_space c = false) word)
    (Hwhite : Forall (fun c => is_white_space c = true) ws) :
  handleSwipeLeft (pre ++ [SPACE] ++ word ++ ws) = pre ++ [SPACE]
  /\ (forall buf kept tail,
        trimEnd buf = kept ++ SPACE :: tail -> SPACE ∉ tail ->
        handleSwipeLeft buf = kept ++ [SPACE])
  /\ (forall buf, SPACE ∉ trimEnd buf -> handleSwipeLeft buf = [])
  /\ handleSwipeLeft (js "the quick fox ") = js "the quick ".
Proof.
  split; [|split; [apply handleSwipeLeft_last_space|
                   split; [apply handleSwipeLeft_no_space | reflexivity]]].
  destruct word as [|c word _] using rev_ind; [done|].
  apply Forall_app in Hnonwhite as [Hbody Hc]. apply Forall_inv in Hc.
  apply (handleSwipeLeft_last_space _ pre (word ++ [c])).
  - replace (pre ++ [SPACE] ++ (word ++ [c]) ++ ws)
      with (((pre ++ [SPACE] ++ word) ++ [c]) ++ ws)
      by (by rewrite <- !app_assoc).
    rewrite trimEnd_white by done. by rewrite <- !app_assoc.
  - rewrite not_elem_of_app, list_elem_of_singleton. split.
    + intros Hin. rewrite Forall_forall in Hbody.
      by specialize (Hbody SPACE Hin).
    + intros <-. done.
Qed.

Lemma swipe_left_removes_last_word_witness :
  js "fox" <> []
  /\ Forall (fun c => is_white_space c = false) (js "fox")
  /\ Forall (fun c => is_white_space c = true) (js " ")
  /\ handleSwipeLeft (js "the quick" ++ [SPACE] ++ js "fox" ++ js " ")
     = js "the quick" ++ [SPACE].
Proof.
  assert (Hword : js "fox" <> []) by discriminate.
  assert (Hnonwhite : Forall (fun c => is_white_space c = false) (js "fox"))
    by (repeat constructor).
  assert (Hwhite : Forall (fun c => is_white_space c = true) (js " "))
    by (repeat constructor).
  split; [exact Hword|]. split; [exact Hnonwhite|]. split; [exact Hwhite|].
  exact (proj1 (swipe_left_removes_last_word (js "the quick") (js "fox") (js " ")
                  Hword Hnonwhite Hwhite)).
Defined.

(** * Further properties *)

(** ** The point pool, continued *)

Section PoolMore.

Lemma recycle_pool (points : list loc) (this : PointPool) :
  pool (recycle points this)
  = pool this ++ map Ref (take (maxPoolSize this - length (pool this)) points).
Proof.
  destruct (decide (length (pool this) < maxPoolSize this)) as [Hlt|Hge].
  - by rewrite recycle_room.
  - rewrite recycle_full by lia.
    replace (maxPoolSize this - length (pool this)) with 0 by lia.
    by rewrite take_0, app_nil_r.
Qed.

Lemma array_pop_map_snoc (front : list loc) (p : loc) (before : list jsval) :
  array_pop (before ++ map Ref (front ++ [p])) = Some (Ref p, before ++ map Ref front).
Proof.
  rewrite map_app, app_assoc. apply array_pop_snoc.
Qed.

Lemma obtain_after_recycle (points front : list loc) (p : loc) (x y : Z) (m : Mem) :
  take (maxPoolSize (pointPool m) - pool_size m) points = front ++ [p] ->
  obtain x y (recycle_mem points m)
  = Normal (p, {| heap := <[p := mkPoint x y]> (heap m);
                  pointPool := {| pool := pool (pointPool m) ++ map Ref front;
                                  maxPoolSize := maxPoolSize (pointPool m) |} |}).
Proof.
  intros Hkept.
  unfold obtain, recycle_mem, pool_size in *. cbn [pointPool heap].
  rewrite recycle_maxPoolSize, recycle_pool, Hkept.
  rewrite array_pop_map_snoc.
  rewrite length_app, length_map, length_app. cbn [length].
  by destruct (Nat.ltb_spec 0 (length (pool (pointPool m)) + (length front + 1)));
    [|lia].
Qed.

End PoolMore.

(** X1.  [recycle] retains the given points from the front: the pool
    becomes its old content followed by the first [capacity - size] points
    of the list, in their order, and the points after those are dropped;
    the capacity is unchanged. *)
Theorem recycle_retains_prefix (points : list loc) (this : PointPool) :
  pool (recycle points this)
  = pool this ++ map Ref (take (maxPoolSize this - length (pool this)) points)
  /\ maxPoolSize (recycle points this) = maxPoolSize this.
Proof. split; [apply recycle_pool | apply recycle_maxPoolSize]. Qed.

(** X2.  The pool is a stack: when [recycle] retains at least one of the
    given points, the next [obtain] returns the last point retained,
    initialised to the new coordinates, and leaves the others pooled. *)
Theorem obtain_returns_last_recycled
    (points front : list loc) (p : loc) (x y : Z) (m : Mem)
    (Hkept : take (maxPoolSize (pointPool m) - pool_size m) points = front ++ [p]) :
  obtain x y (recycle_mem points m)
  = Normal (p, {| heap := <[p := mkPoint x y]> (heap m);
                  pointPool := {| pool := pool (pointPool m) ++ map Ref front;
                                  maxPoolSize := maxPoolSize (pointPool m) |} |}).
Proof. by apply obtain_after_recycle. Qed.

Lemma obtain_returns_last_recycled_witness :
  take (maxPoolSize (pointPool initial_Mem) - pool_size initial_Mem) [3; 7; 9]
  = [3; 7] ++ [9]
  /\ exists m', obtain 10 20 (recycle_mem [3; 7; 9] initial_Mem) = Normal (9, m').
Proof.
  split; [reflexivity|]. eexists.
  exact (obtain_returns_last_recycled [3; 7; 9] [3; 7] 9 10 20 initial_Mem eq_refl).
Defined.

(** X3.  [obtain] touches one object only.  On a pool whose slots all hold
    points it succeeds, writes the coordinates to the point it returns and
    leaves every other object as it was; with an empty pool the point is a
    new allocation, otherwise it is the top of the pool, which shrinks by
    one. *)
Theorem obtain_frame (x y : Z) (m : Mem)
    (Hrefs : Forall is_ref (pool (pointPool m))) :
  exists p m',
    obtain x y m = Normal (p, m')
    /\ heap m' = <[p := mkPoint x y]> (heap m)
    /\ (forall q, q <> p -> heap m' !! q = heap m !! q)
    /\ pool_size m' = pool_size m - 1
    /\ (pool_size m = 0 -> p ∉ dom (heap m))
    /\ (0 < pool_size m -> last (pool (pointPool m)) = Some (Ref p)).
Proof.
  unfold obtain, pool_size.
  destruct (Nat.ltb_spec 0 (length (pool (pointPool m)))) as [Hpos|Hzero].
  - destruct (array_pop_nonempty _ Hpos) as (v & rest & Hpop). rewrite Hpop.
    apply array_pop_Some in Hpop. rewrite Hpop in Hrefs |- *.
    apply Forall_app in Hrefs as [_ Hv]. apply Forall_inv in Hv.
    destruct v as [|p]; [destruct Hv|].
    eexists _, _. split; [reflexivity|]. cbn [heap pointPool pool].
    split; [done|]. split; [by intros q Hq; rewrite lookup_insert_ne|].
    rewrite length_app. cbn [length].
    split; [lia|]. split; [lia|]. intros _. by rewrite last_snoc.
  - eexists _, _. split; [reflexivity|]. cbn [heap pointPool pool].
    split; [done|]. split; [by intros q Hq; rewrite lookup_insert_ne|].
    split; [lia|]. split; [intros _; apply is_fresh | lia].
Qed.

Lemma obtain_frame_witness :
  Forall is_ref (pool (pointPool (recycle_mem [4] initial_Mem)))
  /\ exists p m', obtain 1 2 (recycle_mem [4] initial_Mem) = Normal (p, m').
Proof.
  assert (Hrefs : Forall is_ref (pool (pointPool (recycle_mem [4] initial_Mem)))).
  { repeat constructor. }
  split; [exact Hrefs|].
  destruct (obtain_frame 1 2 (recycle_mem [4] initial_Mem) Hrefs)
    as (p & m' & Hob & _).
  by exists p, m'.
Defined.

(** X4.  The pool does not check what it is given: after [recycle] of a
    list that names the same point twice, two successive [obtain] calls
    return that one object, and the second overwrites the coordinates the
    first caller was given. *)
Theorem recycle_twice_aliases (h : gmap loc Point) (p : loc) (x1 y1 x2 y2 : Z) :
  let m0 := {| heap := h; pointPool := new_PointPool |} in
  exists m1 m2,
    obtain x1 y1 (recycle_mem [p; p] m0) = Normal (p, m1)
    /\ heap m1 !! p = Some (mkPoint x1 y1)
    /\ obtain x2 y2 m1 = Normal (p, m2)
    /\ heap m2 !! p = Some (mkPoint x2 y2).
Proof.
  intros m0. eexists _, _.
  split; [exact (obtain_after_recycle [p; p] [p] p x1 y1 m0 eq_refl)|].
  cbn [heap pointPool pool new_PointPool maxPoolSize map app].
  split; [apply lookup_insert_eq|].
  split; [reflexivity|]. cbn [heap]. apply lookup_insert_eq.
Qed.

(** ** Ownership of points across gestures *)

Section Ownership.

Lemma owns_obtain (path : list loc) (x y : Z) (m : Mem) :
  owns path m ->
  exists p m', obtain x y m = Normal (p, m') /\ owns (path ++ [p]) m'.
Proof.
  intros (pooled & Hpool & Hnd & Hdom & Hmax & Hlen). unfold obtain.
  rewrite Hpool, length_map.
  destruct pooled as [|q front _] using rev_ind.
  - cbn [length Nat.ltb Nat.leb].
    set (p := fresh (dom (heap m))).
    assert (Hp : p ∉ dom (heap m)) by apply is_fresh.
    eexists _, _. split; [reflexivity|].
    exists []. cbn [pointPool heap app]. rewrite Hpool.
    split; [done|]. split; [|split; [|split; [done | simpl; lia]]].
    + apply NoDup_app. split; [exact Hnd|]. split; [|apply NoDup_singleton].
      intros l Hl. rewrite list_elem_of_singleton. intros ->.
      apply Hp, Hdom. exact Hl.
    + intros l. rewrite elem_of_app, list_elem_of_singleton, dom_insert_L.
      intros [Hl | ->]; [|set_solver]. apply elem_of_union_r, Hdom. exact Hl.
  - rewrite length_app. cbn [length].
    destruct (Nat.ltb_spec 0 (length front + 1)); [|lia].
    rewrite map_app. cbn [map]. rewrite array_pop_snoc.
    eexists _, _. split; [reflexivity|].
    exists front. cbn [pointPool heap pool maxPoolSize].
    rewrite length_app in Hlen. cbn [length] in Hlen.
    split; [done|]. split; [|split; [|split; [done | lia]]].
    + rewrite <- app_assoc in Hnd. rewrite app_assoc.
      apply NoDup_app in Hnd as (Hfront & Hdisj & Hrest).
      apply NoDup_app. split; [|split].
      * apply NoDup_app. split; [exact Hfront|].
        split; [|by apply NoDup_cons in Hrest as [_ ?]].
        intros l Hl Hin. apply (Hdisj l Hl). by right.
      * intros l Hl. rewrite list_elem_of_singleton. intros ->.
        apply elem_of_app in Hl as [Hl|Hl].
        -- apply (Hdisj q Hl). by left.
        -- by apply NoDup_cons in Hrest as [? _].
      * apply NoDup_singleton.
    + intros l Hl. rewrite dom_insert_L. apply elem_of_union_r, Hdom.
      rewrite !elem_of_app, list_elem_of_singleton in Hl.
      rewrite !elem_of_app, list_elem_of_singleton. tauto.
Qed.

Lemma owns_recycle (path : list loc) (m : Mem) :
  owns path m -> owns [] (recycle_mem path m).
Proof.
  intros (pooled & Hpool & Hnd & Hdom & Hmax & Hlen).
  exists (pooled ++ take (500 - length pooled) path).
  unfold recycle_mem. cbn [pointPool heap].
  rewrite recycle_pool, recycle_maxPoolSize, Hpool, Hmax, length_map, map_app.
  split; [done|]. rewrite app_nil_r.
  split; [|split; [|split; [done | rewrite length_app, length_take; lia]]].
  - apply (sublist_NoDup _ (pooled ++ path)); [exact Hnd|].
    apply sublist_app; [done | apply sublist_take].
  - intros l Hl. apply Hdom.
    apply elem_of_app in Hl as [Hl|Hl]; apply elem_of_app; [by left | right].
    by apply (subseteq_take (500 - length pooled) path).
Qed.

Lemma owns_cleanup (path : list loc) (m : Mem) :
  owns path m -> owns path (cleanup_mem m).
Proof.
  intros (pooled & Hpool & Hnd & Hdom & Hmax & Hlen).
  exists []. unfold cleanup_mem. cbn [pointPool heap pool cleanup maxPoolSize app].
  split; [done|]. split; [by apply NoDup_app in Hnd as (_ & _ & ?)|].
  split; [|split; [done | simpl; lia]].
  intros l Hl. apply Hdom, elem_of_app. by right.
Qed.

Lemma owns_handleTouchStart props e r m :
  owns (tracePoints r) m ->
  exists r' m',
    handleTouchStart props e r m = Normal (r', m') /\ owns (tracePoints r') m'.
Proof.
  intros Hown. unfold handleTouchStart.
  destruct (touch_count (touches e) =? 2); [by eexists _, _|].
  destruct (traceTyping (settings props) && negb (isButtonEditMode props)
            && negb (isResizeMode props)); [|by eexists _, _].
  destruct (0 <? length (tracePoints r)).
  - destruct (owns_obtain [] (clientX (touch0 (touches e)))
                (clientY (touch0 (touches e))) _ (owns_recycle _ _ Hown))
      as (p & m' & -> & Hown').
    by eexists _, _.
  - destruct (owns_obtain _ (clientX (touch0 (touches e)))
                (clientY (touch0 (touches e))) _ Hown) as (p & m' & -> & Hown').
    by eexists _, _.
Qed.

Lemma owns_handleTouchMove props e r m :
  owns (tracePoints r) m ->
  exists calls r' m',
    handleTouchMove props e r m = Normal (calls, r', m')
    /\ owns (tracePoints r') m'.
Proof.
  intros Hown. unfold handleTouchMove.
  destruct (_ && _ && onUpdateSize props); [by eexists _, _, _|].
  destruct (_ && _ && negb (isButtonEditMode props)); [|by eexists _, _, _].
  destruct (canvasRef r && containerRef r); [|by eexists _, _, _].
  destruct (owns_obtain _ (clientX (touch0 (touches e)))
              (clientY (touch0 (touches e))) _ Hown) as (p & m' & -> & Hown').
  by eexists _, _, _.
Qed.

Lemma owns_handleTouchEnd props e r m :
  owns (tracePoints r) m ->
  owns (tracePoints (handleTouchEnd props e r m).1.2) (handleTouchEnd props e r m).2.
Proof.
  intros Hown. unfold handleTouchEnd.
  destruct (touchStart r) as [[sx sy]|]; [|done].
  destruct (traceTyping (settings props)); [|done].
  cbn [fst snd tracePoints]. by apply owns_recycle.
Qed.

Lemma owns_ui_step ev r m :
  owns (tracePoints r) m ->
  exists calls r' m',
    ui_step ev r m = Normal (calls, r', m') /\ owns (tracePoints r') m'.
Proof.
  intros Hown. destruct ev as [props e|props e|props e|]; cbn [ui_step].
  - destruct (owns_handleTouchStart props e r m Hown) as (r' & m' & -> & Hown').
    by eexists _, _, _.
  - by apply owns_handleTouchMove.
  - pose proof (owns_handleTouchEnd props e r m Hown) as Hown'.
    destruct (handleTouchEnd props e r m) as [[calls r'] m'].
    by eexists _, _, _.
  - eexists _, _, _. split; [done|]. by apply owns_cleanup.
Qed.

Lemma owns_initial : owns (tracePoints initial_Refs) initial_Mem.
Proof.
  exists []. repeat split; simpl; try done; try lia; try constructor.
  intros l Hl. by apply elem_of_nil in Hl.
Qed.

End Ownership.

(** X5.  No point is shared.  From a state in which the pool and the live
    path hold distinct, allocated points, any sequence of touch-start,
    touch-move and touch-end events (with any props, any number of
    fingers) and of unmounts runs without an exception and ends in such a
    state: no point is twice in the pool or twice on the path, no point is
    in both, and the pool holds at most 500. *)
Theorem points_never_shared (evs : list ui_event) (r0 : Refs) (m0 : Mem)
    (Hown : owns (tracePoints r0) m0) :
  exists calls r m,
    ui_run evs r0 m0 = Normal (calls, r, m)
    /\ owns (tracePoints r) m
    /\ pool_size m <= 500.
Proof.
  assert (Hrun : exists calls r m,
             ui_run evs r0 m0 = Normal (calls, r, m) /\ owns (tracePoints r) m).
  { revert r0 m0 Hown. induction evs as [|ev evs IH]; intros r0 m0 Hown.
    - by exists [], r0, m0.
    - destruct (owns_ui_step ev r0 m0 Hown) as (c1 & r1 & m1 & Hstep & Hown1).
      destruct (IH r1 m1 Hown1) as (c2 & r2 & m2 & Hrest & Hown2).
      cbn [ui_run]. rewrite Hstep. cbn. rewrite Hrest. cbn.
      by eexists _, _, _. }
  destruct Hrun as (calls & r & m & Hrun & Hown').
  exists calls, r, m. split; [exact Hrun|]. split; [exact Hown'|].
  destruct Hown' as (pooled & Hpool & _ & _ & _ & Hlen).
  unfold pool_size. by rewrite Hpool, length_map.
Qed.

Lemma points_never_shared_witness :
  let props := app_props (mkSettings EN true false false) false false in
  let evs := [TouchStart props (one_finger (mkTouch 100 100 None));
              TouchMove props (one_finger (mkTouch 110 100 (Some (js "h"))));
              TouchEnd props (one_finger (mkTouch 180 100 None));
              TouchStart props (one_finger (mkTouch 50 50 None))] in
  owns (tracePoints initial_Refs) initial_Mem
  /\ exists calls r m,
       ui_run evs initial_Refs initial_Mem = Normal (calls, r, m)
       /\ pool_size m <= 500.
Proof.
  intros props evs.
  assert (Hown : owns (tracePoints initial_Refs) initial_Mem).
  { exists []. repeat split; simpl; try done; try lia; try constructor.
    intros l Hl. by apply elem_of_nil in Hl. }
  split; [exact Hown|].
  destruct (points_never_shared evs initial_Refs initial_Mem Hown)
    as (calls & r & m & Hrun & _ & Hsize).
  by exists calls, r, m.
Defined.

(** ** The tracker, continued *)

Section TrackerMore.

Lemma startsWith_app (t s : jsstring) : startsWith (t ++ s) t = true.
Proof.
  induction t as [|c t IH]; [done|].
  cbn [app startsWith]. by rewrite N.eqb_refl, IH.
Qed.

Lemma endsWith_app (p k : jsstring) : endsWith (p ++ k) k = true.
Proof. unfold endsWith. rewrite rev_app_distr. apply startsWith_app. Qed.

Lemma cross_ends (path k : jsstring) :
  k <> [] -> endsWith (cross path (Some k)) k = true.
Proof.
  intros Hk. unfold cross. destruct k as [|c k]; [done|]. cbn [truthy andb].
  destruct (endsWith path (c :: k)) eqn:Hends; cbn [negb];
    [exact Hends | apply endsWith_app].
Qed.

Lemma cross_again (path k : jsstring) :
  cross (cross path (Some k)) (Some k) = cross path (Some k).
Proof.
  destruct (decide (k = [])) as [->|Hk]; [done|].
  pose proof (cross_ends path k Hk) as Hends.
  unfold cross at 1. rewrite Hends. by rewrite andb_false_r.
Qed.

Lemma crossing_kept (samples : list Touch) (start : jsstring) :
  exists kept,
    sublist kept (keys_crossed samples)
    /\ crossing (map keyValue samples) start = start ++ concat kept.
Proof.
  revert start. induction samples as [|t ts IH]; intros start.
  - exists []. split; [constructor | by rewrite app_nil_r].
  - change (crossing (map keyValue (t :: ts)) start)
      with (crossing (map keyValue ts) (cross start (keyValue t))).
    destruct (IH (cross start (keyValue t))) as (kept & Hsub & ->).
    change (keys_crossed (t :: ts))
      with (match keyValue t with
            | Some k => k :: keys_crossed ts
            | None => keys_crossed ts
            end).
    destruct (keyValue t) as [k|]; cbn [cross]; [|by exists kept].
    destruct (truthy k && negb (endsWith start k)).
    + exists (k :: kept). split; [by apply sublist_skip|].
      cbn [concat]. by rewrite <- app_assoc.
    + exists kept. split; [by apply sublist_cons | done].
Qed.

Lemma ui_step_blocked ev r m :
  touch_blocked ev -> touchStart r = None ->
  exists calls r',
    ui_step ev r m = Normal (calls, r', m)
    /\ touchStart r' = None
    /\ swipePath r' = swipePath r
    /\ tracePoints r' = tracePoints r
    /\ Forall (fun c => c = CallRequestAnimationFrame) calls.
Proof.
  intros Hblocked Hidle.
  destruct ev as [props e|props e|props e|]; cbn [touch_blocked ui_step] in *;
    [| | |done].
  - unfold handleTouchStart.
    destruct (touch_count (touches e) =? 2); [by eexists _, _|].
    unfold blocked in Hblocked.
    destruct (traceTyping (settings props)), (isButtonEditMode props),
      (isResizeMode props); try done; by eexists _, _.
  - unfold handleTouchMove. rewrite Hidle.
    destruct (_ && _ && onUpdateSize props).
    + eexists _, _. repeat split; try done. by repeat constructor.
    + rewrite bool_decide_eq_false_2 by (by intros [? ?]).
      rewrite andb_false_r. cbn [andb]. by eexists _, _.
  - unfold handleTouchEnd. rewrite Hidle. by eexists _, _.
Qed.

End TrackerMore.

(** X6.  A key under the finger is crossed once, however long the finger
    stays on it: for a key identifier of any length (an emoji key has two
    code units), after the first sample the crossing string ends with the
    identifier, and any number of further samples over the same key leave
    it as it is. *)
Theorem key_held_is_crossed_once (path k : jsstring) (n : nat) :
  crossing (replicate n (Some k)) (cross path (Some k)) = cross path (Some k)
  /\ (k <> [] -> endsWith (cross path (Some k)) k = true)
  /\ path `prefix_of` cross path (Some k).
Proof.
  split; [|split].
  - induction n as [|n IH]; [done|].
    change (crossing (replicate (S n) (Some k)) (cross path (Some k)))
      with (crossing (replicate n (Some k)) (cross (cross path (Some k)) (Some k))).
    rewrite cross_again. exact IH.
  - apply cross_ends.
  - unfold cross. destruct (truthy k && negb (endsWith path k)); [|done].
    by apply prefix_app_r.
Qed.

(** X7.  During a trace the crossing string only grows, by whole key
    identifiers, in the order the keys were crossed: after any run of
    touch-move samples it is the string before them followed by some of
    the identifiers the samples reported, in their order. *)
Theorem crossing_string_grows_by_keys
    (props : Props) (samples : list Touch) (r : Refs) (m : Mem)
    (Htrace : traceTyping (settings props) = true)
    (Hedit : isButtonEditMode props = false)
    (Hstart : is_Some (touchStart r))
    (Hpool : pool_ok (pointPool m)) :
  exists r' m' kept,
    trace_moves props samples r m = Normal (r', m')
    /\ sublist kept (keys_crossed samples)
    /\ swipePath r' = swipePath r ++ concat kept
    /\ touchStart r' = touchStart r.
Proof.
  destruct (trace_moves_crossing props samples r m Htrace Hedit Hstart Hpool)
    as (r' & m' & Hrun & Hpath & Hst & _).
  destruct (crossing_kept samples (swipePath r)) as (kept & Hsub & Hcross).
  exists r', m', kept. split; [exact Hrun|]. split; [exact Hsub|].
  split; [congruence | exact Hst].
Qed.

Lemma crossing_string_grows_by_keys_witness :
  let props := app_props (mkSettings EN true false false) false false in
  let r := {| touchStart := Some (0, 0)%Z; swipePath := js "h";
              tracePoints := []; initialPinchDistance := None;
              canvasRef := true; containerRef := true |} in
  let samples := [mkTouch 1 1 (Some (js "h")); mkTouch 2 2 None;
                  mkTouch 3 3 (Some (js "i"))] in
  traceTyping (settings props) = true
  /\ isButtonEditMode props = false
  /\ is_Some (touchStart r)
  /\ pool_ok (pointPool initial_Mem)
  /\ exists r' m', trace_moves props samples r initial_Mem = Normal (r', m').
Proof.
  intros props r samples.
  assert (Hstart : is_Some (touchStart r)) by (by eexists).
  assert (Hpool : pool_ok (pointPool initial_Mem)).
  { repeat split; simpl; [lia | constructor]. }
  split; [reflexivity|]. split; [reflexivity|]. split; [exact Hstart|].
  split; [exact Hpool|].
  destruct (crossing_string_grows_by_keys props samples r initial_Mem
              eq_refl eq_refl Hstart Hpool) as (r' & m' & kept & Hrun & _).
  by exists r', m'.
Defined.

(** X8.  While tracing is blocked (trace typing off, button-edit mode or
    resize mode), an idle tracker stays idle: any sequence of touch events
    with blocked props fires no swipe or trace callback (at most
    animation-frame requests of a pinch), leaves the pool and the heap
    untouched, starts no trace and records no crossing. *)
Theorem blocked_tracker_stays_idle (evs : list ui_event) (r0 : Refs) (m0 : Mem)
    (Hidle : touchStart r0 = None)
    (Hblocked : Forall touch_blocked evs) :
  exists calls r,
    ui_run evs r0 m0 = Normal (calls, r, m0)
    /\ touchStart r = None
    /\ swipePath r = swipePath r0
    /\ tracePoints r = tracePoints r0
    /\ Forall (fun c => c = CallRequestAnimationFrame) calls.
Proof.
  revert r0 Hidle. induction Hblocked as [|ev evs Hev _ IH]; intros r0 Hidle.
  - exists [], r0. by repeat split.
  - destruct (ui_step_blocked ev r0 m0 Hev Hidle)
      as (c1 & r1 & Hstep & Hidle1 & Hpath1 & Hpts1 & Hc1).
    destruct (IH r1 Hidle1) as (c2 & r2 & Hrun & Hidle2 & Hpath2 & Hpts2 & Hc2).
    cbn [ui_run]. rewrite Hstep. cbn. rewrite Hrun. cbn.
    exists (c1 ++ c2), r2. split; [done|]. split; [done|].
    split; [congruence|]. split; [congruence|]. by apply Forall_app.
Qed.

Lemma blocked_tracker_stays_idle_witness :
  let props := app_props (mkSettings EN true false false) false true in
  let evs := [TouchStart props (one_finger (mkTouch 10 10 (Some (js "a"))));
              TouchMove props (one_finger (mkTouch 90 10 (Some (js "b"))));
              TouchEnd props (one_finger (mkTouch 90 10 None))] in
  touchStart initial_Refs = None
  /\ Forall touch_blocked evs
  /\ exists calls r,
       ui_run evs initial_Refs initial_Mem = Normal (calls, r, initial_Mem).
Proof.
  intros props evs.
  assert (Hblocked : Forall touch_blocked evs) by (repeat constructor).
  split; [reflexivity|]. split; [exact Hblocked|].
  destruct (blocked_tracker_stays_idle evs initial_Refs initial_Mem eq_refl Hblocked)
    as (calls & r & Hrun & _).
  by exists calls, r.
Defined.

(** X9.  A release ends the trace.  With trace typing on and a touch
    start recorded, [handleTouchEnd] fires at most one callback, hands the
    points of the path to [recycle] and leaves the tracker idle: no start
    point, an empty crossing string and an empty path.  Until the next
    touch-start, touch-move and touch-end events change nothing and fire
    nothing. *)
Theorem release_leaves_tracker_idle
    (props : Props) (e : TouchEvent) (r : Refs) (m : Mem)
    (Htrace : traceTyping (settings props) = true)
    (Hstart : is_Some (touchStart r)) :
  let out := handleTouchEnd props e r m in
  length out.1.1 <= 1
  /\ touchStart out.1.2 = None
  /\ swipePath out.1.2 = []
  /\ tracePoints out.1.2 = []
  /\ out.2 = recycle_mem (tracePoints r) m
  /\ (forall props' e',
        handleTouchMove props' e' out.1.2 out.2 = Normal ([], out.1.2, out.2))
  /\ (forall props' e',
        handleTouchEnd props' e' out.1.2 out.2 = ([], out.1.2, out.2)).
Proof.
  destruct Hstart as ([sx sy] & Hstart). unfold handleTouchEnd at 1.
  rewrite Hstart, Htrace. cbv zeta. cbn [fst snd].
  split.
  { unfold classify.
    repeat match goal with |- context [if ?b then _ else _] => destruct b end;
      simpl; lia. }
  split; [done|]. split; [done|]. split; [done|]. split; [done|].
  split; intros props' e'.
  - unfold handleTouchMove. cbn [initialPinchDistance touchStart].
    rewrite !bool_decide_eq_false_2 by (by intros [? ?]).
    by rewrite !andb_false_r.
  - reflexivity.
Qed.

Lemma release_leaves_tracker_idle_witness :
  let props := app_props (mkSettings EN true false false) false false in
  let r := {| touchStart := Some (100, 100)%Z; swipePath := js "helo";
              tracePoints := [0; 1]; initialPinchDistance := None;
              canvasRef := true; containerRef := true |} in
  let e := one_finger (mkTouch 105 102 None) in
  traceTyping (settings props) = true
  /\ is_Some (touchStart r)
  /\ tracePoints (handleTouchEnd props e r initial_Mem).1.2 = [].
Proof.
  intros props r e.
  assert (Hstart : is_Some (touchStart r)) by (by eexists).
  split; [reflexivity|]. split; [exact Hstart|].
  pose proof (release_leaves_tracker_idle props e r initial_Mem eq_refl Hstart) as H.
  cbv zeta in H. by destruct H as (_ & _ & _ & Hpts & _).
Defined.

(** ** The text buffer *)

Section Buffer.

Lemma trimStart_split (s : jsstring) :
  exists ws,
    s = ws ++ trimStart s /\ Forall (fun c => is_white_space c = true) ws.
Proof.
  induction s as [|c s (ws & Hs & Hws)]; [by exists []|].
  cbn [trimStart]. destruct (is_white_space c) eqn:Hc; [|by exists []].
  exists (c :: ws). split; [by rewrite Hs at 1 | by constructor].
Qed.

Lemma trimStart_head (s : jsstring) (c : N) (rest : jsstring) :
  trimStart s = c :: rest -> is_white_space c = false.
Proof.
  induction s as [|d s IH]; [done|]. cbn [trimStart].
  destruct (is_white_space d) eqn:Hd; [exact IH|]. by intros [= <- _].
Qed.

Lemma trimEnd_split (buf : jsstring) :
  exists ws,
    buf = trimEnd buf ++ ws /\ Forall (fun c => is_white_space c = true) ws.
Proof.
  destruct (trimStart_split (rev buf)) as (ws & Hs & Hws).
  exists (rev ws). split; [|by apply Forall_rev].
  unfold trimEnd. rewrite <- rev_app_distr, <- Hs. by rewrite rev_involutive.
Qed.

Lemma trimEnd_last (buf : jsstring) (c : N) :
  last (trimEnd buf) = Some c -> is_white_space c = false.
Proof.
  intros Hlast. apply last_Some in Hlast as (front & Hfront).
  unfold trimEnd in Hfront. apply (f_equal (@rev N)) in Hfront.
  rewrite rev_involutive, rev_unit in Hfront.
  by apply trimStart_head in Hfront.
Qed.

Lemma trimEnd_app_white (buf ws : jsstring) :
  Forall (fun c => is_white_space c = true) ws ->
  trimEnd (buf ++ ws) = trimEnd buf.
Proof.
  intros Hws. unfold trimEnd.
  by rewrite rev_app_distr, trimStart_white by by apply Forall_rev.
Qed.

(** The two outcomes of [handleSwipeLeft]. *)
Lemma handleSwipeLeft_cases (buf : jsstring) :
  ((SPACE ∉ trimEnd buf) /\ handleSwipeLeft buf = [])
  \/ (exists kept c tail,
        trimEnd buf = kept ++ SPACE :: tail ++ [c]
        /\ is_white_space c = false
        /\ handleSwipeLeft buf = kept ++ [SPACE]).
Proof.
  destruct (decide (SPACE ∈ trimEnd buf)) as [Hin|Hout].
  - right. apply list_elem_of_split_r in Hin as (kept & tail & Htrim & Htail).
    destruct tail as [|c tail _] using rev_ind.
    + assert (Hlast : last (trimEnd buf) = Some SPACE)
        by (by rewrite Htrim, last_snoc).
      by apply trimEnd_last in Hlast.
    + exists kept, c, tail. split; [exact Htrim|]. split.
      * apply (trimEnd_last buf). rewrite Htrim.
        replace (kept ++ SPACE :: tail ++ [c]) with ((kept ++ SPACE :: tail) ++ [c])
          by (by rewrite <- app_assoc).
        apply last_snoc.
      * by apply (handleSwipeLeft_last_space buf kept (tail ++ [c])).
  - left. split; [exact Hout | by apply handleSwipeLeft_no_space].
Qed.

Lemma handleSwipeLeft_shorter (buf : jsstring) :
  handleSwipeLeft buf `prefix_of` buf
  /\ (buf <> [] -> length (handleSwipeLeft buf) < length buf).
Proof.
  destruct (trimEnd_split buf) as (ws & Hbuf & _).
  destruct (handleSwipeLeft_cases buf)
    as [(_ & ->)|(kept & c & tail & Htrim & _ & ->)].
  - split; [apply prefix_nil|]. destruct buf; [done | simpl; lia].
  - rewrite Htrim in Hbuf. clear Htrim. subst buf. split.
    + exists (tail ++ [c] ++ ws). by list_simplifier.
    + intros _. repeat (rewrite length_app || cbn [length]). lia.
Qed.

Lemma handleSwipeLeft_iter (n : nat) (buf : jsstring) :
  length buf <= n -> Nat.iter n handleSwipeLeft buf = [].
Proof.
  revert buf. induction n as [|n IH]; intros buf Hlen.
  - destruct buf; [done | simpl in Hlen; lia].
  - rewrite Nat.iter_succ_r. apply IH.
    destruct (decide (buf = [])) as [->|Hne]; [simpl; lia|].
    pose proof (proj2 (handleSwipeLeft_shorter buf) Hne). lia.
Qed.

Lemma slice_drop_last (prev : jsstring) (c : N) : slice (prev ++ [c]) 0 (-1) = prev.
Proof.
  unfold slice. rewrite length_app. cbn [length].
  change (0 <? 0)%Z with false. change (-1 <? 0)%Z with true. cbv iota.
  rewrite Z.min_l, Z.max_l by lia.
  change (Z.to_nat 0) with 0. rewrite drop_0, Nat.sub_0_r.
  replace (Z.to_nat (Z.of_nat (length prev + 1) + -1)) with (length prev) by lia.
  by rewrite take_app_length.
Qed.

End Buffer.

(** X10.  Swipe-left only ever shortens the buffer: what it leaves is a
    prefix of the buffer, strictly shorter unless the buffer was empty,
    and is empty or ends with a space; so swiping left as many times as
    the buffer has characters always empties it. *)
Theorem swipe_left_shortens (buf : jsstring) :
  handleSwipeLeft buf `prefix_of` buf
  /\ (buf <> [] -> length (handleSwipeLeft buf) < length buf)
  /\ (handleSwipeLeft buf = [] \/ last (handleSwipeLeft buf) = Some SPACE)
  /\ Nat.iter (length buf) handleSwipeLeft buf = [].
Proof.
  destruct (handleSwipeLeft_shorter buf) as (Hprefix & Hshort).
  split; [exact Hprefix|]. split; [exact Hshort|]. split.
  - destruct (handleSwipeLeft_cases buf) as [(_ & ->)|(kept & c & tail & _ & _ & ->)];
      [by left | right; by rewrite last_snoc].
  - by apply handleSwipeLeft_iter.
Qed.

(** X11.  White space at the end of the buffer does not matter to
    swipe-left: the buffer with any white space appended gives the same
    result.  In particular a swipe-right followed by a swipe-left is a
    swipe-left. *)
Theorem swipe_left_ignores_trailing_white (buf ws : jsstring)
    (Hwhite : Forall (fun c => is_white_space c = true) ws) :
  handleSwipeLeft (buf ++ ws) = handleSwipeLeft buf
  /\ handleSwipeLeft (handleSwipeRight buf) = handleSwipeLeft buf.
Proof.
  assert (Hgen : forall ws', Forall (fun c => is_white_space c = true) ws' ->
                             handleSwipeLeft (buf ++ ws') = handleSwipeLeft buf).
  { intros ws' Hws'. unfold handleSwipeLeft. by rewrite trimEnd_app_white. }
  split; [by apply Hgen|]. apply Hgen. by repeat constructor.
Qed.

Lemma swipe_left_ignores_trailing_white_witness :
  Forall (fun c => is_white_space c = true) [LF; SPACE]
  /\ handleSwipeLeft (js "one two" ++ [LF; SPACE]) = js "one ".
Proof.
  assert (Hwhite : Forall (fun c => is_white_space c = true) [LF; SPACE])
    by (repeat constructor).
  split; [exact Hwhite|].
  exact (proj1 (swipe_left_ignores_trailing_white (js "one two") [LF; SPACE] Hwhite)).
Defined.

(** X12.  Backspace removes one UTF-16 code unit.  It undoes the press of
    a key whose identifier is a single code unit; after the press of a key
    of two code units (an emoji) one backspace leaves the first unit in
    the buffer; on an empty buffer it does nothing. *)
Theorem delete_removes_one_unit (env : Env) (auto : AutoSizeManager)
    (prev : jsstring) (c hi lo : N) :
  handleDelete (prev ++ [c]) = prev
  /\ handleDelete (handleKeyPress env [c] auto prev).2 = prev
  /\ handleDelete (handleKeyPress env [hi; lo] auto prev).2 = prev ++ [hi]
  /\ handleDelete [] = [].
Proof.
  unfold handleDelete, handleKeyPress. cbn [snd].
  split; [apply slice_drop_last|]. split; [apply slice_drop_last|].
  split; [|reflexivity].
  change [hi; lo] with ([hi] ++ [lo]). rewrite app_assoc. apply slice_drop_last.
Qed.

(** X13.  Swipe-left undoes a traced word.  After the trace-end handler
    has appended a word (non-empty, without a space, not ending in white
    space), swipe-left gives back the buffer as it was before, with the
    separating space if one had to be inserted: nothing for an empty
    buffer, the buffer itself if it ended with a space, and the buffer
    followed by a space otherwise. *)
Theorem swipe_left_undoes_traced_word
    (s : KeyboardSettings) (word front prev : jsstring) (c : N)
    (Hword : word = front ++ [c])
    (Hspace : SPACE ∉ word)
    (Hlast : is_white_space c = false) :
  handleSwipeLeft (buffer (append_word s word prev))
  = if decide (prev = []) then []
    else if decide (last prev = Some SPACE) then prev
    else prev ++ [SPACE].
Proof.
  rewrite append_word_buffer by by apply startsWith_unit_notin.
  assert (Hwhite : Forall (fun d => is_white_space d = true) [SPACE])
    by (by repeat constructor).
  assert (Htrim : forall body,
             trimEnd (body ++ word ++ [SPACE]) = body ++ word).
  { intros body. rewrite Hword, !app_assoc. by apply trimEnd_white. }
  destruct (decide (prev = [])) as [->|Hne].
  - rewrite bool_decide_eq_false_2 by tauto. cbn [app].
    apply handleSwipeLeft_no_space.
    change (word ++ [SPACE]) with ([] ++ word ++ [SPACE]). by rewrite Htrim.
  - destruct (decide (last prev = Some SPACE)) as [Hsp|Hnsp].
    + rewrite bool_decide_eq_false_2 by tauto. cbn [app].
      apply last_Some in Hsp as (kept & ->).
      apply (handleSwipeLeft_last_space _ kept word); [|done].
      rewrite Htrim. by rewrite <- app_assoc.
    + rewrite bool_decide_eq_true_2 by done.
      apply (handleSwipeLeft_last_space _ prev word); [|done].
      rewrite (app_assoc prev). rewrite Htrim. by rewrite <- app_assoc.
Qed.

Lemma swipe_left_undoes_traced_word_witness :
  let s := mkSettings EN true false false in
  js "hello" = js "hell" ++ [111%N]
  /\ (SPACE ∉ js "hello")
  /\ is_white_space 111 = false
  /\ handleSwipeLeft (buffer (append_word s (js "hello") (js "say"))) = js "say ".
Proof.
  intros s.
  assert (Hspace : SPACE ∉ js "hello").
  { intros Hin. by repeat (apply elem_of_cons in Hin as [Hin|Hin]; [done|]);
      apply elem_of_nil in Hin. }
  split; [reflexivity|]. split; [exact Hspace|]. split; [reflexivity|].
  exact (swipe_left_undoes_traced_word s (js "hello") (js "hell") (js "say") 111
           eq_refl Hspace eq_refl).
Defined.

(** ** The handlers that call the service *)

Section ServiceHandlers.

Lemma trimmed_text_nonempty response fallback :
  fallback <> [] -> trimmed_text response fallback <> [].
Proof.
  intros Hf. unfold trimmed_text. destruct (Gemini.text response) as [t|]; [|done].
  cbn. by destruct (trim t).
Qed.

Lemma ask_or_rethrow_cases ai request fallback :
  (exists response,
      ask_or_rethrow ai request fallback
      = {| asked := [request]; complaints := 0;
           outcome := Normal (trimmed_text response fallback) |})
  \/ (exists e,
        ask_or_rethrow ai request fallback
        = {| asked := [request]; complaints := 1; outcome := Throw e |}).
Proof.
  unfold ask_or_rethrow. destruct (ai request) as [response|e];
    [left; by exists response | right; by exists e].
Qed.

Lemma fixGrammar_cases genAI txt : rewrite_cases genAI txt (fixGrammar genAI txt).
Proof.
  unfold fixGrammar, rewrite_cases. destruct genAI as [ai|]; [|left; by auto].
  destruct (trim txt) as [|c u] eqn:Htrim; cbn [truthy negb]; [left; by auto|].
  right.
  destruct (ask_or_rethrow_cases ai
              {| model := MODEL_NAME; contents := fixGrammar_prompt txt |} txt)
    as [(response & ->)|(e & ->)]; [left | right]; by eexists _, _.
Qed.

Lemma changeTone_cases genAI txt tone :
  rewrite_cases genAI txt (changeTone genAI txt tone).
Proof.
  unfold changeTone, rewrite_cases. destruct genAI as [ai|]; [|left; by auto].
  destruct (trim txt) as [|c u] eqn:Htrim; cbn [truthy negb]; [left; by auto|].
  right.
  destruct (ask_or_rethrow_cases ai
              {| model := MODEL_NAME; contents := changeTone_prompt txt tone |} txt)
    as [(response & ->)|(e & ->)]; [left | right]; by eexists _, _.
Qed.

Lemma answered_calls_no_loading a b : SetIsLoading b ∉ answered_calls a.
Proof.
  unfold answered_calls. rewrite not_elem_of_app. split.
  - rewrite list_elem_of_fmap. by intros (? & ? & _).
  - intros Hin. by apply elem_of_replicate in Hin as [? _].
Qed.

Lemma with_loading_balanced a prev update :
  loading_balanced (log (with_loading a prev update)).
Proof.
  right. unfold with_loading. destruct (outcome a) as [v|e]; cbn [log].
  - exists (answered_calls a). split; [done|]. apply answered_calls_no_loading.
  - exists (answered_calls a ++ [ConsoleError]).
    split; [by rewrite <- app_assoc|].
    intros b. rewrite not_elem_of_app, list_elem_of_singleton.
    split; [apply answered_calls_no_loading | done].
Qed.

Lemma with_loading_error a prev update :
  ConsoleError ∈ log (with_loading a prev update) ->
  (exists e, outcome a = Throw e) \/ 0 < complaints a.
Proof.
  unfold with_loading. destruct (outcome a) as [v|e]; [|left; by exists e].
  cbn [log]. rewrite elem_of_cons, elem_of_app, list_elem_of_singleton.
  intros [?|[Hin|?]]; try done. right.
  unfold answered_calls in Hin. apply elem_of_app in Hin as [Hin|Hin].
  - by apply list_elem_of_fmap in Hin as (? & ? & _).
  - destruct (complaints a); [by apply elem_of_nil in Hin | lia].
Qed.

Lemma with_loading_requests a prev update request :
  GenerateContent request ∈ log (with_loading a prev update) -> request ∈ asked a.
Proof.
  assert (Hcalls : GenerateContent request ∈ answered_calls a -> request ∈ asked a).
  { unfold answered_calls. rewrite elem_of_app, list_elem_of_fmap.
    intros [(r & [= ->] & Hr)|Hin]; [done|].
    by apply elem_of_replicate in Hin as [? _]. }
  unfold with_loading. destruct (outcome a) as [v|e]; cbn [log];
    rewrite elem_of_cons, elem_of_app, ?elem_of_cons, ?elem_of_nil;
    intros [?|[?|?]]; try done; try (by apply Hcalls); naive_solver.
Qed.

Lemma rewrite_handler_facts genAI txt prev a :
  rewrite_cases genAI txt a -> txt <> [] ->
  let run := with_loading a prev (fun v => v) in
  (buffer run = prev \/ buffer run <> [])
  /\ (ConsoleError ∈ log run -> buffer run = prev)
  /\ (genAI = None \/ trim txt = [] -> buffer run = txt)
  /\ (forall request, GenerateContent request ∈ log run ->
                      genAI <> None /\ trim txt <> []).
Proof.
  intros Hcases Htxt run. subst run.
  destruct Hcases as [(Hasked & Hc & Hout & Hwhy)
                     |[(rq & rs & Hai & Htrim & Hasked & Hc & Hout)
                      |(rq & e & Hai & Htrim & Hasked & Hc & Hout)]].
  - split; [|split; [|split]].
    + right. unfold with_loading. by rewrite Hout.
    + intros Herr. apply with_loading_error in Herr as [(e & He)|Hpos];
        [congruence | lia].
    + intros _. unfold with_loading. by rewrite Hout.
    + intros request Hin. apply with_loading_requests in Hin.
      rewrite Hasked in Hin. by apply elem_of_nil in Hin.
  - split; [|split; [|split]].
    + right. unfold with_loading. rewrite Hout. cbn [buffer].
      by apply trimmed_text_nonempty.
    + intros Herr. apply with_loading_error in Herr as [(e & He)|Hpos];
        [congruence | lia].
    + intros [?|?]; done.
    + done.
  - split; [|split; [|split]].
    + left. unfold with_loading. by rewrite Hout.
    + intros _. unfold with_loading. by rewrite Hout.
    + intros [?|?]; done.
    + done.
Qed.

End ServiceHandlers.

(** X14.  The loading indicator is always cleared.  Whatever the model
    does, each handler that calls the service (trace end, smart
    completion, grammar fix, tone change) either does nothing or calls
    [setIsLoading(true)] first and [setIsLoading(false)] last, with no
    other call of [setIsLoading] between them. *)
Theorem loading_indicator_is_cleared
    (genAI : option Client) (s : KeyboardSettings) (tone : ToneType)
    (text path prev : jsstring) :
  loading_balanced (log (handleTraceEnd genAI s text path prev))
  /\ loading_balanced (log (handleSmartComplete genAI text prev))
  /\ loading_balanced (log (handleFixGrammar genAI text prev))
  /\ loading_balanced (log (handleChangeTone genAI tone text prev)).
Proof.
  split; [|split; [|split]].
  - destruct (decide (path = [])) as [->|Hpath]; [by left|]. right.
    destruct (decipherSwipe_settles genAI path (trace_context s text)
                (language_code (language s))) as (w & Hw).
    rewrite (handleTraceEnd_resolved _ _ _ _ _ _ Hpath Hw). cbn [log].
    exists (DecipherSwipe path (trace_context s text) (language_code (language s))
            :: map GenerateContent
                 (requests (decipherSwipe genAI path (trace_context s text)
                              (language_code (language s))))
            ++ (if truthy w then log (append_word s w prev) else [])).
    split; [cbn [app]; by rewrite <- app_assoc|].
    intros b. rewrite not_elem_of_cons, !not_elem_of_app, list_elem_of_fmap.
    split; [done|]. split; [by intros (? & ? & _)|].
    destruct (truthy w); [|apply not_elem_of_nil].
    unfold append_word. cbn [log].
    destruct (negb _ && negb _); [|apply not_elem_of_nil].
    by rewrite list_elem_of_singleton.
  - unfold handleSmartComplete.
    destruct (truthy text); cbn [negb]; [apply with_loading_balanced | by left].
  - unfold handleFixGrammar.
    destruct (truthy text); cbn [negb]; [apply with_loading_balanced | by left].
  - unfold handleChangeTone.
    destruct (truthy text); cbn [negb]; [apply with_loading_balanced | by left].
Qed.

(** X15.  Grammar fix and tone change never blank the buffer and never
    lose it on failure.  The buffer they leave is the old buffer or a
    non-empty text; when an error is logged the buffer is the old one;
    without a configured client, or for a text of white space only, no
    request is sent and the buffer is set to the text the handler was
    called with. *)
Theorem rewrite_handlers_keep_text
    (genAI : option Client) (tone : ToneType) (text prev : jsstring) (run : Ran)
    (Hrun : run = handleFixGrammar genAI text prev
            \/ run = handleChangeTone genAI tone text prev) :
  (buffer run = prev \/ buffer run <> [])
  /\ (ConsoleError ∈ log run -> buffer run = prev)
  /\ (text <> [] -> genAI = None \/ trim text = [] -> buffer run = text)
  /\ (forall request, GenerateContent request ∈ log run ->
                      genAI <> None /\ trim text <> []).
Proof.
  destruct (decide (text = [])) as [->|Htext].
  - assert (run = {| log := []; buffer := prev |}) as -> by (by destruct Hrun).
    cbn [log buffer]. split; [by left|]. split; [done|]. split; [done|].
    intros request Hin. by apply elem_of_nil in Hin.
  - assert (Hshape : exists a, rewrite_cases genAI text a
                               /\ run = with_loading a prev (fun v => v)).
    { destruct Hrun as [-> | ->].
      - exists (fixGrammar genAI text). split; [apply fixGrammar_cases|].
        unfold handleFixGrammar. by destruct text.
      - exists (changeTone genAI text tone). split; [apply changeTone_cases|].
        unfold handleChangeTone. by destruct text. }
    destruct Hshape as (a & Hcases & ->).
    destruct (rewrite_handler_facts genAI text prev a Hcases Htext)
      as (H1 & H2 & H3 & H4).
    split; [exact H1|]. split; [exact H2|]. split; [by intros _|exact H4].
Qed.

Lemma rewrite_handlers_keep_text_witness :
  let ai : Client := fun _ => Throw ApiError in
  let run := handleFixGrammar (Some ai) (js "helo wrld") (js "helo wrld") in
  (run = handleFixGrammar (Some ai) (js "helo wrld") (js "helo wrld")
   \/ run = handleChangeTone (Some ai) CASUAL (js "helo wrld") (js "helo wrld"))
  /\ (buffer run = js "helo wrld" \/ buffer run <> []).
Proof.
  intros ai run.
  assert (Hrun : run = handleFixGrammar (Some ai) (js "helo wrld") (js "helo wrld")
                 \/ run = handleChangeTone (Some ai) CASUAL (js "helo wrld")
                            (js "helo wrld")) by (by left).
  split; [exact Hrun|].
  exact (proj1 (rewrite_handlers_keep_text (Some ai) CASUAL (js "helo wrld")
                  (js "helo wrld") run Hrun)).
Defined.

(** X16.  Smart completion only appends.  The buffer it leaves is the old
    buffer, or the old buffer followed by one space (none if the buffer
    already ends with a space) and the non-empty, trimmed completion; when
    an error is logged, or no client is configured, the buffer is the old
    one. *)
Theorem smart_complete_only_appends
    (genAI : option Client) (text prev : jsstring) :
  let run := handleSmartComplete genAI text prev in
  (buffer run = prev
   \/ exists completion,
        completion <> []
        /\ buffer run
           = prev ++ (if bool_decide (last prev = Some SPACE) then [] else [SPACE])
             ++ completion)
  /\ prev `prefix_of` buffer run
  /\ (ConsoleError ∈ log run -> buffer run = prev)
  /\ (genAI = None -> buffer run = prev /\ forall request,
                                            GenerateContent request ∉ log run).
Proof.
  intros run. subst run. unfold handleSmartComplete.
  destruct (truthy text); cbn [negb].
  2:{ cbn [log buffer]. split; [by left|]. split; [done|]. split; [done|].
      intros _. split; [done|]. intros request. apply not_elem_of_nil. }
  unfold completeText. destruct genAI as [ai|].
  2:{ cbn. split; [by left|]. split; [done|].
      split; [|intros _; split; [done|]].
      - rewrite !elem_of_cons, elem_of_nil. naive_solver.
      - intros request. rewrite !elem_of_cons, elem_of_nil. naive_solver. }
  destruct (negb (truthy (trim text))).
  { cbn. split; [by left|]. split; [done|]. split; [|done].
    rewrite !elem_of_cons, elem_of_nil. naive_solver. }
  unfold ask_or_rethrow. destruct (ai _) as [response|e].
  - unfold with_loading. cbn [outcome buffer log].
    destruct (trimmed_text response []) as [|c u] eqn:Hc; cbn [truthy].
    + split; [by left|]. split; [done|]. split; [|done].
      unfold answered_calls. cbn. rewrite !elem_of_cons, elem_of_nil. naive_solver.
    + rewrite endsWith_unit. split; [right; by exists (c :: u)|].
      split; [by eexists|]. split; [|done].
      unfold answered_calls. cbn. rewrite !elem_of_cons, elem_of_nil. naive_solver.
  - unfold with_loading. cbn [outcome buffer log].
    split; [by left|]. split; [done|]. by split.
Qed.

(** ** Language detection *)

Section Detect.

Lemma slice_front_length (s : jsstring) (n : nat) :
  length (slice s 0 (Z.of_nat n)) <= n.
Proof.
  unfold slice. change (0 <? 0)%Z with false.
  destruct (Z.ltb_spec (Z.of_nat n) 0); [lia|]. cbv iota.
  rewrite length_take. lia.
Qed.

End Detect.

(** X17.  Language detection never fails and never answers at length:
    whatever the model does, and whatever the lower-casing of the platform
    is, [detectLanguage] resolves, without a console message and after at
    most one request, with "unknown" or with a code of one or two code
    units. *)
Theorem detect_language_is_short
    (toLowerCase : jsstring -> jsstring) (genAI : option Client) (txt : jsstring) :
  let a := detectLanguage toLowerCase genAI txt in
  exists code,
    outcome a = Normal code
    /\ (code = js "unknown" \/ 1 <= length code <= 2)
    /\ complaints a = 0
    /\ length (asked a) <= 1
    /\ (genAI = None \/ trim txt = [] -> code = js "unknown" /\ asked a = []).
Proof.
  intros a. subst a. unfold detectLanguage.
  destruct genAI as [ai|].
  2:{ exists (js "unknown"). cbn [outcome complaints asked length].
      split; [done|]. split; [by left|]. split; [done|]. split; [lia|done]. }
  destruct (trim txt) as [|c u] eqn:Htrim; cbn [truthy negb].
  { exists (js "unknown"). cbn [outcome complaints asked length].
    split; [done|]. split; [by left|]. split; [done|]. split; [lia|done]. }
  cbn [outcome complaints asked length].
  assert (Hunknown : forall o,
             o = Normal (js "unknown") ->
             exists code,
               o = Normal code
               /\ (code = js "unknown" \/ 1 <= length code <= 2)
               /\ 0 = 0 /\ 1 <= 1
               /\ (Some ai = None \/ c :: u = [] ->
                   code = js "unknown"
                   /\ [{| model := MODEL_NAME;
                          contents := detectLanguage_prompt txt |}] = [])).
  { intros o ->. exists (js "unknown"). split; [done|]. split; [by left|].
    split; [done|]. split; [lia|]. by intros [?|?]. }
  destruct (ai _) as [response|e];
    cbn [mbind completion_bind try_catch mret completion_ret];
    [|by apply Hunknown].
  destruct (Gemini.text response) as [t|]; cbn [mbind option_bind or_else];
    [|by apply Hunknown].
  pose proof (slice_front_length (toLowerCase (trim t)) 2) as Hlen.
  change (Z.of_nat 2) with 2%Z in Hlen.
  destruct (slice (toLowerCase (trim t)) 0 2) as [|d v] eqn:Hslice; cbn [truthy];
    [by apply Hunknown|].
  exists (d :: v). split; [done|]. split; [right; simpl in *; lia|].
  split; [done|]. split; [lia|]. by intros [?|?].
Qed.

(** ** The translation cache *)

Section Cache.

Lemma lookup_key_eqb_true s t o e :
  lookup_key_eqb s t o e = true <-> s = source e /\ t = target e /\ o = original e.
Proof.
  unfold lookup_key_eqb. rewrite !andb_true_iff, !eqb_units_eq, !bool_decide_eq_true.
  tauto.
Qed.

Lemma find_snoc {A} (f : A -> bool) (l : list A) (x : A) :
  find f (l ++ [x]) = match find f l with
                      | Some y => Some y
                      | None => if f x then Some x else None
                      end.
Proof.
  induction l as [|a l IH]; cbn [app find]; [done|]. by destruct (f a).
Qed.

(** What a look-up finds after [store.add]. *)
Lemma index_get_store_add s t o tr now d s' t' o' :
  index_get s' t' o' (store_add s t o tr now d)
  = match index_get s' t' o' d with
    | Some e => Some e
    | None =>
        if bool_decide (s' = s /\ t' = t /\ o' = o)
        then Some {| id := nextId d; source := s; target := t; original := o;
                     translated := tr; timestamp := now |}
        else None
    end.
Proof.
  unfold store_add.
  destruct (index_get s t o d) as [e|] eqn:Hget.
  - destruct (index_get s' t' o' d) as [e'|] eqn:Hget'; [done|].
    rewrite bool_decide_eq_false_2; [done|].
    intros (-> & -> & ->). congruence.
  - unfold index_get at 1. cbn [translations]. rewrite find_snoc.
    fold (index_get s' t' o' d).
    destruct (index_get s' t' o' d) as [e'|]; [done|].
    destruct (lookup_key_eqb s' t' o' _) eqn:Hkey.
    + apply lookup_key_eqb_true in Hkey. cbn in Hkey.
      by rewrite bool_decide_eq_true_2.
    + rewrite bool_decide_eq_false_2; [done|]. intros Heq.
      assert (lookup_key_eqb s' t' o'
                {| id := nextId d; source := s; target := t; original := o;
                   translated := tr; timestamp := now |} = true)
        by (by apply lookup_key_eqb_true).
      congruence.
Qed.

Lemma getCachedTranslation_after db orig tr src tgt now o s t :
  getCachedTranslation (cacheTranslation db orig tr src tgt now) o s t
  = match db with
    | None => None
    | Some _ =>
        match getCachedTranslation db o s t with
        | Some hit => Some hit
        | None =>
            if bool_decide (s = src /\ t = tgt /\ trim o = trim orig)
            then Some tr else None
        end
    end.
Proof.
  destruct db as [d|]; [|done].
  unfold getCachedTranslation, cacheTranslation.
  cbn [mbind option_bind]. rewrite index_get_store_add.
  destruct (index_get s t (trim o) d) as [e|]; [done|].
  by case_bool_decide.
Qed.

End Cache.

(** X18.  The translation cache returns what was cached, whatever white
    space surrounds the text, and the first translation cached for a text
    wins: after [cacheTranslation], a look-up of the same language pair and
    the same text up to surrounding white space finds the translation that
    was there before, or else the new one; every other look-up is as
    before; the store grows by one record exactly when the text was not
    cached; and after [clearTranslationCache] nothing is found. *)
Theorem cache_round_trip
    (d : Database) (orig orig' tr src tgt : jsstring) (now : Z)
    (Htrim : trim orig' = trim orig) :
  let db' := cacheTranslation (Some d) orig tr src tgt now in
  getCachedTranslation db' orig' src tgt
  = Some (default tr (getCachedTranslation (Some d) orig src tgt))
  /\ (forall o s t,
        ~ (s = src /\ t = tgt /\ trim o = trim orig) ->
        getCachedTranslation db' o s t = getCachedTranslation (Some d) o s t)
  /\ getTranslationCacheSize db'
     = getTranslationCacheSize (Some d)
       + match getCachedTranslation (Some d) orig src tgt with
         | Some _ => 0
         | None => 1
         end
  /\ (forall o s t, getCachedTranslation (clearTranslationCache db') o s t = None).
Proof.
  intros db'. subst db'. split; [|split; [|split]].
  - rewrite getCachedTranslation_after.
    assert (Hsame : getCachedTranslation (Some d) orig' src tgt
                    = getCachedTranslation (Some d) orig src tgt).
    { unfold getCachedTranslation. by rewrite Htrim. }
    rewrite Hsame. destruct (getCachedTranslation (Some d) orig src tgt); [done|].
    by rewrite bool_decide_eq_true_2.
  - intros o s t Hother. rewrite getCachedTranslation_after.
    destruct (getCachedTranslation (Some d) o s t); [done|].
    by rewrite bool_decide_eq_false_2.
  - unfold getCachedTranslation, cacheTranslation, getTranslationCacheSize, store_add.
    cbn [mbind option_bind].
    destruct (index_get src tgt (trim orig) d); cbn [translations];
      [simpl; lia | by rewrite length_app].
  - done.
Qed.

Lemma cache_round_trip_witness :
  trim (js "  good morning ") = trim (js "good morning")
  /\ getCachedTranslation
       (cacheTranslation (Some empty_Database) (js "good morning") (js "bonjour")
          (js "en") (js "fr") 1000)
       (js "  good morning ") (js "en") (js "fr")
     = Some (js "bonjour").
Proof.
  split; [reflexivity|].
  exact (proj1 (cache_round_trip empty_Database (js "good morning")
                  (js "  good morning ") (js "bonjour") (js "en") (js "fr") 1000
                  eq_refl)).
Defined.

(** ** Translation *)

Section Translation.

Lemma nonblank_nonempty (txt : jsstring) : trim txt <> [] -> txt <> [].
Proof. by intros Htrim ->. Qed.

Lemma or_else_nonempty found fallback :
  fallback <> [] -> or_else found fallback <> [].
Proof. intros Hf. destruct found as [[|c u]|]; done. Qed.

Lemma fallbackTranslate_nonempty fetch txt src tgt result :
  txt <> [] -> fallbackTranslate fetch txt src tgt = Normal result -> result <> [].
Proof.
  intros Htxt. unfold fallbackTranslate.
  destruct (fetch _) as [response|e]; [|done]. cbn [mbind completion_bind].
  destruct (ok response); cbn [negb]; [|done].
  destruct (translatedText response) as [found|e]; [|done].
  cbn [mbind completion_bind mret completion_ret]. intros [= <-].
  by apply or_else_nonempty.
Qed.

Lemma truthy_true (s : jsstring) : truthy s = true <-> s <> [].
Proof. by destruct s. Qed.

Lemma truthy_false (s : jsstring) : truthy s = false <-> s = [].
Proof. by destruct s. Qed.

Lemma eqb_units_false (s t : jsstring) : eqb_units s t = false <-> s <> t.
Proof. rewrite eqb_units_eq. apply bool_decide_eq_false. Qed.

Lemma eqb_units_true (s t : jsstring) : eqb_units s t = true <-> s = t.
Proof. rewrite eqb_units_eq. apply bool_decide_eq_true. Qed.

(** [translateText] for a text of white space only. *)
Lemma translateText_blank genAI fetch db now txt src tgt options :
  trim txt = [] ->
  translateText genAI fetch db now txt src tgt options
  = {| to_model := []; to_network := []; logged := []; complained := 0;
       database := db; translation := Normal txt |}.
Proof. intros Htrim. unfold translateText. by rewrite Htrim. Qed.

(** [translateText] when the cache is consulted and holds a translation. *)
Lemma translateText_hit genAI fetch db now txt src tgt options hit :
  trim txt <> [] ->
  useCache options || isOffline options = true ->
  getCachedTranslation db txt (lang_code src) (lang_code tgt) = Some hit ->
  hit <> [] ->
  translateText genAI fetch db now txt src tgt options
  = {| to_model := []; to_network := [];
       logged := [{| source_lang := lang_code src; target_lang := lang_code tgt;
                     text_length := length txt; method := by_cache |}];
       complained := 0; database := db; translation := Normal hit |}.
Proof.
  intros Htrim Hconsult Hget Hhit. unfold translateText.
  apply truthy_true in Htrim, Hhit. rewrite Htrim, Hconsult, Hget.
  cbn [negb andb truthy_opt default]. by rewrite Hhit.
Qed.

(** [translateText] in offline mode without a cached translation. *)
Lemma translateText_offline_miss genAI fetch db now txt src tgt options :
  trim txt <> [] ->
  isOffline options = true ->
  truthy_opt (getCachedTranslation db txt (lang_code src) (lang_code tgt)) = false ->
  translateText genAI fetch db now txt src tgt options
  = {| to_model := []; to_network := [];
       logged := [{| source_lang := lang_code src; target_lang := lang_code tgt;
                     text_length := length txt; method := by_offline |}];
       complained := 0; database := db;
       translation := Normal (txt ++ js " [OFFLINE]") |}.
Proof.
  intros Htrim Hoff Hmiss. unfold translateText.
  apply truthy_true in Htrim. rewrite Htrim, Hoff, orb_true_r, Hmiss.
  by cbn [negb andb].
Qed.

End Translation.

(** X19.  Offline mode stays local.  With [isOffline] set, [translateText]
    sends nothing to the model and nothing to the network, prints no
    warning and leaves the translation store as it is; for a text that is
    not blank it resolves with the cached translation if there is a
    non-empty one, and else with the text followed by " [OFFLINE]". *)
Theorem translate_offline_stays_local
    (genAI : option Client) (fetch : Fetch) (db : option Database) (now : Z)
    (txt : jsstring) (src tgt : SupportedLanguage) (cache : bool) :
  let t := translateText genAI fetch db now txt src tgt
             {| useCache := cache; isOffline := true |} in
  to_model t = [] /\ to_network t = [] /\ complained t = 0 /\ database t = db
  /\ translation t
     = Normal
         (if truthy (trim txt) then
            match getCachedTranslation db txt (lang_code src) (lang_code tgt) with
            | Some hit => if truthy hit then hit else txt ++ js " [OFFLINE]"
            | None => txt ++ js " [OFFLINE]"
            end
          else txt).
Proof.
  intros t. subst t.
  destruct (trim txt) as [|c u] eqn:Htrim.
  - by rewrite translateText_blank.
  - assert (Hnb : trim txt <> []) by (by rewrite Htrim).
    cbn [truthy].
    destruct (getCachedTranslation db txt (lang_code src) (lang_code tgt))
      as [[|d v]|] eqn:Hget.
    + by rewrite translateText_offline_miss by (by rewrite ?Hget).
    + rewrite (translateText_hit _ _ _ _ _ _ _ _ (d :: v)); try done.
      apply orb_true_r.
    + by rewrite translateText_offline_miss by (by rewrite ?Hget).
Qed.

(** X20.  A cached translation is served without any request.  When the
    cache is consulted ([useCache] or [isOffline]) and holds a non-empty
    translation of the text, [translateText] resolves with it, sends
    nothing to the model or the network, logs the method "cache" and
    leaves the store as it is. *)
Theorem translate_cache_hit_is_local
    (genAI : option Client) (fetch : Fetch) (db : option Database) (now : Z)
    (txt hit : jsstring) (src tgt : SupportedLanguage) (options : TranslateOptions)
    (Hnonblank : trim txt <> [])
    (Hconsult : useCache options || isOffline options = true)
    (Hcached : getCachedTranslation db txt (lang_code src) (lang_code tgt) = Some hit)
    (Hhit : hit <> []) :
  let t := translateText genAI fetch db now txt src tgt options in
  translation t = Normal hit
  /\ to_model t = [] /\ to_network t = []
  /\ map method (logged t) = [by_cache]
  /\ database t = db.
Proof.
  intros t. subst t. by rewrite (translateText_hit _ _ _ _ _ _ _ _ hit).
Qed.

Lemma translate_cache_hit_is_local_witness :
  let db := cacheTranslation (Some empty_Database) (js "hello") (js "salut")
              (js "en") (js "fr") 5 in
  let ai : Client := fun _ => Throw ApiError in
  let fetch : Fetch := fun _ => Throw ApiError in
  let options := {| useCache := true; isOffline := false |} in
  trim (js "hello ") <> []
  /\ useCache options || isOffline options = true
  /\ getCachedTranslation db (js "hello ") (lang_code lang_en) (lang_code lang_fr)
     = Some (js "salut")
  /\ js "salut" <> []
  /\ translation (translateText (Some ai) fetch db 9 (js "hello ") lang_en lang_fr
                    options)
     = Normal (js "salut").
Proof.
  intros db ai fetch options.
  assert (H1 : trim (js "hello ") <> []) by (vm_compute; discriminate).
  assert (H4 : js "salut" <> []) by discriminate.
  split; [exact H1|]. split; [reflexivity|]. split; [reflexivity|].
  split; [exact H4|].
  exact (proj1 (translate_cache_hit_is_local (Some ai) fetch db 9 (js "hello ")
                  (js "salut") lang_en lang_fr options H1 eq_refl eq_refl H4)).
Defined.

(** X21.  [translateText] always answers.  Whatever the model, the
    network and the database do, its promise resolves; a blank text comes
    back as it is, with nothing sent and nothing stored; a text that is
    not blank never gives an empty result; at most one request goes to the
    model and one to the network; and the store is left as it was unless
    [useCache] is set and the result differs from the text, in which case
    exactly that result is handed to [cacheTranslation]. *)
Theorem translate_always_answers
    (genAI : option Client) (fetch : Fetch) (db : option Database) (now : Z)
    (txt : jsstring) (src tgt : SupportedLanguage) (options : TranslateOptions) :
  let t := translateText genAI fetch db now txt src tgt options in
  exists v,
    translation t = Normal v
    /\ (trim txt = [] ->
        v = txt /\ to_model t = [] /\ to_network t = [] /\ database t = db)
    /\ (trim txt <> [] -> v <> [])
    /\ length (to_model t) <= 1
    /\ length (to_network t) <= 1
    /\ (database t = db
        \/ (useCache options = true /\ v <> txt
            /\ database t
               = cacheTranslation db txt v (lang_code src) (lang_code tgt) now)).
Proof.
  intros t. subst t.
  destruct (trim txt) as [|c u] eqn:Htrim.
  { rewrite translateText_blank by done. exists txt. cbn.
    repeat split; try done; try lia. by left. }
  assert (Htxt : txt <> []) by (apply nonblank_nonempty; by rewrite Htrim).
  unfold translateText. rewrite Htrim. cbn [truthy negb].
  destruct (useCache options || isOffline options) eqn:Hconsult; cbn [andb].
  - destruct (getCachedTranslation db txt (lang_code src) (lang_code tgt))
      as [[|d v]|] eqn:Hget; cbn [truthy_opt truthy default].
    all: try (eexists; cbn; repeat split; try done; try lia; by left).
    all: destruct (isOffline options) eqn:Hoff.
    all: try (eexists; cbn; repeat split; try done; try lia;
              solve [by left | by destruct txt]).
    all: destruct genAI as [ai|]; [destruct (ai _) as [response|e]|].
    all: cbn [truthy negb];
      try (destruct (trimmed_text response []) as [|d' v'] eqn:Hfirst);
      cbn [truthy negb].
    all: try (destruct (eqb_units (d' :: v') txt) eqn:Heq; cbn [negb]).
    all: try (destruct (fallbackTranslate fetch txt src tgt) as [result|e'] eqn:Hfb;
              [pose proof (fallbackTranslate_nonempty _ _ _ _ _ Htxt Hfb) as Hres;
               apply truthy_true in Hres as Htr; rewrite Htr; cbn [andb];
               destruct (eqb_units result txt) eqn:Heq'; cbn [negb]|]).
    all: eexists; cbn [translation to_model to_network database length];
      (split; [reflexivity|]); (split; [done|]); (split; [by intros _|]);
      (split; [lia|]); (split; [lia|]).
    all: try (left; reflexivity).
    all: destruct (useCache options) eqn:Hcache; [|by left].
    all: right; split; [done|]; split; [|done].
    all: first [by apply eqb_units_false].
  - all: destruct genAI as [ai|]; [destruct (ai _) as [response|e]|].
    all: cbn [truthy negb];
      try (destruct (trimmed_text response []) as [|d' v'] eqn:Hfirst);
      cbn [truthy negb].
    all: try (destruct (eqb_units (d' :: v') txt) eqn:Heq; cbn [negb]).
    all: try (destruct (fallbackTranslate fetch txt src tgt) as [result|e'] eqn:Hfb;
              [pose proof (fallbackTranslate_nonempty _ _ _ _ _ Htxt Hfb) as Hres;
               apply truthy_true in Hres as Htr; rewrite Htr; cbn [andb];
               destruct (eqb_units result txt) eqn:Heq'; cbn [negb]|]).
    all: eexists; cbn [translation to_model to_network database length];
      (split; [reflexivity|]); (split; [done|]); (split; [by intros _|]);
      (split; [lia|]); (split; [lia|]).
    all: try (left; reflexivity).
    all: destruct (useCache options) eqn:Hcache; [|by left].
    all: right; split; [done|]; split; [|done].
    all: first [by apply eqb_units_false].
Qed.

Section TranslationMore.

(** With [useCache], a result that differs from the text is stored. *)
Lemma translateText_stores genAI fetch db now txt src tgt options v :
  trim txt <> [] ->
  useCache options = true -> isOffline options = false ->
  truthy_opt (getCachedTranslation db txt (lang_code src) (lang_code tgt)) = false ->
  translation (translateText genAI fetch db now txt src tgt options) = Normal v ->
  v <> txt ->
  v <> []
  /\ database (translateText genAI fetch db now txt src tgt options)
     = cacheTranslation db txt v (lang_code src) (lang_code tgt) now.
Proof.
  intros Htrim Hcache Hoff Hmiss. unfold translateText.
  pose proof (nonblank_nonempty _ Htrim) as Htxt.
  apply truthy_true in Htrim. rewrite Htrim, Hcache, Hoff.
  cbn [negb andb orb]. rewrite Hmiss. cbn [andb].
  destruct genAI as [ai|]; [destruct (ai _) as [response|e]|].
  all: cbn [truthy negb];
    try (destruct (trimmed_text response []) as [|d' v'] eqn:Hfirst);
    cbn [truthy negb].
  all: try (destruct (eqb_units (d' :: v') txt) eqn:Heq; cbn [negb]).
  all: try (destruct (fallbackTranslate fetch txt src tgt) as [result|e'] eqn:Hfb;
            [pose proof (fallbackTranslate_nonempty _ _ _ _ _ Htxt Hfb) as Hres;
             apply truthy_true in Hres as Htr; rewrite Htr; cbn [andb];
             destruct (eqb_units result txt) eqn:Heq'; cbn [negb]|]).
  all: cbn [translation database]; intros [= <-] Hne; try done.
  all: try (apply eqb_units_true in Heq; done).
  all: try (apply eqb_units_true in Heq'; done).
Qed.

(** When the model gives nothing and the network fails, the text comes
    back. *)
Lemma translateText_fails genAI fetch db now txt src tgt options e :
  trim txt <> [] ->
  isOffline options = false ->
  useCache options = false
  \/ truthy_opt (getCachedTranslation db txt (lang_code src) (lang_code tgt)) = false ->
  match genAI with
  | Some ai =>
      match ai (translate_request txt src tgt) with
      | Normal response => trimmed_text response [] = []
      | Throw _ => True
      end
  | None => True
  end ->
  fallbackTranslate fetch txt src tgt = Throw e ->
  let t := translateText genAI fetch db now txt src tgt options in
  translation t = Normal txt /\ database t = db /\ logged t = []
  /\ to_network t = [fallback_request txt src tgt]
  /\ 1 <= complained t.
Proof.
  intros Htrim Hoff Hmiss Hmodel Hfetch t. subst t. unfold translateText.
  apply truthy_true in Htrim. rewrite Htrim, Hoff, orb_false_r. cbn [negb].
  assert (Hskip : useCache options
                  && truthy_opt (if useCache options
                                 then getCachedTranslation db txt (lang_code src)
                                        (lang_code tgt)
                                 else None) = false).
  { destruct Hmiss as [-> | Hm]; [done|].
    destruct (useCache options); [by rewrite Hm | done]. }
  rewrite Hskip, andb_false_r.
  destruct genAI as [ai|]; [destruct (ai _) as [response|e0]|].
  - rewrite Hmodel. cbn [truthy negb]. rewrite Hfetch. cbn. repeat split; lia.
  - cbn [truthy negb]. rewrite Hfetch. cbn. repeat split; lia.
  - cbn [truthy negb]. rewrite Hfetch. cbn. repeat split; lia.
Qed.

Lemma trimStart_snoc (s : jsstring) (c : N) :
  is_white_space c = false -> exists front, trimStart (s ++ [c]) = front ++ [c].
Proof.
  intros Hc. induction s as [|d s (front & IH)].
  - exists []. cbn. by rewrite Hc.
  - cbn [app trimStart]. destruct (is_white_space d); [by exists front|].
    by exists (d :: s).
Qed.

Lemma trim_snoc (s : jsstring) (c : N) :
  is_white_space c = false -> trim (s ++ [c]) <> [].
Proof.
  intros Hc. unfold trim. destruct (trimStart_snoc s c Hc) as (front & ->).
  replace (front ++ [c]) with ((front ++ [c]) ++ []) by apply app_nil_r.
  rewrite trimEnd_white by done. by destruct front.
Qed.

Lemma offline_marker_nonblank (txt : jsstring) : trim (txt ++ js " [OFFLINE]") <> [].
Proof.
  change (js " [OFFLINE]") with (js " [OFFLINE" ++ [93%N]).
  rewrite app_assoc. by apply trim_snoc.
Qed.

Lemma empty_cache_misses db o s t :
  getTranslationCacheSize db = 0 -> getCachedTranslation db o s t = None.
Proof.
  destruct db as [[[|e l] n]|]; [done | by cbn | done].
Qed.

Lemma realTimeTranslate_offline genAI fetch db now ts text :
  realTimeTranslation ts = true -> offlineMode ts = true ->
  getTranslationCacheSize db = 0 ->
  3 < length text -> trim text <> [] ->
  exists t,
    realTimeTranslate genAI fetch db now ts false false text
    = {| translate_call := Some t; text_after := text ++ js " [OFFLINE]";
         store_after := db |}
    /\ to_model t = [] /\ to_network t = [].
Proof.
  intros Hrt Hoff Hempty Hlong Htrim. unfold realTimeTranslate.
  rewrite Hrt, Hoff. pose proof Htrim as Htr. apply truthy_true in Htr.
  rewrite Htr. cbn [negb orb].
  destruct (Nat.ltb_spec 3 (length text)); [|lia].
  rewrite translateText_offline_miss;
    [|done|done|by rewrite empty_cache_misses].
  assert (Hne : eqb_units (text ++ js " [OFFLINE]") text = false).
  { apply eqb_units_false. intros Heq. apply (f_equal length) in Heq.
    rewrite length_app in Heq. simpl in Heq. lia. }
  eexists. cbn [translation database]. rewrite Hne. cbn [negb].
  split; [reflexivity|]. by split.
Qed.

End TranslationMore.

(** X22.  A translation is served from the cache the next time.  With
    [useCache] set and online, when a text that is not blank and not yet
    cached is translated to something different from the text, the result
    is stored, and any later call for the same text and language pair that
    consults the cache resolves with the same result without a request to
    the model or the network. *)
Theorem translation_is_cached_for_next_call
    (genAI : option Client) (fetch : Fetch) (d : Database) (now : Z)
    (txt v : jsstring) (src tgt : SupportedLanguage)
    (Hnonblank : trim txt <> [])
    (Hmiss : getCachedTranslation (Some d) txt (lang_code src) (lang_code tgt) = None)
    (Hfirst : translation (translateText genAI fetch (Some d) now txt src tgt
                             {| useCache := true; isOffline := false |}) = Normal v)
    (Hchanged : v <> txt) :
  let db1 := database (translateText genAI fetch (Some d) now txt src tgt
                         {| useCache := true; isOffline := false |}) in
  getCachedTranslation db1 txt (lang_code src) (lang_code tgt) = Some v
  /\ forall genAI' fetch' now' options',
       useCache options' || isOffline options' = true ->
       let t := translateText genAI' fetch' db1 now' txt src tgt options' in
       translation t = Normal v /\ to_model t = [] /\ to_network t = []
       /\ database t = db1.
Proof.
  intros db1.
  destruct (translateText_stores genAI fetch (Some d) now txt src tgt
              {| useCache := true; isOffline := false |} v)
    as (Hv & Hdb); try done; [by rewrite Hmiss|].
  assert (Hget : getCachedTranslation db1 txt (lang_code src) (lang_code tgt) = Some v).
  { subst db1. rewrite Hdb, getCachedTranslation_after, Hmiss.
    by rewrite bool_decide_eq_true_2. }
  split; [exact Hget|].
  intros genAI' fetch' now' options' Hconsult t. subst t.
  by rewrite (translateText_hit _ _ _ _ _ _ _ _ v).
Qed.

Lemma translation_is_cached_for_next_call_witness :
  let ai : Client := fun _ => Normal {| Gemini.text := Some (js " bonjour ") |} in
  let fetch : Fetch := fun _ => Throw ApiError in
  let first := translateText (Some ai) fetch (Some empty_Database) 7 (js "hello")
                 lang_en lang_fr {| useCache := true; isOffline := false |} in
  trim (js "hello") <> []
  /\ getCachedTranslation (Some empty_Database) (js "hello")
       (lang_code lang_en) (lang_code lang_fr) = None
  /\ translation first = Normal (js "bonjour")
  /\ js "bonjour" <> js "hello"
  /\ getCachedTranslation (database first) (js "hello")
       (lang_code lang_en) (lang_code lang_fr) = Some (js "bonjour").
Proof.
  intros ai fetch first.
  assert (H1 : trim (js "hello") <> []) by (vm_compute; discriminate).
  assert (H4 : js "bonjour" <> js "hello") by discriminate.
  split; [exact H1|]. split; [reflexivity|]. split; [reflexivity|].
  split; [exact H4|].
  exact (proj1 (translation_is_cached_for_next_call (Some ai) fetch empty_Database 7
                  (js "hello") (js "bonjour") lang_en lang_fr
                  H1 eq_refl eq_refl H4)).
Defined.

(** X23.  When every service fails the text is returned.  Online, without
    a cached translation, when the model is not configured, rejects the
    request or answers without text, and the network fallback fails,
    [translateText] resolves with the text unchanged, stores and logs
    nothing, and has asked the network once and complained at least
    once. *)
Theorem translation_failure_returns_text
    (genAI : option Client) (fetch : Fetch) (db : option Database) (now : Z)
    (txt : jsstring) (src tgt : SupportedLanguage) (options : TranslateOptions)
    (e : exn)
    (Hnonblank : trim txt <> [])
    (Honline : isOffline options = false)
    (Hmiss : useCache options = false
             \/ truthy_opt (getCachedTranslation db txt (lang_code src)
                              (lang_code tgt)) = false)
    (Hmodel : match genAI with
              | Some ai =>
                  match ai (translate_request txt src tgt) with
                  | Normal response => trimmed_text response [] = []
                  | Throw _ => True
                  end
              | None => True
              end)
    (Hfetch : fallbackTranslate fetch txt src tgt = Throw e) :
  let t := translateText genAI fetch db now txt src tgt options in
  translation t = Normal txt /\ database t = db /\ logged t = []
  /\ to_network t = [fallback_request txt src tgt]
  /\ 1 <= complained t.
Proof. by eapply translateText_fails. Qed.

Lemma translation_failure_returns_text_witness :
  let ai : Client := fun _ => Throw ApiError in
  let fetch : Fetch := fun _ => Normal {| ok := false; translatedText := Normal None |} in
  let options := {| useCache := false; isOffline := false |} in
  trim (js "hello") <> []
  /\ isOffline options = false
  /\ fallbackTranslate fetch (js "hello") lang_auto lang_en = Throw ApiError
  /\ translation (translateText (Some ai) fetch None 3 (js "hello")
                    lang_auto lang_en options) = Normal (js "hello").
Proof.
  intros ai fetch options.
  assert (H1 : trim (js "hello") <> []) by (vm_compute; discriminate).
  split; [exact H1|]. split; [reflexivity|]. split; [reflexivity|].
  exact (proj1 (translation_failure_returns_text (Some ai) fetch None 3 (js "hello")
                  lang_auto lang_en options ApiError H1 eq_refl
                  (or_introl eq_refl) I eq_refl)).
Defined.

(** X24.  Real-time translation in offline mode marks the buffer, again
    and again.  With real-time translation and offline mode on and an
    empty (or unavailable) translation cache, a run of the effect on a
    buffer of more than 3 code units that is not blank replaces it by the
    buffer followed by " [OFFLINE]", without any request; since the result
    is again such a buffer, every further run of the effect appends the
    marker once more. *)
Theorem offline_rounds_append_marker
    (clock : list Z) (genAI : option Client) (fetch : Fetch)
    (db : option Database) (ts : TranslationSettings) (text : jsstring)
    (Hrealtime : realTimeTranslation ts = true)
    (Hoffline : offlineMode ts = true)
    (Hempty : getTranslationCacheSize db = 0)
    (Hlong : 3 < length text)
    (Hnonblank : trim text <> []) :
  exists calls,
    realTimeTranslate_rounds clock genAI fetch db ts text
    = (calls, text ++ concat (replicate (length clock) (js " [OFFLINE]")), db)
    /\ length calls = length clock
    /\ Forall (fun t => to_model t = [] /\ to_network t = []) calls.
Proof.
  revert text Hlong Hnonblank.
  induction clock as [|now later IH]; intros text Hlong Hnonblank.
  - exists []. cbn. by rewrite app_nil_r.
  - destruct (realTimeTranslate_offline genAI fetch db now ts text)
      as (t & Hround & Hm & Hn); try done.
    destruct (IH (text ++ js " [OFFLINE]")) as (calls & Hrest & Hlen & Hall).
    { rewrite length_app. lia. }
    { apply offline_marker_nonblank. }
    exists (t :: calls). cbn [realTimeTranslate_rounds].
    rewrite Hround. cbn [store_after text_after translate_call]. rewrite Hrest.
    cbn [length replicate concat app]. rewrite <- app_assoc.
    split; [done|]. split; [by rewrite Hlen|]. by constructor.
Qed.

Lemma offline_rounds_append_marker_witness :
  let ts := {| realTimeTranslation := true; translationSource := lang_auto;
               translationTarget := lang_en; cacheTranslations := true;
               offlineMode := true |} in
  realTimeTranslation ts = true /\ offlineMode ts = true
  /\ getTranslationCacheSize None = 0
  /\ 3 < length (js "salut")
  /\ trim (js "salut") <> []
  /\ exists calls,
       realTimeTranslate_rounds [10; 20]%Z None (fun _ => Throw ApiError) None ts
         (js "salut")
       = (calls, js "salut [OFFLINE] [OFFLINE]", None).
Proof.
  intros ts.
  assert (Hlong : 3 < length (js "salut")) by (simpl; lia).
  assert (Hnb : trim (js "salut") <> []) by (vm_compute; discriminate).
  split; [reflexivity|]. split; [reflexivity|]. split; [reflexivity|].
  split; [exact Hlong|]. split; [exact Hnb|].
  destruct (offline_rounds_append_marker [10; 20]%Z None (fun _ => Throw ApiError)
              None ts (js "salut") eq_refl eq_refl eq_refl Hlong Hnb)
    as (calls & Hrun & _).
  exists calls. exact Hrun.
Defined.


(** ** The automatic size manager *)

Section AutoSizeFacts.

Lemma chain_app prev l1 l2 :
  chain prev (l1 ++ l2) <-> chain prev l1 /\ chain (last_of prev l1) l2.
Proof.
  revert prev. induction l1 as [|s l1 IH]; intros prev; cbn.
  - naive_solver.
  - rewrite IH. unfold last_of. naive_solver.
Qed.

Lemma last_of_app prev l1 l2 :
  last_of prev (l1 ++ l2) = last_of (last_of prev l1) l2.
Proof. unfold last_of. by rewrite fold_left_app. Qed.

Lemma chain_adjacent prev l :
  chain prev l -> adjacent_distinct (option_list prev ++ l).
Proof.
  revert prev. induction l as [|s l IH]; intros prev.
  - by destruct prev.
  - intros [Hne Hrest]. apply IH in Hrest. cbn in Hrest.
    destruct prev as [p|]; cbn; [|done]. split; [congruence|done].
Qed.

Lemma last_of_last prev l : last_of prev l = last (option_list prev ++ l).
Proof.
  revert prev. induction l as [|s l IH]; intros prev.
  - destruct prev; by cbn.
  - unfold last_of. cbn [fold_left]. fold (last_of (Some s) l). rewrite IH.
    destruct prev as [p|]; cbn [option_list app]; [|done].
    by destruct l.
Qed.

Lemma continues_refl this : continues this (this, []).
Proof. by repeat split. Qed.

Lemma suggest_continues this sz why :
  lastSuggestion this <> Some sz -> continues this (suggest this sz why).
Proof.
  intros Hne. unfold suggest. destruct (callback this) as [cb|] eqn:Hcb;
    [|apply continues_refl].
  by repeat split.
Qed.

Lemma evaluateAll_continues env this : continues this (evaluateAll env this).
Proof.
  unfold evaluateAll.
  destruct (bool_decide _ && _); case_bool_decide;
    first [by apply suggest_continues | apply continues_refl].
Qed.

Lemma analyzeTypingSpeed_continues env this :
  continues this (analyzeTypingSpeed env this).
Proof.
  unfold analyzeTypingSpeed.
  destruct (_ <? _)%nat; [apply continues_refl|].
  case_bool_decide; [|apply continues_refl].
  destruct (Qltb _ _); cbn [andb].
  - case_bool_decide; [by apply suggest_continues|].
    destruct (Qltb _ _); cbn [andb]; [|apply continues_refl].
    case_bool_decide; [by apply suggest_continues | apply continues_refl].
  - destruct (Qltb _ _); cbn [andb]; [|apply continues_refl].
    case_bool_decide; [by apply suggest_continues | apply continues_refl].
Qed.

(** Every operation continues the chain of suggestions. *)
Lemma auto_step_chain o this :
  chain (lastSuggestion this) (map size (snd (auto_step o this)))
  /\ lastSuggestion (fst (auto_step o this))
     = last_of (lastSuggestion this) (map size (snd (auto_step o this))).
Proof.
  destruct o as [cb env env'| |env|env|env]; cbn [auto_step].
  - unfold enable. destruct (isEnabled this); [done|].
    unfold checkTimeOfDay. cbn [isEnabled negb].
    match goal with |- context [evaluateAll env ?s] => set (started := s) end.
    pose proof (evaluateAll_continues env started) as (_ & _ & _ & _ & Hc1 & Hl1).
    destruct (evaluateAll env started) as [checked first]. cbn [fst snd] in *.
    match goal with |- context [evaluateAll env' ?s] => set (timed := s) end.
    pose proof (evaluateAll_continues env' timed) as (_ & _ & _ & _ & Hc2 & Hl2).
    destruct (evaluateAll env' timed) as [evaluated second]. cbn [fst snd] in *.
    subst timed started. cbn [lastSuggestion] in *.
    rewrite map_app, chain_app, last_of_app, <- Hl1. by split.
  - done.
  - unfold reportKeyPress. destruct (isEnabled this); [|done]. cbn [negb].
    match goal with |- context [analyzeTypingSpeed env ?s] => set (pushed := s) end.
    by pose proof (analyzeTypingSpeed_continues env pushed) as (_ & _ & _ & _ & Hc & Hl).
  - unfold handleResize. destruct (isEnabled this); [|done].
    by pose proof (evaluateAll_continues env this) as (_ & _ & _ & _ & Hc & Hl).
  - destruct (timeCheckInterval this); [|done].
    unfold checkTimeOfDay. destruct (isEnabled this); [|done].
    by pose proof (evaluateAll_continues env this) as (_ & _ & _ & _ & Hc & Hl).
Qed.

Lemma auto_run_chain os this :
  chain (lastSuggestion this) (map size (snd (auto_run os this)))
  /\ lastSuggestion (fst (auto_run os this))
     = last_of (lastSuggestion this) (map size (snd (auto_run os this))).
Proof.
  revert this. induction os as [|o rest IH]; intros this; [done|].
  cbn [auto_run].
  pose proof (auto_step_chain o this) as [Hc Hl].
  destruct (auto_step o this) as [next out]. cbn [fst snd] in *.
  pose proof (IH next) as [Hc' Hl'].
  destruct (auto_run rest next) as [final outs]. cbn [fst snd] in *.
  rewrite map_app, chain_app, last_of_app, <- Hl. by split.
Qed.

End AutoSizeFacts.

(** X25.  The size manager never suggests the same size twice in a row.
    Over any sequence of calls of [enable], [disable] and
    [reportKeyPress], window resizes and timer ticks, from any state of
    the manager, each suggested size differs from the one suggested
    before it (the first from [lastSuggestion] at the start), and
    [lastSuggestion] ends as the size suggested last. *)
Theorem suggestions_never_repeat (os : list auto_op) (this : AutoSizeManager) :
  adjacent_distinct (sizes_from (lastSuggestion this) (snd (auto_run os this)))
  /\ lastSuggestion (fst (auto_run os this))
     = last (sizes_from (lastSuggestion this) (snd (auto_run os this))).
Proof.
  pose proof (auto_run_chain os this) as [Hc Hl]. unfold sizes_from. split.
  - by apply chain_adjacent.
  - by rewrite Hl, last_of_last.
Qed.


Section AutoSizeInvariant.

Lemma auto_ok_new : auto_ok new_AutoSizeManager.
Proof. unfold auto_ok. cbn. split; [lia|]. by split. Qed.

(** A method that only moves [lastSuggestion] keeps the invariant. *)
Lemma auto_ok_continues this r : continues this r -> auto_ok this -> auto_ok (fst r).
Proof.
  intros (He & Hcb & Hts & Htimer & _) Hok. unfold auto_ok in *.
  by rewrite He, Hcb, Hts, Htimer.
Qed.

Lemma auto_ok_step o this : auto_ok this -> auto_ok (fst (auto_step o this)).
Proof.
  intros Hok. destruct o as [cb env env'| |env|env|env]; cbn [auto_step].
  - unfold enable. destruct (isEnabled this) eqn:Hen; [done|].
    destruct Hok as (Hlen & Hoff & _). destruct (Hoff Hen) as (Hts & _).
    unfold checkTimeOfDay. cbn [isEnabled negb].
    match goal with |- context [evaluateAll env ?s] => set (started := s) end.
    pose proof (evaluateAll_continues env started) as (He1 & Hcb1 & Hts1 & _).
    destruct (evaluateAll env started) as [checked first]. cbn [fst snd] in *.
    match goal with |- context [evaluateAll env' ?s] => set (timed := s) end.
    pose proof (evaluateAll_continues env' timed) as (He2 & Hcb2 & Hts2 & Ht2 & _).
    destruct (evaluateAll env' timed) as [evaluated second]. cbn [fst snd] in *.
    subst timed started. cbn in He1, Hcb1, Hts1, He2, Hcb2, Hts2, Ht2.
    unfold auto_ok. rewrite He2, Hcb2, Hts2, Ht2, He1, Hcb1, Hts1, Hts.
    cbn. split; [lia|]. by split.
  - unfold disable, auto_ok. cbn. split; [lia|]. by split.
  - unfold reportKeyPress. destruct (isEnabled this) eqn:Hen; [|done]. cbn [negb].
    match goal with |- context [analyzeTypingSpeed env ?s] => set (pushed := s) end.
    apply (auto_ok_continues pushed); [apply analyzeTypingSpeed_continues|].
    destruct Hok as (Hlen & _ & Hon). destruct (Hon Hen) as (Hcb & Htimer).
    subst pushed. unfold auto_ok.
    cbn [isEnabled callback keyTimestamps timeCheckInterval]. split; [|by split].
    destruct (Nat.ltb_spec 20 (length (keyTimestamps this ++ [now env])))
      as [Hbig|Hsmall]; [|lia].
    unfold array_shift. destruct (keyTimestamps this) as [|t ts]; cbn in *; [lia|].
    rewrite length_app. cbn. lia.
  - unfold handleResize. destruct (isEnabled this); [|done].
    by apply (auto_ok_continues this); [apply evaluateAll_continues|].
  - destruct (timeCheckInterval this); [|done].
    unfold checkTimeOfDay. destruct (isEnabled this); [|done].
    by apply (auto_ok_continues this); [apply evaluateAll_continues|].
Qed.

Lemma auto_run_cons o rest this :
  auto_run (o :: rest) this
  = (fst (auto_run rest (fst (auto_step o this))),
     snd (auto_step o this) ++ snd (auto_run rest (fst (auto_step o this)))).
Proof.
  cbn [auto_run]. destruct (auto_step o this) as [next out]. cbn [fst snd].
  by destruct (auto_run rest next).
Qed.

Lemma auto_ok_run os this : auto_ok this -> auto_ok (fst (auto_run os this)).
Proof.
  revert this. induction os as [|o rest IH]; intros this Hok; [done|].
  rewrite auto_run_cons. cbn [fst]. by apply IH, auto_ok_step.
Qed.

(** While disabled, everything but [enable] leaves the manager alone. *)
Lemma auto_step_disabled o this :
  is_enable o = false ->
  auto_step o (disable this) = (disable this, [])
  /\ disable (disable this) = disable this.
Proof. by destruct o. Qed.

Lemma auto_run_disabled os this :
  forallb (fun o => negb (is_enable o)) os = true ->
  auto_run os (disable this) = (disable this, []).
Proof.
  induction os as [|o rest IH]; [done|]. cbn [forallb auto_run].
  intros [Ho Hrest]%andb_true_iff. apply negb_true_iff in Ho.
  destruct (auto_step_disabled o this Ho) as [-> _]. by rewrite (IH Hrest).
Qed.

End AutoSizeInvariant.

(** X26.  The size manager keeps a bounded window of key presses and a
    consistent registration.  After any sequence of calls of [enable],
    [disable] and [reportKeyPress], window resizes and timer ticks on a
    new manager, at most 20 timestamps are kept; while the manager is
    disabled it holds no timestamp and no callback and its timer is
    stopped, and while it is enabled it holds a callback and its timer
    runs. *)
Theorem size_manager_invariant (os : list auto_op) :
  let this := fst (auto_run os new_AutoSizeManager) in
  length (keyTimestamps this) <= 20
  /\ (isEnabled this = false ->
      keyTimestamps this = [] /\ callback this = None
      /\ timeCheckInterval this = false)
  /\ (isEnabled this = true ->
      callback this <> None /\ timeCheckInterval this = true).
Proof. apply (auto_ok_run os new_AutoSizeManager), auto_ok_new. Qed.

(** X27.  [disable] silences the manager.  After [disable], from any
    state, no key press, window resize or timer tick calls the callback or
    changes the manager, until [enable] is called again. *)
Theorem disable_silences (os : list auto_op) (this : AutoSizeManager)
    (Hquiet : forallb (fun o => negb (is_enable o)) os = true) :
  auto_run os (disable this) = (disable this, []).
Proof. by apply auto_run_disabled. Qed.

Lemma disable_silences_witness :
  let env := {| innerWidth := 400; innerHeight := 800; now := 1000; hours := 23 |} in
  let os := [KeyPress env; Resize env; Tick env; Disable; KeyPress env] in
  let this := fst (auto_run [Enable 1 env env; KeyPress env] new_AutoSizeManager) in
  isEnabled this = true
  /\ auto_run os (disable this) = (disable this, []).
Proof.
  intros env os this. split; [reflexivity|].
  exact (disable_silences os this eq_refl).
Defined.


Section TypingSpeed.

(** The sum of the gaps between neighbours is the last minus the first. *)
Lemma totalDiff_telescopes (ts : list Z) (k : nat) :
  fold_left (fun acc i => (acc + (timestamp_at ts i - timestamp_at ts (i - 1)))%Z)
    (seq 1 k) 0%Z
  = (timestamp_at ts k - timestamp_at ts 0)%Z.
Proof.
  induction k as [|k IH]; [cbn; lia|].
  rewrite seq_S, fold_left_app, IH. cbn [fold_left Nat.add].
  replace (S k - 1) with k by lia. lia.
Qed.

Lemma totalDiff_span (ts : list Z) : totalDiff ts = span ts.
Proof.
  unfold totalDiff, span. rewrite totalDiff_telescopes.
  unfold timestamp_at. rewrite last_lookup, head_lookup.
  by replace (length ts - 1) with (pred (length ts)) by lia.
Qed.

Lemma avg_below (t g bound : Z) :
  (0 < g)%Z ->
  Qltb (inject_Z t / inject_Z g) (inject_Z bound) = (t <? bound * g)%Z.
Proof.
  intros Hg. destruct g as [|p|p]; try lia.
  unfold Qltb, Qle_bool, Qdiv, Qinv, Qmult, inject_Z. cbn.
  rewrite Pos.mul_1_l, !Z.mul_1_r.
  destruct (Z.leb_spec (bound * Z.pos p) t), (Z.ltb_spec t (bound * Z.pos p));
    cbn; lia.
Qed.

Lemma avg_above (t g bound : Z) :
  (0 < g)%Z ->
  Qltb (inject_Z bound) (inject_Z t / inject_Z g) = (bound * g <? t)%Z.
Proof.
  intros Hg. destruct g as [|p|p]; try lia.
  unfold Qltb, Qle_bool, Qdiv, Qinv, Qmult, inject_Z. cbn.
  rewrite ?Pos.mul_1_l, ?Pos.mul_1_r, ?Z.mul_1_r.
  match goal with
  | |- negb (?a <=? ?b)%Z = _ =>
      destruct (Z.leb_spec a b), (Z.ltb_spec (bound * Z.pos p) t); cbn; lia
  end.
Qed.

Lemma analyzeTypingSpeed_span env this cb :
  callback this = Some cb ->
  determineContext env = portrait_mobile ->
  5 <= length (keyTimestamps this) ->
  map size (snd (analyzeTypingSpeed env this))
  = if (span (keyTimestamps this) <? 120 * gaps (keyTimestamps this))%Z
       && bool_decide (lastSuggestion this <> Some small)
    then [small]
    else if (400 * gaps (keyTimestamps this) <? span (keyTimestamps this))%Z
            && bool_decide (lastSuggestion this <> Some large)
    then [large]
    else [].
Proof.
  intros Hcb Hctx Hlen. unfold analyzeTypingSpeed.
  destruct (Nat.ltb_spec (length (keyTimestamps this)) 5); [lia|].
  rewrite Hctx, bool_decide_eq_true_2 by done.
  unfold avgDiff. rewrite totalDiff_span.
  fold (gaps (keyTimestamps this)).
  assert (Hg : (0 < gaps (keyTimestamps this))%Z) by (unfold gaps; lia).
  rewrite avg_below, avg_above by done.
  unfold suggest. rewrite Hcb.
  destruct (_ <? _)%Z; cbn [andb]; [case_bool_decide; [done|]|];
    (destruct (_ <? _)%Z; cbn [andb]; [by case_bool_decide | done]).
Qed.

Lemma evaluateAll_recommended env this cb :
  callback this = Some cb ->
  lastSuggestion (fst (evaluateAll env this)) = Some (recommended env)
  /\ map size (snd (evaluateAll env this))
     = (if bool_decide (lastSuggestion this = Some (recommended env))
        then [] else [recommended env])
  /\ Forall (fun s => receiver s = cb) (snd (evaluateAll env this)).
Proof.
  intros Hcb. unfold evaluateAll, recommended, suggest. rewrite Hcb.
  destruct (bool_decide _ && _).
  all: case_bool_decide as H1; case_bool_decide as H2; try done; cbn.
  all: try (by destruct (lastSuggestion this) as [s|]; [destruct H1; congruence|]).
  all: repeat split; try done; by repeat constructor.
Qed.

End TypingSpeed.

(** X28.  The typing speed is judged by the first and the last retained
    key press only.  With a callback registered, on a portrait phone and
    with at least 5 retained timestamps, [analyzeTypingSpeed] suggests
    [small] when the time from the first to the last retained key press is
    below 120 ms times the number of gaps and [small] was not suggested
    last; else [large] when it is above 400 ms times the number of gaps
    and [large] was not suggested last; else nothing.  The timestamps in
    between have no influence. *)
Theorem typing_speed_uses_span (env : Env) (this : AutoSizeManager) (cb : nat)
    (Hcallback : callback this = Some cb)
    (Hportrait : determineContext env = portrait_mobile)
    (Hsamples : 5 <= length (keyTimestamps this)) :
  map size (snd (analyzeTypingSpeed env this))
  = if (span (keyTimestamps this) <? 120 * gaps (keyTimestamps this))%Z
       && bool_decide (lastSuggestion this <> Some small)
    then [small]
    else if (400 * gaps (keyTimestamps this) <? span (keyTimestamps this))%Z
            && bool_decide (lastSuggestion this <> Some large)
    then [large]
    else [].
Proof. by apply (analyzeTypingSpeed_span env this cb). Qed.

Lemma typing_speed_uses_span_witness :
  let env := {| innerWidth := 400; innerHeight := 800; now := 0; hours := 12 |} in
  let this := {| isEnabled := true; callback := Some 7;
                 keyTimestamps := [1000; 1900; 1950; 2000; 2050; 2100]%Z;
                 lastSuggestion := Some medium; timeCheckInterval := true |} in
  determineContext env = portrait_mobile
  /\ 5 <= length (keyTimestamps this)
  /\ map size (snd (analyzeTypingSpeed env this)) = [].
Proof.
  intros env this. split; [reflexivity|].
  assert (Hlen : 5 <= length (keyTimestamps this)) by (simpl; lia).
  split; [exact Hlen|].
  exact (typing_speed_uses_span env this 7 eq_refl eq_refl Hlen).
Defined.

(** X29.  [enable] brings the manager to the recommended size with at most
    one suggestion.  When a disabled manager is enabled and both of its
    checks read the same screen and hour, [lastSuggestion] ends as the
    recommended size ([large] at night on a portrait phone, else the size
    of the screen context); the callback just registered is called once
    with that size if it differs from the size suggested last, and not at
    all otherwise; the manager is enabled with its timer running. *)
Theorem enable_suggests_recommendation (cb : nat) (env : Env)
    (this : AutoSizeManager) (Hdisabled : isEnabled this = false) :
  let next := fst (enable cb env env this) in
  let out := snd (enable cb env env this) in
  lastSuggestion next = Some (recommended env)
  /\ map size out
     = (if bool_decide (lastSuggestion this = Some (recommended env))
        then [] else [recommended env])
  /\ Forall (fun s => receiver s = cb) out
  /\ isEnabled next = true /\ callback next = Some cb
  /\ timeCheckInterval next = true
  /\ keyTimestamps next = keyTimestamps this.
Proof.
  intros next out. subst next out. unfold enable, checkTimeOfDay.
  rewrite Hdisabled. cbn [isEnabled negb].
  match goal with |- context [evaluateAll env ?s] => set (started := s) end.
  pose proof (evaluateAll_continues env started) as (He1 & Hcb1 & Hts1 & _).
  pose proof (evaluateAll_recommended env started cb eq_refl) as (Hl1 & Hs1 & Hr1).
  destruct (evaluateAll env started) as [checked first]. cbn [fst snd] in *.
  match goal with |- context [evaluateAll env ?s] => set (timed := s) end.
  pose proof (evaluateAll_continues env timed) as (He2 & Hcb2 & Hts2 & Ht2 & _).
  pose proof (evaluateAll_recommended env timed cb Hcb1) as (Hl2 & Hs2 & Hr2).
  destruct (evaluateAll env timed) as [evaluated second]. cbn [fst snd] in *.
  subst timed started. cbn in He1, Hcb1, Hts1, He2, Hcb2, Hts2, Ht2, Hs1, Hs2.
  rewrite Hl1, bool_decide_eq_true_2 in Hs2 by done.
  apply map_eq_nil in Hs2 as ->. rewrite app_nil_r.
  by rewrite Hl2, Hs1, He2, He1, Hcb2, Hcb1, Ht2, Hts2, Hts1.
Qed.

Lemma enable_suggests_recommendation_witness :
  let env := {| innerWidth := 400; innerHeight := 800; now := 0; hours := 22 |} in
  isEnabled new_AutoSizeManager = false
  /\ recommended env = large
  /\ map size (snd (enable 3 env env new_AutoSizeManager)) = [large].
Proof.
  intros env. split; [reflexivity|]. split; [reflexivity|].
  exact (proj1 (proj2 (enable_suggests_recommendation 3 env new_AutoSizeManager
                         eq_refl))).
Defined.
